(** * An n-gram sentence generator: tokenizer, training and sampling

    Shallow embedding of [src/main.py]: the tokenizer [Corpus.tokenize], the
    corpus iterator, the training pass [NGramModel.init_ngram_dict], the
    sampling step [NGramModel.generate_token] and the generation loop
    [NGramModel.__call__]; and the preprocessing pass
    [Corpus.preprocess_book] with the line counter behind [Corpus.__len__].

    Conventions of the embedding.
    - A Python [str] is a [string]; its characters are [ascii] codes.  The
      whitespace and letter-case tables are Python's, restricted to code
      points below 128; other codes are ordinary characters.  The embedding
      is that of the code on ASCII text ([str.isascii]): a theorem whose
      conclusion would fail of the code on other text has that premise.
    - An [int] count is a [nat].  A probability is a [num], an instance of the
      class [Number] below: exact rationals ([Q]) or IEEE binary64 floats (the
      kernel's [float], which is what Python computes with).  What is said
      of the program is proved for every [Number] or for [binary64]; [Q] is
      the exact arithmetic that the specification compares it with.  The
      number a float stands for is read off its [spec_float], whose
      operations the kernel's axioms equate with the primitive ones.
    - A [dict] keeps its keys in insertion order.  The inner dictionaries,
      whose order decides which token a draw selects, are association lists
      with distinct keys ([odict]); the outer table, whose order is never
      observed, is a [gmap] keyed by the context tuple.
    - Both dictionaries are [defaultdict]s: reading a missing key inserts the
      default.  [generate_token] therefore returns the table it leaves behind
      together with its result.
    - [random.random()] is an argument: a generation run takes the list of the
      draws it will see, one per loop iteration, and answers [None] when the
      loop is still running after the last of them.  A run accepts any
      number as a draw; the draws that [random.random()] produces are the
      numbers of [unit_draw] over [Q] and the floats [k / 2^53] of
      [random_draw] in binary64.
    - The constants of [settings.py] are Section variables.
    - A character outside ASCII is the sequence of the bytes of its UTF-8
      encoding: the typographic quotation marks that [preprocess_book]
      replaces are three characters each.  The text is taken to hold no
      whitespace and no digit outside ASCII.
    - A text file read with [for line in f] is the list of its lines, each
      with its newline; a file that is written is the text written to it.
      Text mode leaves the line feed as the only line end. *)

From Stdlib Require Import Ascii String ZArith QArith Qpower Qround Lqa Uint63
  PrimFloat Floats.
From stdpp Require Import gmap strings list.

(** ** Python's string builtins, on ASCII text *)

Module Py.

Definition code (c : ascii) : nat := nat_of_ascii c.

(** [str.isspace] for one character. *)
Definition isspace (c : ascii) : bool :=
  let k := code c in
  ((9 <=? k)%nat && (k <=? 13)%nat) || ((28 <=? k)%nat && (k <=? 32)%nat).

Definition islower (c : ascii) : bool := (97 <=? code c)%nat && (code c <=? 122)%nat.
Definition isupper (c : ascii) : bool := (65 <=? code c)%nat && (code c <=? 90)%nat.

Definition toupper (c : ascii) : ascii :=
  if islower c then ascii_of_nat (code c - 32) else c.
Definition tolower (c : ascii) : ascii :=
  if isupper c then ascii_of_nat (code c + 32) else c.

(** [string.punctuation]; the double quote is character 34. *)
Definition punctuation : string :=
  "!" +:+ String (ascii_of_nat 34) "#$%&'()*+,-./:;<=>?@[\]^_`{|}~".

Fixpoint contains (c : ascii) (s : string) : bool :=
  match s with
  | EmptyString => false
  | String c' s' => Ascii.eqb c' c || contains c s'
  end.

(** [c in string.punctuation] for a character [c]. *)
Definition in_punctuation (c : ascii) : bool := contains c punctuation.

(** [token in set(string.punctuation)] for a whole string: the set holds
    the one-character strings. *)
Definition in_punctuation_set (token : string) : bool :=
  match token with
  | String c EmptyString => in_punctuation c
  | _ => false
  end.

(** [s[-1]], when [s] is not empty. *)
Fixpoint last_char (s : string) : option ascii :=
  match s with
  | EmptyString => None
  | String c s' =>
      match s' with
      | EmptyString => Some c
      | String _ _ => last_char s'
      end
  end.

(** [s[:-1]]. *)
Fixpoint drop_last (s : string) : string :=
  match s with
  | EmptyString => EmptyString
  | String c s' =>
      match s' with
      | EmptyString => EmptyString
      | String _ _ => String c (drop_last s')
      end
  end.

(** [str.split()] with no argument: the maximal runs of characters that
    are not whitespace.  [word] is the run being read. *)
Fixpoint split_from (word : string) (s : string) : list string :=
  match s with
  | EmptyString => if String.eqb word "" then [] else [word]
  | String c s' =>
      if isspace c
      then (if String.eqb word "" then split_from "" s'
            else word :: split_from "" s')
      else split_from (word +:+ String c "") s'
  end.

Definition split (s : string) : list string := split_from "" s.

(** [str.lower]. *)
Fixpoint lower (s : string) : string :=
  match s with
  | EmptyString => EmptyString
  | String c s' => String (tolower c) (lower s')
  end.

(** [str.title]: a letter that follows a letter is lowered, any other letter
    is raised. *)
Fixpoint title_from (previous_is_cased : bool) (s : string) : string :=
  match s with
  | EmptyString => EmptyString
  | String c s' =>
      if islower c
      then String (if previous_is_cased then c else toupper c) (title_from true s')
      else if isupper c
      then String (if previous_is_cased then tolower c else c) (title_from true s')
      else String c (title_from false s')
  end.

Definition title (s : string) : string := title_from false s.

(** [str.rstrip()] and [str.strip()]. *)
Fixpoint rstrip (s : string) : string :=
  match s with
  | EmptyString => EmptyString
  | String c s' =>
      match rstrip s' with
      | EmptyString => if isspace c then EmptyString else String c EmptyString
      | r => String c r
      end
  end.

Fixpoint lstrip (s : string) : string :=
  match s with
  | EmptyString => EmptyString
  | String c s' => if isspace c then lstrip s' else s
  end.

Definition strip (s : string) : string := lstrip (rstrip s).

(** [l[a:b]] for [0 <= a <= b]. *)
Definition slice {A} (l : list A) (a b : nat) : list A := take (b - a) (drop a l).

End Py.

(** ** Results of a call *)

(** A raised exception, by its message: the source raises the plain
    [Exception] class only. *)
Inductive exn : Type :=
  | Exception (msg : string).

Inductive outcome (A : Type) : Type :=
  | Returned (a : A)
  | Raised (e : exn).
Arguments Returned {A} a.
Arguments Raised {A} e.

(** The failure of [generate_token], [Exception('No token was generated')]:
    what the specification calls DataSparsityError. *)
Definition DataSparsityError : exn := Exception "No token was generated".

(** ** The tokenizer: [Corpus.tokenize] and [Corpus.__iter__] *)

Module Corpus.
Import Py.

Section Tokenizer.

Variable SENTENCE_END_CHARS : list ascii.
Variable SENTENCE_END_TOKEN : string.

(** [c in SENTENCE_END_CHARS]. *)
Definition in_sentence_end (c : ascii) : bool :=
  existsb (Ascii.eqb c) SENTENCE_END_CHARS.

(** The first [while] loop: punctuation is peeled off the front of the word,
    each character appended to [special_chars_before_word]. *)
Fixpoint strip_before (token : string) (special_chars_before_word : list string)
  : list string * string :=
  match token with
  | String c token' =>
      if in_punctuation c
      then strip_before token' (special_chars_before_word ++ [String c ""])
      else (special_chars_before_word, token)
  | EmptyString => (special_chars_before_word, token)
  end.

(** The second [while] loop: punctuation is peeled off the end of the word,
    each character appended to [special_chars_after_word] as it is removed,
    followed by the end marker when it ends a sentence.  Every iteration
    shortens [token] by one character: [fuel] is its length. *)
Fixpoint strip_after (fuel : nat) (token : string)
    (special_chars_after_word : list string) : list string * string :=
  match fuel, last_char token with
  | S fuel', Some c =>
      if in_punctuation c
      then strip_after fuel' (drop_last token)
             (special_chars_after_word ++ [String c ""]
                ++ (if in_sentence_end c then [SENTENCE_END_TOKEN] else []))
      else (special_chars_after_word, token)
  | _, _ => (special_chars_after_word, token)
  end.

(** One iteration of [for token in tokens]. *)
Definition tokenize_word (tokens_processed : list string) (token : string)
  : list string :=
  let '(special_chars_before_word, token) := strip_before token [] in
  let '(special_chars_after_word, token) :=
    strip_after (String.length token) token [] in
  tokens_processed ++ special_chars_before_word ++ [token]
    ++ special_chars_after_word.

Definition tokenize (str : string) : list string :=
  fold_left tokenize_word (split str) [].

(** The symbols one trailing punctuation character contributes. *)
Definition emit (c : ascii) : list string :=
  String c "" :: (if in_sentence_end c then [SENTENCE_END_TOKEN] else []).

(** A word core whose last character is no punctuation. *)
Definition ends_in_word_char (core : string) : Prop :=
  exists c, last_char core = Some c /\ in_punctuation c = false.

(** [Corpus.__iter__], over the lines of the processed files in order. *)
Definition iter (lines : list string) : list (list string) :=
  map (fun line => tokenize (lower line)) lines.

(** The test of [preprocess_book] that decides whether a line ends a
    sentence: [line.strip()[-1] in SENTENCE_END_CHARS]. *)
Definition ends_sentence (line : string) : bool :=
  match last_char (strip line) with
  | Some c => in_sentence_end c
  | None => false
  end.

End Tokenizer.

End Corpus.

(** ** Numbers and dictionaries *)

(** The arithmetic of the probabilities: [0.0], [+], the true division
    [count / total] of two [int]s, and [>=]. *)
Class Number (num : Type) : Type := {
  num_zero : num;
  num_add : num -> num -> num;
  true_div : nat -> nat -> num;
  num_ge : num -> num -> bool
}.

(** Exact rational arithmetic. *)
#[export] Instance exact : Number Q := {|
  num_zero := 0%Q;
  num_add := Qplus;
  true_div := fun c total => (inject_Z (Z.of_nat c) / inject_Z (Z.of_nat total))%Q;
  num_ge := fun a b => Qle_bool b a
|}.

(** [float(k)] for a count [k] (exact below [2^53]). *)
Definition float_of_nat (k : nat) : float :=
  PrimFloat.of_uint63 (Uint63.of_Z (Z.of_nat k)).

(** IEEE 754 binary64, Python's [float]. *)
#[export] Instance binary64 : Number float := {|
  num_zero := 0%float;
  num_add := PrimFloat.add;
  true_div := fun c total => PrimFloat.div (float_of_nat c) (float_of_nat total);
  num_ge := fun a b => PrimFloat.leb b a
|}.

(** A draw of [random.random()], as an exact number: one in [0, 1). *)
Definition unit_draw (p : Q) : Prop := (0 <= p < 1)%Q.

(** The draws of [random.random()] in binary64: the numbers [k / 2^53] for
    an integer [0 <= k < 2^53], each of them a float in [0, 1). *)
Definition random_value (k : Z) : float :=
  FloatOps.Z.ldexp (PrimFloat.of_uint63 (Uint63.of_Z k)) (-53)%Z.

Definition random_draw (p : float) : Prop :=
  exists k : Z, (0 <= k < 2 ^ 53)%Z /\ p = random_value k.

(** An insertion-ordered dictionary with [str] keys. *)
Abbreviation odict V := (list (string * V)).

Definition keys {V} (d : odict V) : list string := map fst d.
Definition values {V} (d : odict V) : list V := map snd d.

(** [d[key]] for a key that may be missing. *)
Fixpoint odict_get {V} (d : odict V) (key : string) : option V :=
  match d with
  | [] => None
  | (k, v) :: d' => if String.eqb k key then Some v else odict_get d' key
  end.

(** [d[key] += 1] on a [defaultdict(int)]: a new key goes last, with 1. *)
Fixpoint odict_incr (d : odict nat) (key : string) : odict nat :=
  match d with
  | [] => [(key, 1)]
  | (k, v) :: d' =>
      if String.eqb k key then (k, S v) :: d' else (k, v) :: odict_incr d' key
  end.

(** ** The model: [NGramModel] *)

Module NGramModel.
Import Py.

(** Predicates on the table of counts. [all_dicts P counts]: every inner
    dictionary satisfies [P]. *)
Definition all_dicts (P : odict nat -> Prop)
    (counts : gmap (list string) (odict nat)) : Prop :=
  forall context d, counts !! context = Some d -> P d.

(** The shape of an inner dictionary of counts: it is not empty, its keys
    are distinct and its counts positive. *)
Definition well_counted (d : odict nat) : Prop :=
  d ≠ [] /\ NoDup (keys d) /\ Forall (fun kv => 0 < kv.2) d.

(** Every context of the table of counts has [k] tokens. *)
Definition context_lengths (k : nat)
    (counts : gmap (list string) (odict nat)) : Prop :=
  forall context d, counts !! context = Some d -> length context = k.

(** [counted counts context word]: the table of counts has [word] as a key
    under [context]. *)
Definition counted (counts : gmap (list string) (odict nat))
    (context : list string) (word : string) : Prop :=
  exists d, counts !! context = Some d /\ word ∈ keys d.

Section Model.

Context {num : Type} `{Number num}.
Variable SENTENCE_START_TOKEN : string.
Variable SENTENCE_END_TOKEN : string.

Record NGramModel : Type := {
  n : nat;
  ngram_dict : gmap (list string) (odict num)
}.

(** [ngram_dict[context][word] += 1], both levels defaulting. *)
Definition incr (ngram_dict : gmap (list string) (odict nat))
    (context : list string) (word : string) : gmap (list string) (odict nat) :=
  <[context := odict_incr (default [] (ngram_dict !! context)) word]> ngram_dict.

Section Training.

Variable self_n : nat.

(** The body of [for i in range(self.n-1, len(tokens))]; [i] is in range,
    so [tokens[i]] is defined. *)
Definition count_window (tokens : list string)
    (ngram_dict : gmap (list string) (odict nat)) (i : nat)
  : gmap (list string) (odict nat) :=
  let context_start_idx := i + 1 - self_n in
  let context := slice tokens context_start_idx i in
  match tokens !! i with
  | Some word => incr ngram_dict context word
  | None => ngram_dict
  end.

(** The body of [for tokens in corpus]. *)
Definition count_line (ngram_dict : gmap (list string) (odict nat))
    (tokens : list string) : gmap (list string) (odict nat) :=
  let tokens := replicate (self_n - 1) SENTENCE_START_TOKEN ++ tokens in
  fold_left (count_window tokens)
    (seq (self_n - 1) (length tokens - (self_n - 1))) ngram_dict.

(** The context at which the token at position [j] of a line is counted:
    the [self.n - 1] tokens before it in the padded line. *)
Definition window (tokens : list string) (j : nat) : list string :=
  take (self_n - 1)
    (drop j (replicate (self_n - 1) SENTENCE_START_TOKEN ++ tokens)).

(** The table of counts, before they are turned into probabilities. *)
Definition count_corpus (corpus : list (list string))
  : gmap (list string) (odict nat) :=
  fold_left count_line corpus ∅.

(** [total = sum(word_counts.values())], then [word_counts[word] /= total]
    for every word. *)
Definition normalize (word_counts : odict nat) : odict num :=
  let total := sum_list (values word_counts) in
  map (fun '(word, c) => (word, true_div c total)) word_counts.

Definition init_ngram_dict (corpus : list (list string))
  : gmap (list string) (odict num) :=
  normalize <$> count_corpus corpus.

End Training.

Definition __init__ (corpus : list (list string)) (n : nat) : NGramModel :=
  {| n := n; ngram_dict := init_ngram_dict n corpus |}.

(** [self.ngram_dict[context]] on the outer [defaultdict]: a missing context
    is inserted with an empty inner dictionary. *)
Definition getitem (ngram_dict : gmap (list string) (odict num))
    (context : list string) : gmap (list string) (odict num) * odict num :=
  match ngram_dict !! context with
  | Some word_probs => (ngram_dict, word_probs)
  | None => (<[context := []]> ngram_dict, [])
  end.

(** The [for next_word in ... .keys()] loop of [generate_token]. *)
Fixpoint walk (word_probs : odict num) (next_words : list string)
    (probability probability_sum : num) : option string :=
  match next_words with
  | [] => None
  | next_word :: next_words' =>
      let probability_sum :=
        num_add probability_sum (default num_zero (odict_get word_probs next_word)) in
      if num_ge probability_sum probability then Some next_word
      else walk word_probs next_words' probability probability_sum
  end.

(** The probability mass of a distribution, summed as the loop of
    [generate_token] sums it: from [0.0], entry by entry. *)
Definition total_mass (word_probs : odict num) : num :=
  fold_left num_add (values word_probs) num_zero.

(** [generate_token], with the value of [random.random()] as [probability]. *)
Definition generate_token (self : NGramModel) (context : list string)
    (probability : num) : NGramModel * outcome string :=
  let '(ngram_dict, word_probs) := getitem (ngram_dict self) context in
  let self := {| n := n self; ngram_dict := ngram_dict |} in
  match walk word_probs (keys word_probs) probability num_zero with
  | Some next_word => (self, Returned next_word)
  | None => (self, Raised (Exception "No token was generated"))
  end.

(** The three branches that extend [sentence] with a token. *)
Definition render (sentence token : string) : string :=
  if in_punctuation_set token then sentence +:+ token
  else if String.eqb sentence "" then title token
  else sentence +:+ " " +:+ token.

(** The [while True] loop of [__call__]: one draw per iteration. *)
Fixpoint loop (draws : list num) (self : NGramModel) (sentence : string)
    (context : list string) : NGramModel * option (outcome string) :=
  match draws with
  | [] => (self, None)
  | probability :: draws' =>
      match generate_token self context probability with
      | (self, Raised e) => (self, Some (Raised e))
      | (self, Returned token) =>
          let context := drop 1 (context ++ [token]) in
          if String.eqb token SENTENCE_END_TOKEN
          then (self, Some (Returned sentence))
          else loop draws' self (render sentence token) context
      end
  end.

Definition __call__ (self : NGramModel) (draws : list num)
  : NGramModel * option (outcome string) :=
  loop draws self "" (replicate (n self - 1) SENTENCE_START_TOKEN).

(** The tokens a run appends to its sentence, in order: those sampled before
    the end marker (or before the run fails or the draws run out). *)
Fixpoint sampled (draws : list num) (self : NGramModel) (context : list string)
  : list string :=
  match draws with
  | [] => []
  | probability :: draws' =>
      match generate_token self context probability with
      | (_, Raised _) => []
      | (self, Returned token) =>
          if String.eqb token SENTENCE_END_TOKEN then []
          else token :: sampled draws' self (drop 1 (context ++ [token]))
      end
  end.

(** What a run of the loop can do to the model: nothing, or insert the one
    absent context it failed on, with an empty distribution. *)
Definition frame (self self' : NGramModel) (result : option (outcome string))
  : Prop :=
  self' = self
  \/ exists context,
       ngram_dict self !! context = None
       /\ self' = {| n := n self;
                     ngram_dict := <[context := []]> (ngram_dict self) |}
       /\ result = Some (Raised DataSparsityError).

End Model.

End NGramModel.

(** ** More of Python's string builtins, and text files *)

Module PyText.
Import Py.

Definition isdigit (c : ascii) : bool := (48 <=? code c)%nat && (code c <=? 57)%nat.

(** [s.startswith(p)]. *)
Fixpoint startswith (s p : string) {struct p} : bool :=
  match p with
  | EmptyString => true
  | String a p' =>
      match s with
      | EmptyString => false
      | String b s' => Ascii.eqb b a && startswith s' p'
      end
  end.

(** [s[k:]]. *)
Fixpoint string_drop (k : nat) (s : string) : string :=
  match k, s with
  | S k', String _ s' => string_drop k' s'
  | _, _ => s
  end.

(** [s.replace(old, new)] for an [old] that is not empty: the occurrences of
    [old] are replaced from the left, without overlap.  [skip] counts the
    characters of a found occurrence that are still to be passed over. *)
Fixpoint replace_from (old new : string) (skip : nat) (s : string) : string :=
  match s with
  | EmptyString => EmptyString
  | String c s' =>
      match skip with
      | S skip' => replace_from old new skip' s'
      | 0 =>
          if startswith s old
          then new +:+ replace_from old new (String.length old - 1) s'
          else String c (replace_from old new 0 s')
      end
  end.

Definition replace (s old new : string) : string := replace_from old new 0 s.

(** The number of times [c] occurs in [s]: [s.count(c)]. *)
Fixpoint count_char (c : ascii) (s : string) : nat :=
  match s with
  | EmptyString => 0
  | String c' s' => (if Ascii.eqb c' c then 1 else 0) + count_char c s'
  end.

Definition newline : ascii := ascii_of_nat 10.

(** The lines of a text file as [for line in f] yields them: each ends with
    its newline, the last one possibly without.  The text holds no carriage
    return: it was written from lines read in text mode.  [line] is the
    line being read. *)
Fixpoint readlines_from (line : string) (text : string) : list string :=
  match text with
  | EmptyString => if String.eqb line "" then [] else [line]
  | String c text' =>
      if Ascii.eqb c newline
      then (line +:+ String c "") :: readlines_from "" text'
      else readlines_from (line +:+ String c "") text'
  end.

Definition readlines (text : string) : list string := readlines_from "" text.

(** The lines of [readlines_from] that a newline closes, and the rest of
    the text after the last of them. *)
Fixpoint closed_lines (line : string) (text : string) : list string :=
  match text with
  | EmptyString => []
  | String c text' =>
      if Ascii.eqb c newline
      then (line +:+ String c "") :: closed_lines "" text'
      else closed_lines (line +:+ String c "") text'
  end.

Fixpoint open_line (line : string) (text : string) : string :=
  match text with
  | EmptyString => line
  | String c text' =>
      if Ascii.eqb c newline
      then open_line "" text'
      else open_line (line +:+ String c "") text'
  end.

(** A line of a text file that ends with a newline: the newline is its last
    character and its only one. *)
Definition file_line (line : string) : Prop :=
  exists body, line = body +:+ String newline "" /\ contains newline body = false.

(** The text ends with a line that no newline closes. *)
Definition ends_open (text : string) : bool :=
  match last_char text with
  | Some c => negb (Ascii.eqb c newline)
  | None => false
  end.

(** The newline as a string. *)
Definition nl : string := String newline "".

(** [s.isascii()]. *)
Definition isascii (s : string) : bool :=
  forallb (fun c => (code c <? 128)%nat) (list_ascii_of_string s).

(** [sub in s], for two strings. *)
Fixpoint substring (sub s : string) : bool :=
  startswith s sub
  || match s with
     | EmptyString => false
     | String _ s' => substring sub s'
     end.

End PyText.

(** ** The preprocessing pass: [Corpus.preprocess_book] *)

Module Preprocess.
Import Py PyText Corpus.

Definition BOOK_START : string := "*** START OF THE PROJECT GUTENBERG EBOOK".
Definition BOOK_END : string := "*** END OF THE PROJECT GUTENBERG EBOOK".

(** The three typographic quotation marks of [preprocess_book], U+201C,
    U+201D and U+2019, as the bytes of their UTF-8 encoding. *)
Definition utf8 (a b c : nat) : string :=
  String (ascii_of_nat a) (String (ascii_of_nat b) (String (ascii_of_nat c) "")).
Definition LEFT_DOUBLE_QUOTE : string := utf8 226 128 156.
Definition RIGHT_DOUBLE_QUOTE : string := utf8 226 128 157.
Definition RIGHT_SINGLE_QUOTE : string := utf8 226 128 153.

(** What follows the word of a caption: [\s+\d+]. *)
Definition caption_number (rest : string) : bool :=
  match rest with
  | String c rest' =>
      isspace c
      && match lstrip rest' with
         | String d _ => isdigit d
         | EmptyString => false
         end
  | EmptyString => false
  end.

(** [re.match(r'^(chapter|letter)\s+\d+', s)]. *)
Definition is_caption (s : string) : bool :=
  (startswith s "chapter" && caption_number (string_drop 7 s))
  || (startswith s "letter" && caption_number (string_drop 6 s)).

(** The four [replace] calls before a line is written. *)
Definition clean (line : string) : string :=
  let line := replace line LEFT_DOUBLE_QUOTE "" in
  let line := replace line RIGHT_DOUBLE_QUOTE "" in
  let line := replace line "_" "" in
  replace line RIGHT_SINGLE_QUOTE "'".

(** A character of [SENTENCE_END_CHARS] that the [replace] calls leave alone:
    an ASCII character other than the underscore. *)
Definition plain (c : ascii) : Prop := code c < 128 /\ c <> "_"%char.

Section Lines.

Variable SENTENCE_END_CHARS : list ascii.

(** The block under [if reached_book_start and not reached_book_end]:
    [None] when the line is skipped by a [continue], else the text that is
    written and whether the line was counted as the end of a sentence. *)
Definition keep_line (line : string) : option (string * bool) :=
  let line_stripped := strip line in
  if String.eqb line_stripped "" then None
  else if startswith line_stripped "_" then None
  else if String.eqb line_stripped "CONTENTS" then None
  else if is_caption (lower line_stripped) then None
  else
    match last_char line_stripped with
    | Some c =>
        if in_sentence_end SENTENCE_END_CHARS c
        then Some (clean line, true)
        else Some (clean (line_stripped +:+ " "), false)
    | None => None
    end.

(** The state of [preprocess_book] between two lines: the two flags, the
    counter [self.number_of_lines_in_corpus] and the text written so far. *)
Record Book : Type := {
  reached_book_start : bool;
  reached_book_end : bool;
  number_of_lines_in_corpus : nat;
  file_out : string
}.

(** The body of [for line in file_in]. *)
Definition preprocess_line (book : Book) (line : string) : Book :=
  if negb (reached_book_start book) && startswith line BOOK_START
  then {| reached_book_start := true;
          reached_book_end := reached_book_end book;
          number_of_lines_in_corpus := number_of_lines_in_corpus book;
          file_out := file_out book |}
  else
    let reached_end :=
      if negb (reached_book_end book) && startswith line BOOK_END
      then true else reached_book_end book in
    let book := {| reached_book_start := reached_book_start book;
                   reached_book_end := reached_end;
                   number_of_lines_in_corpus := number_of_lines_in_corpus book;
                   file_out := file_out book |} in
    if reached_book_start book && negb (reached_book_end book)
    then
      match keep_line line with
      | Some (text, counted) =>
          {| reached_book_start := reached_book_start book;
             reached_book_end := reached_book_end book;
             number_of_lines_in_corpus :=
               number_of_lines_in_corpus book + (if counted then 1 else 0);
             file_out := file_out book +:+ text |}
      | None => book
      end
    else book.

(** [preprocess_book]: from the counter before the call and the lines of the
    input file, the counter after the call and the text of the output
    file. *)
Definition preprocess_book (lines_in_corpus : nat) (file_in : list string)
  : nat * string :=
  let book :=
    fold_left preprocess_line file_in
      {| reached_book_start := false; reached_book_end := false;
         number_of_lines_in_corpus := lines_in_corpus; file_out := "" |} in
  (number_of_lines_in_corpus book, file_out book).

(** The effect of the loop on lines that all stand between the two
    markers: what they add to the counter and to the text. *)
Definition write_body (body : list string) (start : nat * string)
  : nat * string :=
  fold_left
    (fun '(k, out) line =>
       match keep_line line with
       | Some (text, counted) => (k + (if counted then 1 else 0), out +:+ text)
       | None => (k, out)
       end)
    body start.

End Lines.
End Preprocess.

(** ** What a corpus holds

    The number of times a word follows a context in a corpus, against which
    the table built by [init_ngram_dict] is measured. *)

Module Occurrences.
Import Py NGramModel.
Section Counting.
Variable SENTENCE_START_TOKEN : string.
Variable self_n : nat.

(** [follows tokens context word j]: in the line [tokens], the token at
    position [j] is [word] and the [self.n - 1] tokens before it, start
    markers included, are [context]. *)
Definition follows (tokens context : list string) (word : string) (j : nat)
  : Prop :=
  window SENTENCE_START_TOKEN self_n tokens j = context /\ tokens !! j = Some word.

(** The number of times [word] follows [context] in a line, and in a
    corpus. *)
Definition line_occurrences (tokens context : list string) (word : string)
  : nat :=
  length (filter (follows tokens context word) (seq 0 (length tokens))).

Definition occurrences (corpus : list (list string)) (context : list string)
    (word : string) : nat :=
  sum_list (map (fun tokens => line_occurrences tokens context word) corpus).

(** The number of positions whose context is [context]. *)
Definition line_context_occurrences (tokens context : list string) : nat :=
  length (filter (fun j => window SENTENCE_START_TOKEN self_n tokens j = context)
            (seq 0 (length tokens))).

Definition context_occurrences (corpus : list (list string))
    (context : list string) : nat :=
  sum_list (map (fun tokens => line_context_occurrences tokens context) corpus).

End Counting.

(** [counts[context][word]] and [sum(counts[context].values())], read
    without inserting: 0 for what is missing. *)
Definition get_count (counts : gmap (list string) (odict nat))
    (context : list string) (word : string) : nat :=
  default 0 (odict_get (default [] (counts !! context)) word).

Definition get_total (counts : gmap (list string) (odict nat))
    (context : list string) : nat :=
  sum_list (values (default [] (counts !! context))).

End Occurrences.

(** ** The numbers that binary64 floats stand for

    A float is read through [Prim2SF] as a [spec_float]: a sign, a mantissa
    and an exponent.  The definitions below give it its rational value and
    name the steps of the rounding of [SpecFloat]. *)

Module Float.

(** [2^e], for any integer [e]. *)
Definition pow2 (e : Z) : Q := (2 ^ e)%Q.

(** The rational that a [spec_float] stands for; 0 for what is no number. *)
Definition SF2Q (x : spec_float) : Q :=
  match x with
  | S754_finite s m e =>
      ((if s then -1 else 1) * inject_Z (Zpos m) * pow2 e)%Q
  | _ => 0%Q
  end.

(** A zero or a positive finite number: no infinity, no NaN. *)
Definition nonneg_finite (x : spec_float) : bool :=
  match x with
  | S754_zero _ | S754_finite false _ _ => true
  | _ => false
  end.

Definition value (x : float) : Q := SF2Q (Prim2SF x).
Definition is_nonneg_finite (x : float) : bool := nonneg_finite (Prim2SF x).

(** [located t mrs]: the number [t] lies in the unit interval that starts
    at the mantissa of [mrs], at the place its round and sticky bits tell:
    on the mantissa, below the middle, on the middle or above it. *)
Definition located (t : Q) (mrs : shr_record) : Prop :=
  let m := inject_Z (shr_m mrs) in
  match shr_r mrs, shr_s mrs with
  | false, false => (t == m)%Q
  | false, true => (m < t /\ t < m + (1 # 2))%Q
  | true, false => (t == m + (1 # 2))%Q
  | true, true => (m + (1 # 2) < t /\ t < m + 1)%Q
  end.

(** The exponent of the last place of a binary64 number of magnitude
    [2^e]: [fexp] at precision 53 and least exponent -1074. *)
Definition fexp64 (e : Z) : Z := Z.max (e - 53) (-1074).

(** The last step of [binary_round_aux]: the rounded mantissa is shifted
    once more if rounding made it one digit too long, and packed. *)
Definition finish (m e : Z) : spec_float :=
  let '(mrs, e') := shr_fexp prec emax m e loc_Exact in
  match shr_m mrs with
  | Z0 => S754_zero false
  | Zpos m' =>
      if Z.leb e' (emax - prec) then S754_finite false m' e'
      else S754_infinity false
  | Zneg _ => S754_nan
  end.

(** Small integer constants as rationals, for [lra]. *)
Ltac small_constants :=
  change (inject_Z 0) with 0%Q in *;
  change (inject_Z 1) with 1%Q in *;
  change (inject_Z 2) with 2%Q in *.

End Float.

(** ** Sample settings

    [settings.py] is not part of the sources; closed examples use these
    values for its three constants. *)

Definition sample_end_chars : list ascii := ["."; "!"; "?"]%char.
Definition sample_start : string := "<s>".
Definition sample_end : string := "</s>".

(** The two-line corpus of the specification's example, with context size 1. *)
Definition cat_corpus : list (list string) :=
  Corpus.iter sample_end_chars sample_end ["the cat sat."; "the cat ran."].
Definition cat_model : NGramModel.NGramModel (num:=Q) :=
  NGramModel.__init__ sample_start cat_corpus 2.

(** A one-word line that ends no sentence. *)
Definition short_model : NGramModel.NGramModel (num:=Q) :=
  NGramModel.__init__ sample_start
    (Corpus.iter sample_end_chars sample_end ["a"]) 2.

(** A line that opens with a parenthesis. *)
Definition paren_model : NGramModel.NGramModel (num:=Q) :=
  NGramModel.__init__ sample_start
    (Corpus.iter sample_end_chars sample_end ["(hello."]) 2.

(** A line that is a full stop only, with the empty context; and a line that
    repeats a word. *)
Definition dot_model : NGramModel.NGramModel (num:=Q) :=
  NGramModel.__init__ sample_start
    (Corpus.iter sample_end_chars sample_end ["."]) 1.
Definition stutter_model : NGramModel.NGramModel (num:=Q) :=
  NGramModel.__init__ sample_start
    (Corpus.iter sample_end_chars sample_end ["a a."]) 2.

(** Counts 1, 4, 1, 1 under the empty context, in binary64, and the largest
    value [random.random()] returns, [1 - 2^-53]. *)
Definition rounding_model : NGramModel.NGramModel (num:=float) :=
  NGramModel.__init__ sample_start
    (Corpus.iter sample_end_chars sample_end ["a b b b b c d"]) 1.
Definition rounding_draw : float := 0x1.fffffffffffffp-1%float.

(** A line with a word that holds the characters of the start marker. *)
Definition marker_model : NGramModel.NGramModel (num:=Q) :=
  NGramModel.__init__ sample_start
    (Corpus.iter sample_end_chars sample_end ["a x<s>y."]) 2.

(** The rendering policy in the specification's words: punctuation is
    concatenated directly, the first word is capitalized (as the code
    capitalizes, with [str.title]), every later word follows one space.
    [seen_word] tells whether a word has been rendered. *)
Fixpoint spec_render (seen_word : bool) (sentence : string)
    (tokens : list string) : string :=
  match tokens with
  | [] => sentence
  | token :: tokens' =>
      if Py.in_punctuation_set token
      then spec_render seen_word (sentence +:+ token) tokens'
      else if seen_word
      then spec_render true (sentence +:+ " " +:+ token) tokens'
      else spec_render true (sentence +:+ Py.title token) tokens'
  end.

(** A small book in the layout of Project Gutenberg: a title line, the start
    marker, a blank line, the captions and the dedication that are dropped,
    a sentence over two lines, a sentence with typographic quotation marks,
    a line that ends no sentence, the end marker and a tail. *)
Definition sample_book : list string :=
  let nl := PyText.nl in
  ["Title" +:+ nl;
   Preprocess.BOOK_START +:+ " X ***" +:+ nl;
   nl;
   "CONTENTS" +:+ nl;
   "Chapter 1" +:+ nl;
   "Letter  12 to X" +:+ nl;
   "_To Mrs. S._" +:+ nl;
   "You will rejoice to hear" +:+ nl;
   "that no _disaster_ has come." +:+ nl;
   "  I am " +:+ Preprocess.LEFT_DOUBLE_QUOTE +:+ "here"
     +:+ Preprocess.RIGHT_DOUBLE_QUOTE +:+ ", it"
     +:+ Preprocess.RIGHT_SINGLE_QUOTE +:+ "s so!  " +:+ nl;
   "chapter one" +:+ nl;
   Preprocess.BOOK_END +:+ nl;
   "tail." +:+ nl].

(** * Properties of the tokenizer *)

Section TokenizerFacts.
Import Py Corpus.

Variable SENTENCE_END_CHARS : list ascii.
Variable SENTENCE_END_TOKEN : string.

Local Abbreviation in_sentence_end := (Corpus.in_sentence_end SENTENCE_END_CHARS).
Local Abbreviation strip_after :=
  (Corpus.strip_after SENTENCE_END_CHARS SENTENCE_END_TOKEN).
Local Abbreviation tokenize_word :=
  (Corpus.tokenize_word SENTENCE_END_CHARS SENTENCE_END_TOKEN).
Local Abbreviation tokenize := (Corpus.tokenize SENTENCE_END_CHARS SENTENCE_END_TOKEN).
Local Abbreviation emit := (Corpus.emit SENTENCE_END_CHARS SENTENCE_END_TOKEN).

Lemma in_sentence_end_spec (c : ascii) :
  in_sentence_end c = true <-> c ∈ SENTENCE_END_CHARS.
Proof.
  unfold Corpus.in_sentence_end. rewrite existsb_exists. split.
  - intros (x & Hx & Heq). apply Ascii.eqb_eq in Heq. subst x.
    by apply list_elem_of_In.
  - intros Hc. exists c. split; [by apply list_elem_of_In | apply Ascii.eqb_refl].
Qed.

Lemma in_sentence_end_false (c : ascii) :
  c ∉ SENTENCE_END_CHARS -> in_sentence_end c = false.
Proof.
  intros Hc. destruct (in_sentence_end c) eqn:E; [|done].
  by apply in_sentence_end_spec in E.
Qed.

Lemma append_cons (c : ascii) (s t : string) :
  String c s +:+ t = String c (s +:+ t).
Proof. reflexivity. Qed.

Lemma append_empty_r (s : string) : s +:+ "" = s.
Proof. induction s as [|c s IH]; [done | by rewrite append_cons, IH]. Qed.

Lemma length_append (s t : string) :
  String.length (s +:+ t) = String.length s + String.length t.
Proof.
  induction s as [|c s IH]; [done|]. rewrite append_cons. simpl. by rewrite IH.
Qed.

Lemma last_char_snoc (s : string) (c : ascii) :
  last_char (s +:+ String c "") = Some c.
Proof.
  induction s as [|c' s IH]; [done|].
  rewrite append_cons. simpl. rewrite IH. by destruct s.
Qed.

Lemma drop_last_snoc (s : string) (c : ascii) :
  drop_last (s +:+ String c "") = s.
Proof.
  induction s as [|c' s IH]; [done|].
  rewrite append_cons. simpl. rewrite IH. by destruct s.
Qed.

Lemma append_assoc (s t u : string) : (s +:+ t) +:+ u = s +:+ (t +:+ u).
Proof.
  induction s as [|c s IH]; [done|]. by rewrite !append_cons, IH.
Qed.

Lemma length_drop_last (s : string) :
  String.length (drop_last s) = String.length s - 1.
Proof.
  induction s as [|c s IH]; [done|].
  destruct s as [|c' s]; [done|].
  simpl in *. lia.
Qed.

Lemma strip_after_S (fuel : nat) (token : string) (acc : list string) :
  strip_after (S fuel) token acc
  = match last_char token with
    | Some c =>
        if in_punctuation c
        then strip_after fuel (drop_last token)
               (acc ++ [String c ""]
                  ++ (if in_sentence_end c then [SENTENCE_END_TOKEN] else []))
        else (acc, token)
    | None => (acc, token)
    end.
Proof. reflexivity. Qed.

(** The second loop has run to its end once [fuel] is the length of the
    word: more fuel does not change its result. *)
Lemma strip_after_fuel (fuel : nat) (token : string) (acc : list string) :
  String.length token <= fuel ->
  strip_after fuel token acc = strip_after (String.length token) token acc.
Proof.
  revert token acc. induction fuel as [|fuel IH]; intros token acc Hlen.
  - by replace (String.length token) with 0 by lia.
  - destruct token as [|c token]; [reflexivity|].
    change (String.length (String c token)) with (S (String.length token)) in *.
    rewrite !strip_after_S.
    destruct (last_char (String c token)) as [c'|]; [|done].
    destruct (in_punctuation c'); [|done].
    pose proof (length_drop_last (String c token)) as Hd.
    change (String.length (String c token)) with (S (String.length token)) in Hd.
    rewrite IH by lia. rewrite Hd. by replace (S (String.length token) - 1)
      with (String.length token) by lia.
Qed.

Lemma strip_after_run (run : list ascii) :
  forall (core : string) (acc : list string) (fuel : nat),
    Forall (fun c => in_punctuation c = true) run ->
    ends_in_word_char core ->
    String.length core + length run <= fuel ->
    strip_after fuel (core +:+ string_of_list_ascii run) acc
    = (acc ++ flat_map emit (rev run), core).
Proof.
  induction run as [|c run IH] using rev_ind; intros core acc fuel Hp Hcore Hfuel.
  - simpl. rewrite append_empty_r, app_nil_r. destruct Hcore as (c & Hlast & Hc).
    destruct fuel; [done|]. by rewrite strip_after_S, Hlast, Hc.
  - apply Forall_app in Hp as [Hrun Hc]. rewrite Forall_singleton in Hc.
    rewrite length_app in Hfuel. simpl in Hfuel.
    destruct fuel as [|fuel]; [lia|].
    assert (string_of_list_ascii (run ++ [c])
            = string_of_list_ascii run +:+ String c "") as ->.
    { clear. induction run as [|a run IH]; [done|].
      simpl. by rewrite IH, append_cons. }
    rewrite <- append_assoc, strip_after_S.
    rewrite last_char_snoc, Hc, drop_last_snoc.
    rewrite IH by (done || lia).
    rewrite rev_app_distr. simpl rev. simpl flat_map.
    unfold Corpus.emit at 2. by rewrite <- !app_assoc.
Qed.

(** What the tokenizer does with the punctuation at the end of a word: the
    characters of the run come out last to first, each followed by the end
    marker when it ends a sentence. *)
Theorem tokenize_word_trailing (c0 : ascii) (rest : string) (run : list ascii)
    (acc : list string) :
  in_punctuation c0 = false ->
  ends_in_word_char (String c0 rest) ->
  Forall (fun c => in_punctuation c = true) run ->
  tokenize_word acc (String c0 rest +:+ string_of_list_ascii run)
  = acc ++ [String c0 rest] ++ flat_map emit (rev run).
Proof.
  intros Hc0 Hcore Hrun. unfold Corpus.tokenize_word.
  rewrite append_cons. simpl strip_before. rewrite Hc0, <- append_cons.
  rewrite strip_after_run; [done | done | done |].
  rewrite length_append. apply Nat.add_le_mono_l.
  clear. induction run; simpl; lia.
Qed.

(** C6: the line [hello, world!] is tokenized to hello, the comma, world, the
    exclamation mark and the end marker, when the comma is no sentence-end
    character and the exclamation mark is one. *)
Theorem tokenize_hello_world :
  ","%char ∉ SENTENCE_END_CHARS ->
  "!"%char ∈ SENTENCE_END_CHARS ->
  tokenize "hello, world!" = ["hello"; ","; "world"; "!"; SENTENCE_END_TOKEN].
Proof.
  intros Hcomma Hbang.
  apply in_sentence_end_false in Hcomma. apply in_sentence_end_spec in Hbang.
  cbv -[Corpus.in_sentence_end].
  by rewrite Hcomma, Hbang.
Qed.

End TokenizerFacts.

Lemma tokenize_hello_world_witness :
  Corpus.tokenize sample_end_chars sample_end "hello, world!"
  = ["hello"; ","; "world"; "!"; sample_end].
Proof.
  apply (tokenize_hello_world sample_end_chars sample_end).
  - unfold sample_end_chars. rewrite !elem_of_cons, elem_of_nil.
    intros [?|[?|[?|[]]]]; discriminate.
  - unfold sample_end_chars. rewrite !elem_of_cons. right. by left.
Defined.

(** C5: on the word [wait?!] the tokenizer emits the exclamation mark before
    the question mark, the reverse of their order in the word, and not the
    left-to-right order of the claim. *)
Theorem tokenize_trailing_reversed :
  Corpus.tokenize sample_end_chars sample_end "wait?!"
  = ["wait"; "!"; sample_end; "?"; sample_end]
  /\ Corpus.tokenize sample_end_chars sample_end "wait?!"
     <> ["wait"; "?"; sample_end; "!"; sample_end].
Proof. split; [reflexivity|]. vm_compute. discriminate. Qed.

(** * Properties of generation, for any arithmetic *)

Section GenerationFacts.
Import Py NGramModel.

Context {num : Type} `{Number num}.
Variable SENTENCE_START_TOKEN : string.
Variable SENTENCE_END_TOKEN : string.

Local Abbreviation loop := (NGramModel.loop SENTENCE_END_TOKEN).
Local Abbreviation __call__ :=
  (NGramModel.__call__ SENTENCE_START_TOKEN SENTENCE_END_TOKEN).
Local Abbreviation sampled := (NGramModel.sampled SENTENCE_END_TOKEN).

Implicit Types (self : NGramModel (num:=num)) (context : list string).
Implicit Types (probability : num) (draws : list num).

Lemma generate_token_present self context probability word_probs :
  ngram_dict self !! context = Some word_probs ->
  generate_token self context probability
  = (self, match walk word_probs (keys word_probs) probability num_zero with
           | Some next_word => Returned next_word
           | None => Raised DataSparsityError
           end).
Proof.
  intros Hc. unfold generate_token, getitem. rewrite Hc.
  destruct self as [k d]; simpl. by destruct (walk _ _ _ _).
Qed.

Lemma generate_token_absent self context probability :
  ngram_dict self !! context = None ->
  generate_token self context probability
  = ({| n := n self; ngram_dict := <[context := []]> (ngram_dict self) |},
     Raised DataSparsityError).
Proof. intros Hc. unfold generate_token, getitem. by rewrite Hc. Qed.

Lemma walk_in_keys (word_probs : odict num) (next_words : list string)
    probability (probability_sum : num) (next_word : string) :
  walk word_probs next_words probability probability_sum = Some next_word ->
  next_word ∈ next_words.
Proof.
  revert probability_sum.
  induction next_words as [|k ks IH]; intros acc Hw; [done|].
  simpl in Hw. destruct (num_ge _ _).
  - injection Hw as ->. apply list_elem_of_here.
  - apply list_elem_of_further. by eapply IH.
Qed.

(** A token that [generate_token] returns is a key of the distribution the
    table holds for the context, and the table is left as it was. *)
Lemma generate_token_returned self context probability self' token :
  generate_token self context probability = (self', Returned token) ->
  self' = self
  /\ exists word_probs,
       ngram_dict self !! context = Some word_probs /\ token ∈ keys word_probs.
Proof.
  intros Hg. destruct (ngram_dict self !! context) as [d|] eqn:Hc.
  - rewrite (generate_token_present _ _ _ d Hc) in Hg.
    destruct (walk d (keys d) probability num_zero) as [w|] eqn:Hw; [|done].
    injection Hg as <- <-. split; [done|].
    exists d. split; [done|]. by eapply walk_in_keys.
  - by rewrite generate_token_absent in Hg.
Qed.

(** C2: a generation step at a context that the table does not hold raises
    the error of [generate_token] and returns no token, and the generation
    loop that reaches such a context ends with that error, for every draw. *)
Theorem absent_context_raises self context probability :
  ngram_dict self !! context = None ->
  (generate_token self context probability).2 = Raised DataSparsityError
  /\ forall draws sentence,
       (loop (probability :: draws) self sentence context).2
       = Some (Raised DataSparsityError).
Proof.
  intros Hc. split.
  - by rewrite generate_token_absent.
  - intros draws sentence. simpl. by rewrite generate_token_absent.
Qed.

Lemma loop_frame draws :
  forall self sentence context,
    frame self (loop draws self sentence context).1
      (loop draws self sentence context).2.
Proof.
  induction draws as [|p draws IH]; intros self sentence context.
  - by left.
  - simpl. destruct (ngram_dict self !! context) as [d|] eqn:Hc.
    + rewrite (generate_token_present _ _ _ d Hc).
      destruct (walk d (keys d) p num_zero) as [w|]; [|by left].
      destruct (String.eqb w SENTENCE_END_TOKEN); [by left | apply IH].
    + rewrite generate_token_absent by done. right. by exists context.
Qed.

(** C3, amended: a generation call never changes or removes an entry of the
    table, and a call that does not fail leaves the table identical; the one
    change a call can make is to insert the absent context it fails on, with
    an empty distribution. *)
Theorem generation_keeps_entries self draws :
  let self' := (__call__ self draws).1 in
  let result := (__call__ self draws).2 in
  frame self self' result
  /\ n self' = n self
  /\ (forall context word_probs,
        ngram_dict self !! context = Some word_probs ->
        ngram_dict self' !! context = Some word_probs)
  /\ (result <> Some (Raised DataSparsityError) -> self' = self).
Proof.
  intros self' result. subst self' result. unfold NGramModel.__call__.
  pose proof (loop_frame draws self ""
                (replicate (n self - 1) SENTENCE_START_TOKEN)) as Hf.
  destruct (loop draws self "" _) as [self' result]. simpl in *.
  split; [done|].
  destruct Hf as [->|(c & Hc & -> & Hr)].
  - done.
  - split; [done|]. split; [|done].
    intros c' d' Hd. simpl.
    rewrite lookup_insert_ne; [done|]. intros <-. congruence.
Qed.

Lemma loop_returned probability draws self sentence context self' token :
  generate_token self context probability = (self', Returned token) ->
  loop (probability :: draws) self sentence context
  = if String.eqb token SENTENCE_END_TOKEN
    then (self', Some (Returned sentence))
    else loop draws self' (render sentence token) (drop 1 (context ++ [token])).
Proof. intros Hg. simpl. by rewrite Hg. Qed.

Lemma loop_sampled draws :
  forall self sentence context self' sentence',
    loop draws self sentence context = (self', Some (Returned sentence')) ->
    sentence' = fold_left render (sampled draws self context) sentence.
Proof.
  induction draws as [|p draws IH]; intros self sentence context self' s' Hl.
  - done.
  - simpl in *.
    destruct (generate_token self context p) as [self1 [token|e]]; [|done].
    destruct (String.eqb token SENTENCE_END_TOKEN).
    + by injection Hl as _ ->.
    + simpl. by eapply IH.
Qed.

Lemma sampled_not_end draws :
  forall self context, SENTENCE_END_TOKEN ∉ sampled draws self context.
Proof.
  induction draws as [|p draws IH]; intros self context; simpl.
  - apply not_elem_of_nil.
  - destruct (generate_token self context p) as [self1 [token|e]];
      [|apply not_elem_of_nil].
    destruct (String.eqb token SENTENCE_END_TOKEN) eqn:E; [apply not_elem_of_nil|].
    apply not_elem_of_cons. split; [|apply IH].
    intros <-. by rewrite String.eqb_refl in E.
Qed.

End GenerationFacts.

(** * The rendering policy *)

Section RenderFacts.
Import Py NGramModel.

Context {num : Type} `{Number num}.
Variable SENTENCE_START_TOKEN : string.
Variable SENTENCE_END_TOKEN : string.

Lemma append_not_empty (s t : string) : s <> "" -> s +:+ t <> "".
Proof. destruct s; [done|]. intros _. discriminate. Qed.

Lemma title_not_empty (s : string) : s <> "" -> title s <> "".
Proof.
  destruct s as [|c s]; [done|]. intros _. unfold title. simpl.
  repeat case_match; discriminate.
Qed.

(** Once the text is not empty the three branches of the loop are those of
    the policy after a first word. *)
Lemma render_after_word (tokens : list string) :
  forall sentence,
    sentence <> "" ->
    fold_left render tokens sentence = spec_render true sentence tokens.
Proof.
  induction tokens as [|token tokens IH]; intros sentence Hne; [done|].
  simpl. unfold render at 2.
  destruct (in_punctuation_set token).
  - apply IH. by apply append_not_empty.
  - assert (String.eqb sentence "" = false) as -> by (by apply String.eqb_neq).
    apply IH. by apply append_not_empty.
Qed.

(** The sentence a run returns is its sampled tokens rendered in order,
    none of them the end marker; when the first of them is a word, the
    rendering is the policy of the specification: the first word
    capitalized, punctuation appended directly, every later word after one
    space. *)
Theorem call_renders_policy self draws self' sentence :
  let tokens :=
    sampled SENTENCE_END_TOKEN draws self
      (replicate (n self - 1) SENTENCE_START_TOKEN) in
  __call__ SENTENCE_START_TOKEN SENTENCE_END_TOKEN self draws
  = (self', Some (Returned sentence)) ->
  Forall (fun token => PyText.isascii token = true) tokens ->
  (SENTENCE_END_TOKEN ∉ tokens)
  /\ sentence = fold_left render tokens ""
  /\ forall word rest,
       tokens = word :: rest ->
       in_punctuation_set word = false ->
       word <> "" ->
       sentence = spec_render false "" tokens.
Proof.
  intros tokens Hcall _. split; [apply sampled_not_end|].
  assert (sentence = fold_left render tokens "") as Hs
    by (by eapply loop_sampled).
  split; [exact Hs|].
  intros word rest Htokens Hword Hne. rewrite Hs, Htokens. simpl.
  unfold render at 2. rewrite Hword. simpl.
  apply render_after_word. by apply title_not_empty.
Qed.

End RenderFacts.

Lemma call_renders_policy_witness :
  let tokens :=
    NGramModel.sampled sample_end [0; 0; 1; 0; 0]%Q cat_model [sample_start] in
  (sample_end ∉ tokens)
  /\ "The cat ran." = fold_left NGramModel.render tokens ""
  /\ forall word rest,
       tokens = word :: rest ->
       Py.in_punctuation_set word = false ->
       word <> "" ->
       "The cat ran." = spec_render false "" tokens.
Proof.
  apply (call_renders_policy sample_start sample_end cat_model
           [0; 0; 1; 0; 0]%Q cat_model "The cat ran.").
  - vm_compute. reflexivity.
  - vm_compute. repeat constructor.
Defined.

(** * Properties of training, for any arithmetic *)

Section TrainingFacts.
Import Py NGramModel.

Context {num : Type} `{Number num}.
Variable SENTENCE_START_TOKEN : string.
Variable self_n : nat.

Local Abbreviation count_window := (NGramModel.count_window self_n).
Local Abbreviation count_line :=
  (NGramModel.count_line SENTENCE_START_TOKEN self_n).
Local Abbreviation count_corpus :=
  (NGramModel.count_corpus SENTENCE_START_TOKEN self_n).
Local Abbreviation init_ngram_dict :=
  (NGramModel.init_ngram_dict (num:=num) SENTENCE_START_TOKEN self_n).
Local Abbreviation padded tokens :=
  (replicate (self_n - 1) SENTENCE_START_TOKEN ++ tokens).

Implicit Types (counts : gmap (list string) (odict nat)).
Implicit Types (tokens context : list string) (corpus : list (list string)).

Lemma keys_odict_incr (d : odict nat) (word key : string) :
  key ∈ keys (odict_incr d word) <-> key ∈ keys d \/ key = word.
Proof.
  induction d as [|[k v] d IH]; simpl.
  - rewrite list_elem_of_singleton, elem_of_nil. tauto.
  - destruct (String.eqb_spec k word) as [->|Hne]; simpl.
    + rewrite !elem_of_cons. tauto.
    + rewrite !elem_of_cons, IH. tauto.
Qed.

Lemma NoDup_odict_incr (d : odict nat) (word : string) :
  NoDup (keys d) -> NoDup (keys (odict_incr d word)).
Proof.
  induction d as [|[k v] d IH]; simpl; intros Hnd.
  - apply NoDup_singleton.
  - apply NoDup_cons in Hnd as [Hk Hnd].
    destruct (String.eqb_spec k word) as [->|Hne]; simpl.
    + by apply NoDup_cons.
    + apply NoDup_cons. split; [|by apply IH].
      rewrite keys_odict_incr. intros [?|?]; congruence.
Qed.

Lemma positive_odict_incr (d : odict nat) (word : string) :
  Forall (fun kv => 0 < kv.2) d -> Forall (fun kv => 0 < kv.2) (odict_incr d word).
Proof.
  induction d as [|[k v] d IH]; simpl; intros Hp.
  - apply Forall_singleton. simpl. lia.
  - apply Forall_cons in Hp as [Hv Hp].
    destruct (String.eqb k word); apply Forall_cons; simpl in *;
      (split; [lia | auto]).
Qed.

Lemma odict_incr_not_nil (d : odict nat) (word : string) : odict_incr d word ≠ [].
Proof. destruct d as [|[k v] d]; simpl; [done|]. by destruct (String.eqb k word). Qed.

(** Every inner dictionary of the table of counts satisfies [P] when [P]
    survives an increment for each counted word, from the empty
    dictionary on.  [W] is what is known of the counted words. *)
Section Invariant.

Variable P : odict nat -> Prop.
Variable W : string -> Prop.
Hypothesis P_incr :
  forall d word, d = [] \/ P d -> W word -> P (odict_incr d word).

Local Abbreviation all_dicts := (NGramModel.all_dicts P).

Lemma all_dicts_incr counts context word :
  all_dicts counts -> W word -> all_dicts (incr counts context word).
Proof.
  intros Hall Hw c d. unfold incr.
  destruct (decide (context = c)) as [->|Hne].
  - rewrite lookup_insert_eq. intros [= <-]. apply P_incr; [|done].
    destruct (counts !! c) as [d0|] eqn:Hc; simpl; [right; by eapply Hall | by left].
  - rewrite lookup_insert_ne by done. apply Hall.
Qed.

Lemma all_dicts_windows tokens (indices : list nat) :
  forall counts,
    (forall i word, i ∈ indices -> tokens !! i = Some word -> W word) ->
    all_dicts counts ->
    all_dicts (fold_left (count_window tokens) indices counts).
Proof.
  induction indices as [|i indices IH]; intros counts Hq Hall; [done|].
  simpl. apply IH.
  - intros j w Hj. apply Hq. by apply list_elem_of_further.
  - unfold NGramModel.count_window.
    destruct (tokens !! i) as [word|] eqn:Hi; [|done].
    apply all_dicts_incr; [done|]. eapply Hq; [apply list_elem_of_here | done].
Qed.

Lemma all_dicts_line counts tokens :
  (forall word, word ∈ tokens -> W word) ->
  all_dicts counts -> all_dicts (count_line counts tokens).
Proof.
  intros Hq Hall. unfold NGramModel.count_line.
  apply all_dicts_windows; [|done].
  intros i word Hi Hw. apply Hq.
  apply elem_of_seq in Hi as [Hlo _].
  rewrite lookup_app_r in Hw by (rewrite length_replicate; lia).
  by eapply list_elem_of_lookup_2.
Qed.

Lemma all_dicts_corpus corpus :
  (forall tokens word, tokens ∈ corpus -> word ∈ tokens -> W word) ->
  all_dicts (count_corpus corpus).
Proof.
  unfold NGramModel.count_corpus.
  assert (all_dicts ∅) as Hempty by (intros c d; by rewrite lookup_empty).
  revert Hempty. generalize (∅ : gmap (list string) (odict nat)).
  induction corpus as [|tokens corpus IH]; intros counts Hall Hq; [done|].
  simpl. apply IH.
  - apply all_dicts_line; [|done]. intros w. apply Hq, list_elem_of_here.
  - intros t w Ht. apply Hq. by apply list_elem_of_further.
Qed.

End Invariant.

Lemma count_corpus_well_counted corpus context d :
  count_corpus corpus !! context = Some d -> well_counted d.
Proof.
  revert context d.
  apply (all_dicts_corpus well_counted (fun _ => True)); [|done].
  intros d word Hd _. split; [apply odict_incr_not_nil|].
  destruct Hd as [->|(_ & Hnd & Hpos)].
  - split; [apply NoDup_singleton|]. apply Forall_singleton. simpl. lia.
  - split; [by apply NoDup_odict_incr | by apply positive_odict_incr].
Qed.

Lemma keys_normalize (d : odict nat) : keys (normalize (num:=num) d) = keys d.
Proof.
  unfold normalize, keys. generalize (sum_list (values d)). intros total.
  induction d as [|[k v] d IH]; simpl; [done | by rewrite IH].
Qed.

Lemma lookup_init_ngram_dict corpus context (word_probs : odict num) :
  init_ngram_dict corpus !! context = Some word_probs <->
  exists d, count_corpus corpus !! context = Some d /\ word_probs = normalize d.
Proof.
  unfold NGramModel.init_ngram_dict. rewrite lookup_fmap.
  destruct (count_corpus corpus !! context) as [d|]; simpl.
  - split; [intros [= <-]; by exists d | intros (d' & [= <-] & ->); done].
  - split; [done | intros (d' & ? & _); done].
Qed.

Lemma counted_incr_here counts context word :
  counted (incr counts context word) context word.
Proof.
  unfold counted, incr. rewrite lookup_insert_eq. eexists. split; [done|].
  apply keys_odict_incr. by right.
Qed.

Lemma counted_incr_mono counts context word context' word' :
  counted counts context word ->
  counted (incr counts context' word') context word.
Proof.
  intros (d & Hd & Hw). unfold counted, incr.
  destruct (decide (context' = context)) as [->|Hne].
  - rewrite lookup_insert_eq, Hd. eexists. split; [done|].
    apply keys_odict_incr. by left.
  - rewrite lookup_insert_ne by done. by exists d.
Qed.

Lemma counted_windows_mono tokens (indices : list nat) :
  forall counts context word,
    counted counts context word ->
    counted (fold_left (count_window tokens) indices counts) context word.
Proof.
  induction indices as [|i indices IH]; intros counts c w Hc; [done|].
  simpl. apply IH. unfold NGramModel.count_window.
  destruct (tokens !! i); [by apply counted_incr_mono | done].
Qed.

Lemma counted_windows tokens (indices : list nat) :
  forall counts i word,
    i ∈ indices ->
    tokens !! i = Some word ->
    counted (fold_left (count_window tokens) indices counts)
      (slice tokens (i + 1 - self_n) i) word.
Proof.
  induction indices as [|i0 indices IH]; intros counts i w Hi Hw.
  - by apply elem_of_nil in Hi.
  - simpl. apply elem_of_cons in Hi as [->|Hi]; [|by apply IH].
    apply counted_windows_mono. unfold NGramModel.count_window at 1.
    rewrite Hw. apply counted_incr_here.
Qed.

Lemma counted_line counts tokens (j : nat) (word : string) :
  1 <= self_n ->
  tokens !! j = Some word ->
  counted (count_line counts tokens)
    (window SENTENCE_START_TOKEN self_n tokens j) word.
Proof.
  intros Hn Hj. unfold NGramModel.count_line, window.
  pose proof (lookup_lt_Some _ _ _ Hj) as Hlt.
  pose proof (counted_windows (padded tokens)
                (seq (self_n - 1) (length (padded tokens) - (self_n - 1)))
                counts (j + (self_n - 1)) word) as Hc.
  replace (j + (self_n - 1) + 1 - self_n) with j in Hc by lia.
  unfold slice in Hc.
  replace (j + (self_n - 1) - j) with (self_n - 1) in Hc by lia.
  apply Hc.
  - apply elem_of_seq. rewrite length_app, length_replicate. lia.
  - rewrite lookup_app_r by (rewrite length_replicate; lia).
    rewrite length_replicate. by replace (j + (self_n - 1) - (self_n - 1)) with j by lia.
Qed.

Lemma counted_line_mono counts tokens context word :
  counted counts context word ->
  counted (count_line counts tokens) context word.
Proof. apply counted_windows_mono. Qed.

Lemma counted_corpus corpus tokens (j : nat) (word : string) :
  1 <= self_n ->
  tokens ∈ corpus ->
  tokens !! j = Some word ->
  counted (count_corpus corpus)
    (window SENTENCE_START_TOKEN self_n tokens j) word.
Proof.
  intros Hn Hin Hj. unfold NGramModel.count_corpus.
  generalize (∅ : gmap (list string) (odict nat)).
  induction corpus as [|line corpus IH]; intros counts.
  - by apply elem_of_nil in Hin.
  - simpl. apply elem_of_cons in Hin as [<-|Hin]; [|by apply IH].
    assert (forall counts',
              counted counts' (window SENTENCE_START_TOKEN self_n tokens j) word ->
              counted (fold_left count_line corpus counts')
                (window SENTENCE_START_TOKEN self_n tokens j) word) as Hmono.
    { clear. induction corpus as [|l corpus IHc]; intros counts' Hc; [done|].
      simpl. by apply IHc, counted_line_mono. }
    by apply Hmono, counted_line.
Qed.

(** The window slides with the line: dropping the oldest token of a window
    and appending the token counted there gives the next window. *)
Lemma window_next tokens (j : nat) (word : string) :
  1 <= self_n ->
  tokens !! j = Some word ->
  drop 1 (window SENTENCE_START_TOKEN self_n tokens j ++ [word])
  = window SENTENCE_START_TOKEN self_n tokens (S j).
Proof.
  intros Hn Hj. unfold window.
  assert (drop j (padded tokens) !! (self_n - 1) = Some word) as Hw.
  { rewrite lookup_drop, lookup_app_r by (rewrite length_replicate; lia).
    rewrite length_replicate.
    by replace (j + (self_n - 1) - (self_n - 1)) with j by lia. }
  rewrite <- (take_S_r _ _ _ Hw).
  rewrite skipn_firstn_comm, drop_drop.
  replace (S (self_n - 1) - 1) with (self_n - 1) by lia.
  by replace (j + 1) with (S j) by lia.
Qed.

Lemma window_0 tokens :
  window SENTENCE_START_TOKEN self_n tokens 0
  = replicate (self_n - 1) SENTENCE_START_TOKEN.
Proof. unfold window. simpl. apply take_app_length'. by rewrite length_replicate. Qed.

Lemma context_lengths_windows tokens (indices : list nat) :
  forall counts,
    1 <= self_n ->
    (forall i, i ∈ indices -> self_n - 1 <= i < length tokens) ->
    context_lengths (self_n - 1) counts ->
    context_lengths (self_n - 1)
      (fold_left (count_window tokens) indices counts).
Proof.
  induction indices as [|i indices IH]; intros counts Hn Hrange Hall; [done|].
  simpl. apply IH; [done | |].
  - intros j Hj. apply Hrange. by apply list_elem_of_further.
  - unfold NGramModel.count_window.
    destruct (tokens !! i) as [word|]; [|done].
    intros c d. unfold incr.
    destruct (decide (slice tokens (i + 1 - self_n) i = c)) as [<-|Hne].
    + intros _. unfold slice. rewrite length_take, length_drop.
      pose proof (Hrange i (list_elem_of_here _ _)). lia.
    + rewrite lookup_insert_ne by done. apply Hall.
Qed.

(** Every context of a built table has [self.n - 1] tokens; with [n = 1]
    the only context is the empty tuple. *)
Theorem contexts_have_length corpus context (word_probs : odict num) :
  1 <= self_n ->
  init_ngram_dict corpus !! context = Some word_probs ->
  length context = self_n - 1 /\ (self_n = 1 -> context = []).
Proof.
  intros Hn Hc. apply lookup_init_ngram_dict in Hc as (d & Hd & _).
  assert (length context = self_n - 1) as Hlen.
  { revert context d Hd. unfold NGramModel.count_corpus.
    assert (context_lengths (self_n - 1) ∅) as Hempty
      by (intros c d; by rewrite lookup_empty).
    revert Hempty. generalize (∅ : gmap (list string) (odict nat)).
    induction corpus as [|tokens corpus' IH]; intros counts Hall; [done|].
    simpl. apply IH. unfold NGramModel.count_line.
    apply context_lengths_windows; [done | | done].
    intros i Hi. apply elem_of_seq in Hi. lia. }
  split; [done|]. intros ->. by destruct context.
Qed.

(** C10, amended: when the start marker is no token of any line, no
    distribution of the built table has it as a key, and so no token that a
    generation run samples, and renders into its sentence, is the start
    marker. *)
Theorem start_marker_never_sampled corpus (SENTENCE_END_TOKEN : string) :
  1 <= self_n ->
  (forall tokens, tokens ∈ corpus -> SENTENCE_START_TOKEN ∉ tokens) ->
  let self := __init__ (num:=num) SENTENCE_START_TOKEN corpus self_n in
  (forall context word_probs,
     ngram_dict self !! context = Some word_probs ->
     SENTENCE_START_TOKEN ∉ keys word_probs)
  /\ forall draws,
       SENTENCE_START_TOKEN
       ∉ sampled SENTENCE_END_TOKEN draws self
           (replicate (n self - 1) SENTENCE_START_TOKEN).
Proof.
  intros _ Hcorpus self.
  assert (forall context word_probs,
            ngram_dict self !! context = Some word_probs ->
            SENTENCE_START_TOKEN ∉ keys word_probs) as Htable.
  { intros c wp Hc. simpl in Hc.
    apply lookup_init_ngram_dict in Hc as (d & Hd & ->).
    rewrite keys_normalize. revert c d Hd.
    apply (all_dicts_corpus (fun d => SENTENCE_START_TOKEN ∉ keys d)
             (fun w => w ≠ SENTENCE_START_TOKEN)).
    - intros d word Hd Hw. rewrite keys_odict_incr.
      intros [Hin|Heq]; [|done].
      destruct Hd as [->|Hd]; [by apply elem_of_nil in Hin | done].
    - intros tokens w Ht Hw ->. by eapply Hcorpus. }
  split; [done|].
  intros draws. generalize (replicate (n self - 1) SENTENCE_START_TOKEN).
  revert Htable. generalize self. clear self.
  induction draws as [|p draws IH]; intros self Htable context; simpl.
  - apply not_elem_of_nil.
  - destruct (generate_token self context p) as [self1 [token|e]] eqn:Hg;
      [|apply not_elem_of_nil].
    apply generate_token_returned in Hg as (-> & d & Hd & Hin).
    destruct (String.eqb token SENTENCE_END_TOKEN); [apply not_elem_of_nil|].
    apply not_elem_of_cons. split; [|by apply IH].
    intros <-. by eapply Htable.
Qed.

End TrainingFacts.

(** * An empty corpus *)

Section EmptyCorpus.
Import Py NGramModel.

Context {num : Type} `{Number num}.
Variable SENTENCE_END_CHARS : list ascii.
Variable SENTENCE_START_TOKEN : string.
Variable SENTENCE_END_TOKEN : string.

Lemma count_line_nil (self_n : nat) (counts : gmap (list string) (odict nat)) :
  count_line SENTENCE_START_TOKEN self_n counts [] = counts.
Proof.
  unfold count_line. rewrite app_nil_r, length_replicate, Nat.sub_diag. done.
Qed.

Lemma count_corpus_all_nil (self_n : nat) (corpus : list (list string)) :
  Forall (fun tokens => tokens = []) corpus ->
  count_corpus SENTENCE_START_TOKEN self_n corpus = ∅.
Proof.
  unfold count_corpus. generalize (∅ : gmap (list string) (odict nat)).
  induction corpus as [|tokens corpus IH]; intros counts Hall; [done|].
  apply Forall_cons in Hall as [-> Hall]. simpl.
  rewrite count_line_nil. by apply IH.
Qed.

(** C9, amended: when there are no lines, or every line tokenizes to the
    empty sequence, construction returns a model whose table is empty; the
    failure comes at the first generation call, with the error of
    [generate_token]. *)
Theorem empty_corpus_builds_empty_table (lines : list string) (self_n : nat) :
  1 <= self_n ->
  Forall (fun line =>
            Corpus.tokenize SENTENCE_END_CHARS SENTENCE_END_TOKEN (lower line) = [])
    lines ->
  let self :=
    __init__ (num:=num) SENTENCE_START_TOKEN
      (Corpus.iter SENTENCE_END_CHARS SENTENCE_END_TOKEN lines) self_n in
  self = {| n := self_n; ngram_dict := ∅ |}
  /\ forall probability draws,
       (__call__ SENTENCE_START_TOKEN SENTENCE_END_TOKEN self (probability :: draws)).2
       = Some (Raised DataSparsityError).
Proof.
  intros _ Hlines self.
  assert (self = {| n := self_n; ngram_dict := ∅ |}) as ->.
  { unfold self, __init__, init_ngram_dict. f_equal.
    rewrite count_corpus_all_nil; [apply fmap_empty|].
    unfold Corpus.iter. by apply Forall_fmap. }
  split; [done|]. intros p draws. unfold __call__. simpl.
  rewrite generate_token_absent; [done | apply lookup_empty].
Qed.

End EmptyCorpus.

(** * Exact arithmetic *)

Section ExactFacts.
Import Py NGramModel.

Variable SENTENCE_START_TOKEN : string.
Variable SENTENCE_END_TOKEN : string.

Implicit Types (word_probs : odict Q) (d : odict nat).

Lemma values_normalize d :
  values (normalize (num:=Q) d)
  = map (fun c => (inject_Z (Z.of_nat c)
                   / inject_Z (Z.of_nat (sum_list (values d))))%Q) (values d).
Proof.
  unfold normalize, values. generalize (sum_list (map snd d)). intros total.
  induction d as [|[k v] d IH]; [done|]. cbn [map snd]. by f_equal.
Qed.

Lemma fold_ratios (counts : list nat) (t : Q) :
  forall acc : Q,
    (~ t == 0)%Q ->
    (fold_left Qplus (map (fun c => inject_Z (Z.of_nat c) / t) counts) acc
     == acc + inject_Z (Z.of_nat (sum_list counts)) / t)%Q.
Proof.
  induction counts as [|c counts IH]; intros acc Ht; simpl.
  - unfold Qdiv. change (inject_Z (Z.of_nat 0)) with 0%Q. ring.
  - rewrite IH by done. rewrite Nat2Z.inj_add, inject_Z_plus. field. done.
Qed.

Lemma sum_list_positive (d : odict nat) :
  well_counted d -> 0 < sum_list (values d).
Proof.
  intros (Hne & _ & Hpos). destruct d as [|[k v] d]; [done|].
  apply Forall_cons in Hpos as [Hv _]. simpl in *. lia.
Qed.

Lemma total_mass_normalize d :
  well_counted d -> (total_mass (normalize (num:=Q) d) == 1)%Q.
Proof.
  intros Hd. unfold total_mass. rewrite values_normalize.
  pose proof (sum_list_positive d Hd) as Hpos.
  assert (~ inject_Z (Z.of_nat (sum_list (values d))) == 0)%Q as Hnz.
  { change 0%Q with (inject_Z 0). rewrite inject_Z_injective. lia. }
  change (fold_left num_add) with (fold_left Qplus).
  change (num_zero (num:=Q)) with 0%Q.
  rewrite fold_ratios by done. field. done.
Qed.

Lemma odict_get_skip {V} (l1 l2 : odict V) (key : string) :
  key ∉ keys l1 -> odict_get (l1 ++ l2) key = odict_get l2 key.
Proof.
  induction l1 as [|[k v] l1 IH]; simpl; intros Hk; [done|].
  apply not_elem_of_cons in Hk as [Hne Hk].
  destruct (String.eqb_spec k key) as [->|_]; [done | by apply IH].
Qed.

Lemma odict_get_middle {V} (l1 l2 : odict V) (key : string) (v : V) :
  NoDup (keys (l1 ++ (key, v) :: l2)) ->
  odict_get (l1 ++ (key, v) :: l2) key = Some v.
Proof.
  intros Hnd. rewrite odict_get_skip.
  - simpl. by rewrite String.eqb_refl.
  - unfold keys in Hnd. rewrite map_app in Hnd. simpl in Hnd.
    apply NoDup_app in Hnd as (_ & Hdisj & _).
    intros Hin. apply (Hdisj _ Hin), list_elem_of_here.
Qed.

Lemma walk_step word_probs (k : string) (ks : list string) (p s : Q) :
  walk word_probs (k :: ks) p s
  = if Qle_bool p (s + default 0%Q (odict_get word_probs k))
    then Some k
    else walk word_probs ks p (s + default 0%Q (odict_get word_probs k))%Q.
Proof. reflexivity. Qed.

Lemma normalize_positive d :
  well_counted d -> Forall (fun kv => (0 < kv.2)%Q) (normalize (num:=Q) d).
Proof.
  intros Hd. pose proof (sum_list_positive d Hd) as Ht.
  destruct Hd as (_ & _ & Hpos). unfold normalize.
  revert Ht. generalize (sum_list (values d)). intros total Ht.
  induction Hpos as [|[k v] d' Hv Hpos IH]; simpl; constructor; [|done].
  simpl in *. unfold Qdiv.
  apply Qmult_lt_0_compat; [|apply Qinv_lt_0_compat];
    change 0%Q with (inject_Z 0); rewrite <- Zlt_Qlt; lia.
Qed.

Lemma fold_mass_ge (l : odict Q) :
  forall s : Q,
    Forall (fun kv => (0 < kv.2)%Q) l ->
    (s <= fold_left Qplus (values l) s)%Q.
Proof.
  induction l as [|[k v] l IH]; intros s Hpos; simpl.
  - apply Qle_refl.
  - apply Forall_cons in Hpos as [Hv Hpos]. simpl in Hv.
    apply Qle_trans with (s + v)%Q; [lra | by apply IH].
Qed.

(** Every entry of a distribution with distinct keys and positive
    probabilities is selected by some draw: one between the mass summed
    before the entry and the mass summed with it. *)
Lemma walk_select (w : string) (l2 : odict Q) :
  forall (l1 : odict Q) (s : Q),
    NoDup (keys (l1 ++ l2)) ->
    Forall (fun kv => (0 < kv.2)%Q) l2 ->
    w ∈ keys l2 ->
    exists p : Q,
      (s < p)%Q /\ (p < fold_left Qplus (values l2) s)%Q
      /\ walk (l1 ++ l2) (keys l2) p s = Some w.
Proof.
  induction l2 as [|[k v] l2 IH]; intros l1 s Hnd Hpos Hw.
  - by apply elem_of_nil in Hw.
  - apply Forall_cons in Hpos as [Hv Hpos]. simpl in Hv.
    pose proof (fold_mass_ge l2 (s + v) Hpos) as Hge.
    destruct (decide (k = w)) as [->|Hne].
    + exists (s + v * (1 # 2))%Q. split; [lra|]. split; [simpl; lra|].
      simpl keys. rewrite walk_step, odict_get_middle by done. simpl default.
      assert (Qle_bool (s + v * (1 # 2)) (s + v) = true) as ->; [|done].
      apply Qle_bool_iff. lra.
    + simpl in Hw. apply elem_of_cons in Hw as [->|Hw]; [done|].
      destruct (IH (l1 ++ [(k, v)]) (s + v)%Q) as (p & Hlo & Hhi & Hwalk).
      { by rewrite <- app_assoc. }
      { done. }
      { done. }
      exists p. split; [lra|]. split; [done|].
      simpl keys. rewrite walk_step, odict_get_middle by done. simpl default.
      assert (Qle_bool p (s + v) = false) as ->.
      { destruct (Qle_bool p (s + v)) eqn:E; [|done].
        apply Qle_bool_iff in E. lra. }
      by rewrite (cons_middle (k, v)), app_assoc.
Qed.

Section FollowLine.

Variable self_n : nat.
Variable corpus : list (list string).
Variable tokens : list string.
Hypothesis n_positive : 1 <= self_n.
Hypothesis tokens_in_corpus : tokens ∈ corpus.

Local Abbreviation self :=
  (__init__ (num:=Q) SENTENCE_START_TOKEN corpus self_n).
Local Abbreviation window := (NGramModel.window SENTENCE_START_TOKEN self_n tokens).

(** Some draw makes the step at the window of position [j] return the
    token the line has there. *)
Lemma select_token (j : nat) (word : string) :
  tokens !! j = Some word ->
  exists p, unit_draw p
            /\ generate_token self (window j) p = (self, Returned word).
Proof.
  intros Hj.
  destruct (counted_corpus SENTENCE_START_TOKEN self_n corpus tokens j word)
    as (d & Hd & Hw); [done..|].
  pose proof (count_corpus_well_counted _ _ _ _ _ Hd) as Hwc.
  assert (ngram_dict self !! window j = Some (normalize d)) as Hc.
  { simpl. apply lookup_init_ngram_dict. by exists d. }
  destruct (walk_select word (normalize d) [] 0%Q) as (p & Hlo & Hhi & Hwalk).
  { simpl. rewrite keys_normalize. apply Hwc. }
  { by apply normalize_positive. }
  { by rewrite keys_normalize. }
  exists p. split.
  - pose proof (total_mass_normalize d Hwc) as Hsum.
    unfold total_mass in Hsum.
    change (fold_left num_add) with (fold_left Qplus) in Hsum.
    change (num_zero (num:=Q)) with 0%Q in Hsum.
    rewrite Hsum in Hhi. split; lra.
  - rewrite (generate_token_present _ _ _ _ Hc).
    simpl app in Hwalk. change (num_zero (num:=Q)) with 0%Q. by rewrite Hwalk.
Qed.

End FollowLine.

End ExactFacts.

(** * Closed instances and counterexamples *)

Section Instances.
Import Py NGramModel.

Lemma absent_context_raises_witness :
  (generate_token short_model ["a"] 0%Q).2 = Raised DataSparsityError
  /\ forall draws sentence,
       (loop sample_end (0%Q :: draws) short_model sentence ["a"]).2
       = Some (Raised DataSparsityError).
Proof.
  apply (absent_context_raises sample_end short_model ["a"] 0%Q).
  vm_compute. reflexivity.
Defined.

(** C3 as stated fails: the run below reaches the context [("a",)], which the
    table does not hold, and leaves it in the table. *)
Lemma generation_inserts_absent_context :
  ngram_dict short_model !! ["a"] = None
  /\ ngram_dict (__call__ sample_start sample_end short_model [0; 0]%Q).1 !! ["a"]
     = Some []
  /\ (__call__ sample_start sample_end short_model [0; 0]%Q).2
     = Some (Raised DataSparsityError).
Proof. vm_compute. split_and!; reflexivity. Qed.

(** C4 as stated fails on Python's floats: the four probabilities 1/7, 4/7,
    1/7, 1/7 add up to [1 - 2^-52], below the largest value of
    [random.random()], [1 - 2^-53]. *)
Lemma sampling_fails_on_rounding :
  keys <$> ngram_dict rounding_model !! [] = Some ["a"; "b"; "c"; "d"]
  /\ PrimFloat.leb 0 rounding_draw = true
  /\ PrimFloat.ltb rounding_draw 1 = true
  /\ (generate_token rounding_model [] rounding_draw).2 = Raised DataSparsityError.
Proof. vm_compute. split_and!; reflexivity. Qed.

(** C7: trained on the line [(hello.], the run that samples the
    parenthesis first returns [( hello.]: the first word is appended after
    a space and is not capitalized, where the specification's policy gives
    [(Hello.].  The branch that capitalizes tests that the text is still
    empty, which a leading punctuation token makes false. *)
Theorem first_word_after_punctuation :
  (__call__ sample_start sample_end paren_model [0; 0; 0; 0]%Q).2
  = Some (Returned "( hello.")
  /\ sampled sample_end [0; 0; 0; 0]%Q paren_model [sample_start]
     = ["("; "hello"; "."]
  /\ spec_render false "" ["("; "hello"; "."] = "(Hello.".
Proof. vm_compute. split_and!; reflexivity. Qed.

Lemma empty_corpus_builds_empty_table_witness :
  let self :=
    __init__ (num:=Q) sample_start
      (Corpus.iter sample_end_chars sample_end [""; "   "]) 1 in
  self = {| n := 1; ngram_dict := ∅ |}
  /\ forall probability draws,
       (__call__ sample_start sample_end self (probability :: draws)).2
       = Some (Raised DataSparsityError).
Proof.
  apply (empty_corpus_builds_empty_table sample_end_chars sample_start sample_end
           [""; "   "] 1).
  - lia.
  - repeat constructor.
Defined.

(** C9 as stated fails: construction from no lines returns a model, whose
    table is empty. *)
Lemma empty_corpus_returns_model :
  __init__ (num:=Q) sample_start (Corpus.iter sample_end_chars sample_end []) 1
  = {| n := 1; ngram_dict := ∅ |}
  /\ __init__ (num:=Q) sample_start
       (Corpus.iter sample_end_chars sample_end [""; "   "]) 1
     = {| n := 1; ngram_dict := ∅ |}.
Proof. split; reflexivity. Qed.

(** C10 as stated fails for the sentence: on the line [a x<s>y.] no token
    is the start marker, and the sentence that is returned holds the
    marker's characters, inside the token [x<s>y]. *)
Lemma start_marker_inside_token :
  Corpus.iter sample_end_chars sample_end ["a x<s>y."]
  = [["a"; "x<s>y"; "."; sample_end]]
  /\ (__call__ sample_start sample_end marker_model [0; 0; 0; 0]%Q).2
     = Some (Returned "A x<s>y.")
  /\ PyText.substring sample_start "A x<s>y." = true.
Proof. vm_compute. split_and!; reflexivity. Qed.

Lemma start_marker_never_sampled_witness :
  let self := __init__ (num:=Q) sample_start cat_corpus 2 in
  (forall context word_probs,
     ngram_dict self !! context = Some word_probs ->
     sample_start ∉ keys word_probs)
  /\ forall draws,
       sample_start ∉ sampled sample_end draws self
                        (replicate (n self - 1) sample_start).
Proof.
  apply (start_marker_never_sampled sample_start 2 cat_corpus sample_end).
  - lia.
  - intros tokens Ht.
    assert (cat_corpus = [["the"; "cat"; "sat"; "."; sample_end];
                          ["the"; "cat"; "ran"; "."; sample_end]]) as Heq
      by reflexivity.
    rewrite Heq in Ht. rewrite !elem_of_cons, elem_of_nil in Ht.
    unfold sample_start, sample_end in *.
    destruct Ht as [->|[->|[]]];
      rewrite !not_elem_of_cons; split_and!; try discriminate;
      apply not_elem_of_nil.
Defined.

Lemma tokenize_word_trailing_witness :
  Corpus.tokenize_word sample_end_chars sample_end []
    ("wait" +:+ string_of_list_ascii ["?"; "!"]%char)
  = [] ++ ["wait"] ++ flat_map (Corpus.emit sample_end_chars sample_end)
                        (rev ["?"; "!"]%char).
Proof.
  apply (tokenize_word_trailing sample_end_chars sample_end "w" "ait"
           ["?"; "!"]%char []).
  - reflexivity.
  - exists "t"%char. split; reflexivity.
  - repeat constructor.
Defined.

Lemma contexts_have_length_witness :
  length ["cat"] = 2 - 1 /\ (2 = 1 -> ["cat"] = []).
Proof.
  apply (contexts_have_length (num:=Q) sample_start 2 cat_corpus ["cat"]
           [("sat", (1 # 2)%Q); ("ran", (1 # 2)%Q)]).
  - lia.
  - vm_compute. reflexivity.
Defined.

(** The example of the specification: trained on [the cat sat.] and
    [the cat ran.] with contexts of one token, the context [("cat",)] maps
    [sat] and [ran] to one half each. *)
Theorem cat_example :
  ngram_dict cat_model !! ["cat"] = Some [("sat", (1 # 2)%Q); ("ran", (1 # 2)%Q)].
Proof. vm_compute. reflexivity. Qed.

Lemma dot_model_step (p : Q) :
  unit_draw p ->
  exists token,
    generate_token dot_model [] p = (dot_model, Returned token)
    /\ String.eqb token sample_end = false.
Proof.
  intros [Hlo Hhi].
  assert (ngram_dict dot_model !! [] = Some [(".", (1 # 2)%Q); ("", (1 # 2)%Q)])
    as Hc by (vm_compute; reflexivity).
  rewrite (generate_token_present _ _ _ _ Hc).
  change (num_zero (num:=Q)) with 0%Q. simpl keys.
  rewrite !walk_step. simpl odict_get. simpl default.
  assert (Qle_bool p (0 + (1 # 2) + (1 # 2)) = true) as ->
    by (apply Qle_bool_iff; lra).
  destruct (Qle_bool p (0 + (1 # 2))); eexists; (split; [reflexivity|done]).
Qed.

Lemma dot_model_loops (draws : list Q) :
  forall sentence,
    Forall unit_draw draws ->
    loop sample_end draws dot_model sentence [] = (dot_model, None).
Proof.
  induction draws as [|p draws IH]; intros sentence Hall; [done|].
  apply Forall_cons in Hall as [Hp Hall].
  destruct (dot_model_step p Hp) as (t & Hg & Ht).
  rewrite (loop_returned _ _ _ _ _ _ _ _ Hg), Ht. by apply IH.
Qed.

Lemma stutter_model_loops (k : nat) :
  forall sentence,
    loop sample_end (replicate k 0%Q) stutter_model sentence ["a"]
    = (stutter_model, None).
Proof.
  assert (generate_token stutter_model ["a"] 0%Q = (stutter_model, Returned "a"))
    as Hg by (vm_compute; reflexivity).
  induction k as [|k IH]; intros sentence; [done|].
  change (replicate (S k) 0%Q) with (0%Q :: replicate k 0%Q).
  rewrite (loop_returned _ _ _ _ _ _ _ _ Hg).
  change (String.eqb "a" sample_end) with false. apply IH.
Qed.

(** C8 as stated fails.  The line that is only a full stop ends in a
    sentence-end character, yet its tokens hold no end marker: with the empty
    context, no sequence of draws ends the loop.  And for the line [a a.]
    with contexts of one token, the draws that are all zero repeat the word
    for ever. *)
Lemma generation_never_ends :
  (Forall (fun line => Corpus.ends_sentence sample_end_chars line = true) ["."]
   /\ forall draws,
        Forall unit_draw draws ->
        (__call__ sample_start sample_end dot_model draws).2 = None)
  /\ (Forall (fun line => Corpus.ends_sentence sample_end_chars line = true)
        ["a a."]
      /\ forall k,
           (__call__ sample_start sample_end stutter_model (replicate k 0%Q)).2
           = None).
Proof.
  split; split; try (by repeat constructor).
  - intros draws Hall. unfold __call__.
    change (replicate (n dot_model - 1) sample_start) with (@nil string).
    by rewrite dot_model_loops.
  - intros [|k]; [done|]. unfold __call__.
    change (replicate (n stutter_model - 1) sample_start) with [sample_start].
    change (replicate (S k) 0%Q) with (0%Q :: replicate k 0%Q).
    assert (generate_token stutter_model [sample_start] 0%Q
            = (stutter_model, Returned "a")) as Hg by (vm_compute; reflexivity).
    rewrite (loop_returned _ _ _ _ _ _ _ _ Hg).
    change (String.eqb "a" sample_end) with false.
    change (drop 1 ([sample_start] ++ ["a"])) with ["a"].
    by rewrite stutter_model_loops.
Qed.

End Instances.

(** * The shape of the tokens *)

Section TokenizerShape.
Import Py Corpus.

Variable SENTENCE_END_CHARS : list ascii.
Variable SENTENCE_END_TOKEN : string.

Local Abbreviation in_sentence_end := (Corpus.in_sentence_end SENTENCE_END_CHARS).
Local Abbreviation strip_after :=
  (Corpus.strip_after SENTENCE_END_CHARS SENTENCE_END_TOKEN).
Local Abbreviation tokenize_word :=
  (Corpus.tokenize_word SENTENCE_END_CHARS SENTENCE_END_TOKEN).
Local Abbreviation tokenize := (Corpus.tokenize SENTENCE_END_CHARS SENTENCE_END_TOKEN).
Local Abbreviation emit := (Corpus.emit SENTENCE_END_CHARS SENTENCE_END_TOKEN).
Local Abbreviation iter := (Corpus.iter SENTENCE_END_CHARS SENTENCE_END_TOKEN).

Lemma last_char_None (s : string) : last_char s = None -> s = "".
Proof.
  induction s as [|c s IH]; [done|]. destruct s as [|c' s]; [done|].
  intros Hl. change (last_char (String c' s) = None) in Hl. by apply IH in Hl.
Qed.

Lemma snoc_last_char (s : string) (c : ascii) :
  last_char s = Some c -> s = drop_last s +:+ String c "".
Proof.
  induction s as [|a s IH]; [done|]. destruct s as [|a' s].
  - by intros [= ->].
  - intros Hl. change (last_char (String a' s) = Some c) in Hl.
    change (drop_last (String a (String a' s)))
      with (String a (drop_last (String a' s))).
    rewrite append_cons. f_equal. by apply IH.
Qed.

Lemma string_of_list_ascii_app (l1 l2 : list ascii) :
  string_of_list_ascii (l1 ++ l2)
  = string_of_list_ascii l1 +:+ string_of_list_ascii l2.
Proof.
  induction l1 as [|a l1 IH]; [done|]. simpl. by rewrite IH, append_cons.
Qed.

(** The first loop: the longest prefix of punctuation, in order. *)
Lemma strip_before_shape (token : string) :
  forall acc : list string,
  exists (lead : list ascii) (rest : string),
    token = string_of_list_ascii lead +:+ rest
    /\ Forall (fun c => in_punctuation c = true) lead
    /\ (rest = "" \/ exists c r, rest = String c r /\ in_punctuation c = false)
    /\ strip_before token acc = (acc ++ map (fun c => String c "") lead, rest).
Proof.
  induction token as [|c token IH]; intros acc.
  - exists [], "". simpl. rewrite app_nil_r. auto.
  - simpl. destruct (in_punctuation c) eqn:Hc.
    + destruct (IH (acc ++ [String c ""])) as (lead & rest & -> & Hl & Hr & ->).
      exists (c :: lead), rest. simpl. rewrite <- app_assoc.
      split; [done|]. split; [by constructor|]. done.
    + exists [], (String c token). simpl. rewrite app_nil_r.
      split; [done|]. split; [done|]. split; [|done]. right. eauto.
Qed.

(** The second loop, run with the length of the word as fuel: the longest
    suffix of punctuation, last character first. *)
Lemma strip_after_shape (fuel : nat) :
  forall (token : string) (acc : list string),
    String.length token <= fuel ->
    exists (core : string) (trail : list ascii),
      token = core +:+ string_of_list_ascii trail
      /\ Forall (fun c => in_punctuation c = true) trail
      /\ (core = "" \/ ends_in_word_char core)
      /\ strip_after fuel token acc = (acc ++ flat_map emit (rev trail), core).
Proof.
  induction fuel as [|fuel IH]; intros token acc Hlen.
  - destruct token; [|simpl in Hlen; lia].
    exists "", []. simpl. rewrite app_nil_r. auto.
  - rewrite strip_after_S. destruct (last_char token) as [c|] eqn:Hlast.
    + destruct (in_punctuation c) eqn:Hc.
      * destruct (IH (drop_last token)
                    (acc ++ [String c ""]
                       ++ (if in_sentence_end c then [SENTENCE_END_TOKEN] else [])))
          as (core & trail & Htok & Ht & Hcore & ->).
        { rewrite length_drop_last. lia. }
        exists core, (trail ++ [c]). split.
        { rewrite (snoc_last_char _ _ Hlast) at 1.
          by rewrite Htok, string_of_list_ascii_app, append_assoc. }
        split; [apply Forall_app; split; [done | by constructor]|].
        split; [done|].
        rewrite rev_app_distr. simpl. by rewrite <- !app_assoc.
      * exists token, []. simpl. rewrite append_empty_r, app_nil_r.
        split; [done|]. split; [done|]. split; [|done].
        right. by exists c.
    + apply last_char_None in Hlast as ->.
      exists "", []. simpl. rewrite app_nil_r. auto.
Qed.

(** The three parts of a word and the tokens they give. *)
Lemma tokenize_word_parts (word : string) (acc : list string) :
  exists (lead : list ascii) (core : string) (trail : list ascii),
    word = string_of_list_ascii lead +:+ core +:+ string_of_list_ascii trail
    /\ tokenize_word acc word
       = acc ++ map (fun c => String c "") lead ++ [core]
           ++ flat_map emit (rev trail).
Proof.
  unfold Corpus.tokenize_word.
  destruct (strip_before_shape word []) as (lead & rest & Hw & _ & _ & ->).
  destruct (strip_after_shape (String.length rest) rest [] (le_n _))
    as (core & trail & Hrest & _ & _ & ->).
  exists lead, core, trail. simpl. split; [by rewrite Hw, Hrest | done].
Qed.

(** The shape of a tokenized word, for every word: the leading punctuation
    characters in order, one symbol each; the core, which is empty or
    begins and ends with a character that is no punctuation; and the
    trailing punctuation characters in reverse order, each followed by the
    end marker when it ends a sentence.  An empty core has no trailing
    characters: a word of punctuation only is read as leading punctuation. *)
Theorem tokenize_word_shape (word : string) (acc : list string) :
  exists (lead : list ascii) (core : string) (trail : list ascii),
    word = string_of_list_ascii lead +:+ core +:+ string_of_list_ascii trail
    /\ Forall (fun c => in_punctuation c = true) lead
    /\ Forall (fun c => in_punctuation c = true) trail
    /\ ((core = "" /\ trail = [])
        \/ ((exists c r, core = String c r /\ in_punctuation c = false)
            /\ ends_in_word_char core))
    /\ tokenize_word acc word
       = acc ++ map (fun c => String c "") lead ++ [core]
           ++ flat_map emit (rev trail).
Proof.
  unfold Corpus.tokenize_word.
  destruct (strip_before_shape word []) as (lead & rest & Hw & Hl & Hr & ->).
  destruct (strip_after_shape (String.length rest) rest [] (le_n _))
    as (core & trail & Hrest & Ht & Hcore & ->).
  exists lead, core, trail. simpl.
  split; [by rewrite Hw, Hrest|]. split; [done|]. split; [done|].
  split; [|done].
  destruct Hr as [->|(c & r & -> & Hc)].
  - left. destruct core; [|done]. destruct trail; [done | done].
  - right. destruct core as [|c' core'].
    + simpl in Hrest. destruct trail as [|t trail]; [done|].
      simpl in Hrest. injection Hrest as <- _.
      apply Forall_cons in Ht as [Ht _]. congruence.
    + rewrite append_cons in Hrest. injection Hrest as <- _.
      split; [eauto|]. destruct Hcore as [?|?]; [done | done].
Qed.


Lemma strip_before_punctuation (cs : list ascii) :
  forall acc : list string,
    Forall (fun c => in_punctuation c = true) cs ->
    strip_before (string_of_list_ascii cs) acc
    = (acc ++ map (fun c => String c "") cs, "").
Proof.
  induction cs as [|c cs IH]; intros acc Hp; simpl.
  - by rewrite app_nil_r.
  - apply Forall_cons in Hp as [-> Hp]. rewrite IH by done.
    by rewrite <- app_assoc.
Qed.

(** A word of punctuation characters only: every character is a symbol of
    its own, in the order of the word, followed by the empty core; no end
    marker is emitted, whatever the characters are. *)
Theorem tokenize_punctuation_word (cs : list ascii) (acc : list string) :
  Forall (fun c => in_punctuation c = true) cs ->
  tokenize_word acc (string_of_list_ascii cs)
  = acc ++ map (fun c => String c "") cs ++ [""].
Proof.
  intros Hp. unfold Corpus.tokenize_word.
  rewrite strip_before_punctuation by done. simpl. by rewrite ?app_nil_r.
Qed.

(** [tokenize_word] only appends to the tokens it is given. *)
Lemma tokenize_word_acc (acc : list string) (word : string) :
  tokenize_word acc word = acc ++ tokenize_word [] word.
Proof.
  unfold Corpus.tokenize_word.
  destruct (strip_before word []) as [before token].
  by destruct (strip_after (String.length token) token []).
Qed.

Lemma tokenize_words_acc (words : list string) :
  forall acc : list string,
    fold_left tokenize_word words acc = acc ++ fold_left tokenize_word words [].
Proof.
  induction words as [|w words IH]; intros acc; simpl.
  - by rewrite app_nil_r.
  - rewrite IH, (IH (tokenize_word [] w)), tokenize_word_acc.
    by rewrite <- app_assoc.
Qed.

Lemma tokenize_words_app (ws1 ws2 : list string) :
  fold_left tokenize_word (ws1 ++ ws2) []
  = fold_left tokenize_word ws1 [] ++ fold_left tokenize_word ws2 [].
Proof. by rewrite fold_left_app, tokenize_words_acc. Qed.

Lemma tokenize_word_not_nil (acc : list string) (word : string) :
  tokenize_word acc word <> [].
Proof.
  destruct (tokenize_word_parts word acc) as (l & c & t & _ & ->).
  intros Heq. apply app_eq_nil in Heq as [_ Heq].
  apply app_eq_nil in Heq as [_ Heq]. done.
Qed.

Lemma split_from_cons (word : string) (c : ascii) (s : string) :
  split_from word (String c s)
  = if isspace c
    then (if String.eqb word "" then split_from "" s else word :: split_from "" s)
    else split_from (word +:+ String c "") s.
Proof. reflexivity. Qed.

Lemma snoc_not_empty (s : string) (c : ascii) : s +:+ String c "" <> "".
Proof. by destruct s. Qed.

Lemma split_from_not_nil (s : string) :
  forall word : string, word <> "" -> split_from word s <> [].
Proof.
  induction s as [|c s IH]; intros word Hw.
  - simpl. by destruct (String.eqb_spec word "").
  - rewrite split_from_cons. destruct (isspace c).
    + by destruct (String.eqb_spec word "").
    + apply IH, snoc_not_empty.
Qed.

Lemma split_nil (s : string) :
  split s = [] <-> Forall (fun c => isspace c = true) (list_ascii_of_string s).
Proof.
  unfold split. induction s as [|c s IH]; simpl list_ascii_of_string.
  - split; [constructor | done].
  - rewrite split_from_cons, Forall_cons. destruct (isspace c) eqn:Hc.
    + simpl. rewrite IH. tauto.
    + split; [|intros [? _]; done].
      intros Hs. by apply split_from_not_nil in Hs; [|apply snoc_not_empty].
Qed.

(** An ASCII line gives no token exactly when it holds nothing but
    whitespace: the empty line and the blank line are the only ASCII lines
    tokenized to the empty sequence. *)
Theorem tokenize_nil (line : string) :
  PyText.isascii line = true ->
  tokenize line = []
  <-> Forall (fun c => isspace c = true) (list_ascii_of_string line).
Proof.
  intros _. rewrite <- split_nil. unfold Corpus.tokenize.
  destruct (split line) as [|w ws]; [done|]. simpl.
  split; [|done]. rewrite tokenize_words_acc. intros Heq.
  apply app_eq_nil in Heq as [Heq _]. by apply tokenize_word_not_nil in Heq.
Qed.

Lemma split_from_app (a : string) (c : ascii) (b : string) :
  isspace c = true ->
  forall word : string,
    split_from word (a +:+ String c b) = split_from word a ++ split b.
Proof.
  intros Hc. induction a as [|x a IH]; intros word.
  - change ("" +:+ String c b) with (String c b).
    rewrite split_from_cons, Hc. simpl. by destruct (String.eqb word "").
  - rewrite append_cons, !split_from_cons.
    destruct (isspace x); [|apply IH].
    destruct (String.eqb word ""); [apply IH|].
    rewrite IH. done.
Qed.

(** Tokenizing composes over whitespace: the tokens of two texts joined
    by a whitespace character are the tokens of the first followed by the
    tokens of the second. *)
Theorem tokenize_app (a : string) (c : ascii) (b : string) :
  isspace c = true ->
  tokenize (a +:+ String c b) = tokenize a ++ tokenize b.
Proof.
  intros Hc. unfold Corpus.tokenize, split.
  by rewrite split_from_app, tokenize_words_app.
Qed.


Lemma list_ascii_of_string_app (s t : string) :
  list_ascii_of_string (s +:+ t)
  = list_ascii_of_string s ++ list_ascii_of_string t.
Proof.
  induction s as [|c s IH]; [done|]. rewrite append_cons. simpl. by rewrite IH.
Qed.

Lemma list_ascii_of_string_of_list (l : list ascii) :
  list_ascii_of_string (string_of_list_ascii l) = l.
Proof. induction l as [|c l IH]; [done|]. simpl. by rewrite IH. Qed.

(** The words of [str.split] are made of the characters of the text that
    are no whitespace. *)
Lemma split_from_chars (P : ascii -> Prop) (s : string) :
  forall word : string,
    Forall P (list_ascii_of_string word) ->
    (forall c, c ∈ list_ascii_of_string s -> isspace c = false -> P c) ->
    Forall (fun w => Forall P (list_ascii_of_string w)) (split_from word s).
Proof.
  induction s as [|c s IH]; intros word Hword Hs.
  - simpl. destruct (String.eqb word ""); by repeat constructor.
  - assert (forall c', c' ∈ list_ascii_of_string s -> isspace c' = false -> P c')
      as Hs' by (intros c' Hc'; apply Hs; simpl; by apply list_elem_of_further).
    rewrite split_from_cons. destruct (isspace c) eqn:Hc.
    + destruct (String.eqb word "").
      * by apply IH.
      * constructor; [done | by apply IH].
    + apply IH; [|done]. rewrite list_ascii_of_string_app.
      apply Forall_app. split; [done|]. simpl. constructor; [|done].
      apply Hs; [apply list_elem_of_here | done].
Qed.

Lemma tokenize_word_chars (P : ascii -> Prop) (word token : string) :
  Forall P (list_ascii_of_string word) ->
  token ∈ tokenize_word [] word ->
  token = SENTENCE_END_TOKEN \/ Forall P (list_ascii_of_string token).
Proof.
  intros Hword Hin.
  destruct (tokenize_word_parts word []) as (lead & core & trail & Hw & Heq).
  rewrite Heq in Hin. clear Heq. subst word.
  rewrite !list_ascii_of_string_app, !list_ascii_of_string_of_list in Hword.
  apply Forall_app in Hword as [Hlead Hrest].
  apply Forall_app in Hrest as [Hcore Htrail].
  simpl in Hin. rewrite elem_of_app, elem_of_cons in Hin.
  destruct Hin as [Hin|[->|Hin]].
  - right. apply list_elem_of_In, in_map_iff in Hin as (c & <- & Hc). simpl.
    apply list_elem_of_In in Hc.
    constructor; [|done]. rewrite Forall_forall in Hlead. by apply Hlead.
  - by right.
  - apply list_elem_of_In, in_flat_map in Hin as (c & Hc & Hin).
    apply list_elem_of_In in Hin. apply In_rev, list_elem_of_In in Hc.
    unfold Corpus.emit in Hin. apply elem_of_cons in Hin as [->|Hin].
    + right. simpl. constructor; [|done]. rewrite Forall_forall in Htrail.
      by apply Htrail.
    + left. destruct (in_sentence_end c).
      * by apply list_elem_of_singleton in Hin.
      * by apply elem_of_nil in Hin.
Qed.

Lemma tokenize_words_chars (P : ascii -> Prop) (words : list string)
    (token : string) :
  Forall (fun w => Forall P (list_ascii_of_string w)) words ->
  token ∈ fold_left tokenize_word words [] ->
  token = SENTENCE_END_TOKEN \/ Forall P (list_ascii_of_string token).
Proof.
  induction words as [|w words IH]; intros Hall Hin.
  - by apply elem_of_nil in Hin.
  - apply Forall_cons in Hall as [Hw Hall]. simpl in Hin.
    rewrite tokenize_words_acc, elem_of_app in Hin.
    destruct Hin as [Hin|Hin]; [by eapply tokenize_word_chars | by apply IH].
Qed.

(** Every token of a line, the inserted end markers apart, is made of
    characters of the line that are no whitespace: the tokenizer keeps no
    whitespace and invents no character. *)
Theorem tokenize_chars (line token : string) :
  token ∈ tokenize line ->
  token = SENTENCE_END_TOKEN
  \/ Forall (fun c => c ∈ list_ascii_of_string line /\ isspace c = false)
       (list_ascii_of_string token).
Proof.
  intros Hin. eapply tokenize_words_chars; [|exact Hin].
  apply split_from_chars; [constructor | auto].
Qed.

Lemma isupper_tolower (c : ascii) : isupper (tolower c) = false.
Proof. destruct c as [[] [] [] [] [] [] [] []]; reflexivity. Qed.

Lemma isspace_tolower (c : ascii) : isspace (tolower c) = isspace c.
Proof. destruct c as [[] [] [] [] [] [] [] []]; reflexivity. Qed.

Lemma list_ascii_of_lower (s : string) :
  list_ascii_of_string (lower s) = map tolower (list_ascii_of_string s).
Proof. induction s as [|c s IH]; [done|]. simpl. by rewrite IH. Qed.

(** The corpus iterator lowers each line before it tokenizes it: no token it
    yields, the inserted end markers apart, holds an upper-case letter or a
    whitespace character. *)
Theorem iter_tokens_lower (lines : list string) (tokens : list string)
    (token : string) :
  tokens ∈ iter lines ->
  token ∈ tokens ->
  token = SENTENCE_END_TOKEN
  \/ Forall (fun c => isupper c = false /\ isspace c = false)
       (list_ascii_of_string token).
Proof.
  intros Hline Hin. unfold Corpus.iter in Hline.
  apply list_elem_of_In, in_map_iff in Hline as (line & <- & _).
  eapply tokenize_words_chars; [|exact Hin].
  apply split_from_chars; [constructor|].
  intros c Hc Hs. split; [|done].
  rewrite list_ascii_of_lower in Hc.
  apply list_elem_of_In, in_map_iff in Hc as (c0 & <- & _).
  apply isupper_tolower.
Qed.

End TokenizerShape.

Lemma tokenize_punctuation_word_witness :
  Corpus.tokenize_word sample_end_chars sample_end []
    (string_of_list_ascii ["("; "!"]%char)
  = [] ++ map (fun c => String c "") ["("; "!"]%char ++ [""].
Proof.
  apply (tokenize_punctuation_word sample_end_chars sample_end
           ["("; "!"]%char []).
  repeat constructor.
Defined.

Lemma tokenize_nil_witness :
  Corpus.tokenize sample_end_chars sample_end "  " = []
  <-> Forall (fun c => Py.isspace c = true) (list_ascii_of_string "  ").
Proof.
  apply (tokenize_nil sample_end_chars sample_end "  "). reflexivity.
Defined.

Lemma tokenize_app_witness :
  Corpus.tokenize sample_end_chars sample_end ("the cat" +:+ String " " "sat.")
  = Corpus.tokenize sample_end_chars sample_end "the cat"
      ++ Corpus.tokenize sample_end_chars sample_end "sat.".
Proof.
  apply (tokenize_app sample_end_chars sample_end "the cat" " "%char "sat.").
  reflexivity.
Defined.

Lemma tokenize_chars_witness :
  "cat" = sample_end
  \/ Forall (fun c => c ∈ list_ascii_of_string "The cat." /\ Py.isspace c = false)
       (list_ascii_of_string "cat").
Proof.
  apply (tokenize_chars sample_end_chars sample_end "The cat." "cat").
  change ("cat" ∈ ["The"; "cat"; "."; sample_end]).
  apply list_elem_of_further, list_elem_of_here.
Defined.

Lemma iter_tokens_lower_witness :
  "cat" = sample_end
  \/ Forall (fun c => Py.isupper c = false /\ Py.isspace c = false)
       (list_ascii_of_string "cat").
Proof.
  apply (iter_tokens_lower sample_end_chars sample_end ["The Cat."]
           ["the"; "cat"; "."; sample_end] "cat").
  - change (["the"; "cat"; "."; sample_end] ∈ [["the"; "cat"; "."; sample_end]]).
    apply list_elem_of_here.
  - apply list_elem_of_further, list_elem_of_here.
Defined.
(** * What the table counts *)

Section CountFacts.
Import Py NGramModel Occurrences.

Variable SENTENCE_START_TOKEN : string.
Variable self_n : nat.
Hypothesis n_positive : 1 <= self_n.

Local Abbreviation count_window := (NGramModel.count_window self_n).
Local Abbreviation count_line :=
  (NGramModel.count_line SENTENCE_START_TOKEN self_n).
Local Abbreviation count_corpus :=
  (NGramModel.count_corpus SENTENCE_START_TOKEN self_n).
Local Abbreviation window := (NGramModel.window SENTENCE_START_TOKEN self_n).
Local Abbreviation follows := (Occurrences.follows SENTENCE_START_TOKEN self_n).
Local Abbreviation line_occurrences :=
  (Occurrences.line_occurrences SENTENCE_START_TOKEN self_n).
Local Abbreviation occurrences :=
  (Occurrences.occurrences SENTENCE_START_TOKEN self_n).
Local Abbreviation line_context_occurrences :=
  (Occurrences.line_context_occurrences SENTENCE_START_TOKEN self_n).
Local Abbreviation context_occurrences :=
  (Occurrences.context_occurrences SENTENCE_START_TOKEN self_n).
Local Abbreviation padded tokens :=
  (replicate (self_n - 1) SENTENCE_START_TOKEN ++ tokens).

Implicit Types (counts : gmap (list string) (odict nat)).
Implicit Types (tokens context : list string) (corpus : list (list string)).

Lemma odict_get_incr (d : odict nat) (word key : string) :
  default 0 (odict_get (odict_incr d word) key)
  = default 0 (odict_get d key) + (if decide (word = key) then 1 else 0).
Proof.
  induction d as [|[k v] d IH]; simpl.
  - destruct (String.eqb_spec word key); by case_decide.
  - destruct (String.eqb_spec k word) as [->|Hkw]; simpl.
    + destruct (String.eqb_spec word key); case_decide; simpl; try done; lia.
    + destruct (String.eqb_spec k key) as [->|Hkk]; [|done].
      simpl. case_decide; [done | lia].
Qed.

Lemma sum_values_incr (d : odict nat) (word : string) :
  sum_list (values (odict_incr d word)) = S (sum_list (values d)).
Proof.
  induction d as [|[k v] d IH]; simpl; [done|].
  destruct (String.eqb k word); simpl; [done|]. rewrite IH. lia.
Qed.

Lemma get_count_incr counts context word context' word' :
  get_count (incr counts context word) context' word'
  = get_count counts context' word'
    + (if decide (context = context' /\ word = word') then 1 else 0).
Proof.
  unfold get_count, incr. destruct (decide (context = context')) as [->|Hne].
  - rewrite lookup_insert_eq. simpl. rewrite odict_get_incr.
    destruct (decide (word = word')) as [->|Hw].
    + by rewrite decide_True.
    + rewrite decide_False; [done | by intros [_ ?]].
  - rewrite lookup_insert_ne by done.
    rewrite decide_False; [lia | by intros [? _]].
Qed.

Lemma get_total_incr counts context word context' :
  get_total (incr counts context word) context'
  = get_total counts context' + (if decide (context = context') then 1 else 0).
Proof.
  unfold get_total, incr. destruct (decide (context = context')) as [->|Hne].
  - rewrite lookup_insert_eq. simpl. rewrite sum_values_incr. lia.
  - rewrite lookup_insert_ne by done. lia.
Qed.


Lemma count_window_position counts tokens (j : nat) (word : string) :
  tokens !! j = Some word ->
  count_window (padded tokens) counts (self_n - 1 + j)
  = incr counts (window tokens j) word.
Proof.
  intros Hj. unfold NGramModel.count_window, NGramModel.window, slice.
  rewrite lookup_app_r by (rewrite length_replicate; lia).
  rewrite length_replicate.
  replace (self_n - 1 + j - (self_n - 1)) with j by lia. rewrite Hj.
  replace (self_n - 1 + j + 1 - self_n) with j by lia.
  by replace (self_n - 1 + j - j) with (self_n - 1) by lia.
Qed.

(** What counting the windows of a line adds to one entry and to one
    total: the number of positions that match. *)
Lemma count_positions tokens context word (js : list nat) :
  forall counts,
    (forall j, j ∈ js -> j < length tokens) ->
    let counts' :=
      fold_left (count_window (padded tokens)) (map (Nat.add (self_n - 1)) js)
        counts in
    get_count counts' context word
    = get_count counts context word
      + length (filter (follows tokens context word) js)
    /\ get_total counts' context
       = get_total counts context
         + length (filter (fun j => window tokens j = context) js).
Proof.
  induction js as [|j js IH]; intros counts Hjs; simpl.
  - split; lia.
  - destruct (lookup_lt_is_Some_2 tokens j) as [w Hw];
      [apply Hjs, list_elem_of_here|].
    rewrite (count_window_position _ _ _ _ Hw).
    destruct (IH (incr counts (window tokens j) w)) as [Hc Ht].
    { intros j' Hj'. by apply Hjs, list_elem_of_further. }
    simpl in Hc, Ht. rewrite Hc, Ht, get_count_incr, get_total_incr.
    rewrite !filter_cons. split.
    + destruct (decide (window tokens j = context /\ w = word)) as [[Hwin ->]|Hno].
      * rewrite decide_True by done. simpl. lia.
      * rewrite decide_False; [lia|].
        intros [Hwin Hj]. apply Hno. split; [done | congruence].
    + destruct (decide (window tokens j = context)); simpl; lia.
Qed.

Lemma count_line_adds counts tokens context word :
  get_count (count_line counts tokens) context word
  = get_count counts context word + line_occurrences tokens context word
  /\ get_total (count_line counts tokens) context
     = get_total counts context + line_context_occurrences tokens context.
Proof.
  unfold NGramModel.count_line. rewrite length_app, length_replicate.
  replace (self_n - 1 + length tokens - (self_n - 1)) with (length tokens) by lia.
  replace (seq (self_n - 1) (length tokens))
    with (map (Nat.add (self_n - 1)) (seq 0 (length tokens))).
  - apply count_positions. intros j Hj. apply elem_of_seq in Hj. lia.
  - rewrite <- (Nat.add_0_r (self_n - 1)) at 2. apply (fmap_add_seq (self_n - 1) 0).
Qed.

(** The table of counts holds, for every context and word, the number of
    times the word follows the context in the corpus. *)
Lemma count_corpus_occurrences corpus context word :
  get_count (count_corpus corpus) context word = occurrences corpus context word
  /\ get_total (count_corpus corpus) context = context_occurrences corpus context.
Proof.
  unfold NGramModel.count_corpus.
  assert (forall counts,
            get_count (fold_left count_line corpus counts) context word
            = get_count counts context word + occurrences corpus context word
            /\ get_total (fold_left count_line corpus counts) context
               = get_total counts context + context_occurrences corpus context)
    as Hgen.
  { induction corpus as [|tokens corpus' IH]; intros counts; simpl.
    - unfold Occurrences.occurrences, Occurrences.context_occurrences. simpl.
      split; lia.
    - destruct (IH (count_line counts tokens)) as [-> ->].
      destruct (count_line_adds counts tokens context word) as [-> ->].
      unfold Occurrences.occurrences, Occurrences.context_occurrences. simpl.
      split; lia. }
  destruct (Hgen ∅) as [-> ->]. unfold get_count, get_total.
  rewrite lookup_empty. done.
Qed.

End CountFacts.

Section TableFacts.
Import Py NGramModel Occurrences.

Context {num : Type} `{Number num}.
Variable SENTENCE_START_TOKEN : string.
Variable self_n : nat.

Local Abbreviation count_corpus :=
  (NGramModel.count_corpus SENTENCE_START_TOKEN self_n).
Local Abbreviation init_ngram_dict :=
  (NGramModel.init_ngram_dict (num:=num) SENTENCE_START_TOKEN self_n).
Local Abbreviation occurrences :=
  (Occurrences.occurrences SENTENCE_START_TOKEN self_n).
Local Abbreviation context_occurrences :=
  (Occurrences.context_occurrences SENTENCE_START_TOKEN self_n).

Lemma key_iff_counted (d : odict nat) (word : string) :
  Forall (fun kv => 0 < kv.2) d ->
  word ∈ keys d <-> 0 < default 0 (odict_get d word).
Proof.
  induction d as [|[k v] d IH]; intros Hpos; simpl.
  - rewrite elem_of_nil. lia.
  - apply Forall_cons in Hpos as [Hv Hpos]. simpl in Hv.
    rewrite elem_of_cons. destruct (String.eqb_spec k word) as [->|Hne]; simpl.
    + split; [done | by left].
    + rewrite <- IH by done. split; [intros [?|?]; [congruence | done] | by right].
Qed.

Lemma table_context_iff (corpus : list (list string)) (context : list string) :
  1 <= self_n ->
  is_Some (init_ngram_dict corpus !! context)
  <-> 0 < context_occurrences corpus context.
Proof.
  intros Hn.
  destruct (count_corpus_occurrences SENTENCE_START_TOKEN self_n Hn corpus
              context "") as [_ Htotal].
  unfold NGramModel.init_ngram_dict. rewrite lookup_fmap, fmap_is_Some.
  rewrite <- Htotal. unfold get_total.
  destruct (count_corpus corpus !! context) as [d|] eqn:Hd; simpl.
  - split; [intros _ | by eauto].
    apply sum_list_positive. by eapply count_corpus_well_counted.
  - split; [by intros [? ?] | lia].
Qed.

Lemma table_key_iff (corpus : list (list string)) (context : list string)
    (word_probs : odict num) (word : string) :
  1 <= self_n ->
  init_ngram_dict corpus !! context = Some word_probs ->
  word ∈ keys word_probs <-> 0 < occurrences corpus context word.
Proof.
  intros Hn Hc. apply lookup_init_ngram_dict in Hc as (d & Hd & ->).
  rewrite keys_normalize.
  destruct (count_corpus_occurrences SENTENCE_START_TOKEN self_n Hn corpus
              context word) as [Hcount _].
  rewrite <- Hcount. unfold get_count. rewrite Hd. simpl.
  apply key_iff_counted. by eapply count_corpus_well_counted.
Qed.

(** The table holds exactly the contexts that occur in the corpus, and the
    distribution of a context has exactly the words that follow it there. *)
Theorem table_holds_what_occurs (corpus : list (list string))
    (context : list string) :
  1 <= self_n ->
  (is_Some (init_ngram_dict corpus !! context)
   <-> 0 < context_occurrences corpus context)
  /\ forall (word_probs : odict num) (word : string),
       init_ngram_dict corpus !! context = Some word_probs ->
       (word ∈ keys word_probs <-> 0 < occurrences corpus context word).
Proof.
  intros Hn. split; [by apply table_context_iff|].
  intros wp word Hc. by apply table_key_iff.
Qed.

Lemma odict_get_normalize (d : odict nat) (word : string) :
  odict_get (normalize (num:=num) d) word
  = (fun c => true_div c (sum_list (values d))) <$> odict_get d word.
Proof.
  unfold normalize. generalize (sum_list (values d)). intros total.
  induction d as [|[k v] d IH]; [done|]. cbn [map odict_get].
  by destruct (String.eqb k word).
Qed.

(** The probability the table stores for a word under a context is the
    quotient, as the arithmetic of the code computes it, of the number of
    times the word follows the context in the corpus by the number of
    times the context occurs; a word that never follows the context has no
    entry. *)
Theorem probability_is_relative_frequency (corpus : list (list string))
    (context : list string) (word_probs : odict num) (word : string) :
  1 <= self_n ->
  init_ngram_dict corpus !! context
  = Some word_probs ->
  odict_get word_probs word
  = if Nat.eqb (occurrences corpus context word) 0
    then None
    else Some (true_div
                 (occurrences corpus context word)
                 (context_occurrences corpus context)).
Proof.
  intros Hn Hc. apply lookup_init_ngram_dict in Hc as (d & Hd & ->).
  destruct (count_corpus_occurrences SENTENCE_START_TOKEN self_n Hn corpus
              context word) as [Hcount Htotal].
  rewrite <- Hcount, <- Htotal. unfold get_count, get_total. rewrite Hd.
  simpl default.
  apply count_corpus_well_counted in Hd as (_ & _ & Hpos).
  rewrite odict_get_normalize.
  destruct (odict_get d word) as [c|] eqn:Hget; simpl; [|done].
  assert (0 < c) as Hc.
  { clear -Hget Hpos. induction Hpos as [|[k v] d Hv _ IH]; [done|].
    simpl in Hget. destruct (String.eqb k word); [by injection Hget as <- | auto]. }
  destruct (Nat.eqb_spec c 0); [lia | done].
Qed.

End TableFacts.

Section FrequencyFacts.
Import Py NGramModel Occurrences.

Variable SENTENCE_START_TOKEN : string.
Variable self_n : nat.

Local Abbreviation count_corpus :=
  (NGramModel.count_corpus SENTENCE_START_TOKEN self_n).
Local Abbreviation init_ngram_dict :=
  (NGramModel.init_ngram_dict (num:=Q) SENTENCE_START_TOKEN self_n).
Local Abbreviation occurrences :=
  (Occurrences.occurrences SENTENCE_START_TOKEN self_n).
Local Abbreviation context_occurrences :=
  (Occurrences.context_occurrences SENTENCE_START_TOKEN self_n).

Lemma value_le_sum (d : odict nat) (k : string) (v : nat) :
  (k, v) ∈ d -> v <= sum_list (values d).
Proof.
  induction d as [|[k' v'] d IH]; intros Hin.
  - by apply elem_of_nil in Hin.
  - simpl. apply elem_of_cons in Hin as [[= <- <-]|Hin]; [lia|].
    apply IH in Hin. lia.
Qed.

(** Over exact rationals, every probability of a built table is positive
    and at most 1. *)
Theorem probabilities_in_unit_interval (corpus : list (list string))
    (context : list string) (word_probs : odict Q) (word : string) (p : Q) :
  1 <= self_n ->
  init_ngram_dict corpus !! context = Some word_probs ->
  (word, p) ∈ word_probs ->
  (0 < p <= 1)%Q.
Proof.
  intros _ Hc Hin. apply lookup_init_ngram_dict in Hc as (d & Hd & ->).
  apply count_corpus_well_counted in Hd as Hwc.
  pose proof (sum_list_positive d Hwc) as Htotal.
  pose proof (normalize_positive d Hwc) as Hpos.
  split.
  - rewrite Forall_forall in Hpos. by apply (Hpos (word, p)).
  - unfold normalize in Hin.
    apply list_elem_of_In, in_map_iff in Hin as ([k v] & [= <- <-] & Hkv).
    apply list_elem_of_In, value_le_sum in Hkv. simpl.
    apply Qle_shift_div_r.
    + change 0%Q with (inject_Z 0). rewrite <- Zlt_Qlt. lia.
    + rewrite Qmult_1_l. rewrite <- Zle_Qle. lia.
Qed.

End FrequencyFacts.

Section GeneratedNGrams.
Import Py NGramModel Occurrences.

Context {num : Type} `{Number num}.
Variable SENTENCE_START_TOKEN : string.
Variable SENTENCE_END_TOKEN : string.
Variable self_n : nat.
Variable corpus : list (list string).
Hypothesis n_positive : 1 <= self_n.

Local Abbreviation self :=
  (__init__ (num:=num) SENTENCE_START_TOKEN corpus self_n).
Local Abbreviation sampled := (NGramModel.sampled (num:=num) SENTENCE_END_TOKEN).
Local Abbreviation window := (NGramModel.window SENTENCE_START_TOKEN self_n).
Local Abbreviation occurrences :=
  (Occurrences.occurrences SENTENCE_START_TOKEN self_n).
Local Abbreviation pad := (replicate (self_n - 1) SENTENCE_START_TOKEN).

(** The context after the tokens [past]: the last [self.n - 1] tokens of the
    padded sequence. *)
Lemma context_after_length (past : list string) :
  length (drop (length past) (pad ++ past)) = self_n - 1.
Proof. rewrite length_drop, length_app, length_replicate. lia. Qed.

Lemma context_after_snoc (past : list string) (token : string) :
  drop 1 (drop (length past) (pad ++ past) ++ [token])
  = drop (length (past ++ [token])) (pad ++ past ++ [token]).
Proof.
  rewrite length_app. simpl.
  rewrite (app_assoc pad past [token]).
  rewrite <- (drop_app_le (pad ++ past) [token] (length past))
    by (rewrite length_app; lia).
  rewrite drop_drop. done.
Qed.

Lemma window_after (past rest : list string) :
  window (past ++ rest) (length past) = drop (length past) (pad ++ past).
Proof.
  unfold NGramModel.window. rewrite (app_assoc pad past rest).
  rewrite drop_app_le by (rewrite length_app; lia).
  apply take_app_length'. by rewrite context_after_length.
Qed.

Lemma sampled_occur (draws : list num) :
  forall (past : list string) (k : nat) (word : string),
    let tokens := sampled draws self (drop (length past) (pad ++ past)) in
    tokens !! k = Some word ->
    0 < occurrences corpus (window (past ++ tokens) (length past + k)) word.
Proof.
  induction draws as [|p draws IH]; intros past k word tokens Hk; [done|].
  subst tokens. simpl in Hk |- *.
  destruct (generate_token self (drop (length past) (pad ++ past)) p)
    as [self1 [token|e]] eqn:Hg; [|done].
  apply generate_token_returned in Hg as (-> & wp & Hc & Hin).
  destruct (String.eqb token SENTENCE_END_TOKEN); [done|].
  rewrite context_after_snoc in Hk |- *.
  destruct k as [|k].
  - injection Hk as ->. rewrite Nat.add_0_r, window_after.
    by apply (table_key_iff SENTENCE_START_TOKEN self_n corpus _ wp).
  - simpl in Hk. specialize (IH (past ++ [token]) k word Hk).
    rewrite <- app_assoc, length_app in IH. simpl in IH.
    rewrite length_app. simpl.
    by replace (length past + S k) with (length past + 1 + k) by lia.
Qed.

(** Generation only reproduces what training saw: in the sequence of tokens
    a run samples, every token follows its context (the [self.n - 1]
    tokens before it, start markers included) somewhere in the corpus. *)
Theorem generated_ngrams_occur (draws : list num) (k : nat) (word : string) :
  let tokens := sampled draws self pad in
  tokens !! k = Some word ->
  0 < occurrences corpus (window tokens k) word.
Proof.
  intros tokens Hk.
  pose proof (sampled_occur draws [] k word) as Ho.
  simpl in Ho. rewrite app_nil_r in Ho. by apply Ho.
Qed.

End GeneratedNGrams.

Section SamplingFacts.
Import Py NGramModel Occurrences.

Context {num : Type} `{Number num}.
Variable SENTENCE_START_TOKEN : string.

Lemma walk_cons (word_probs : odict num) (k : string) (ks : list string)
    (p s : num) :
  walk word_probs (k :: ks) p s
  = if num_ge (num_add s (default num_zero (odict_get word_probs k))) p
    then Some k
    else walk word_probs ks p
           (num_add s (default num_zero (odict_get word_probs k))).
Proof. reflexivity. Qed.

(** The walk adds the probabilities in the order of the keys: a draw that
    the sum of them all reaches selects some entry, whatever the
    arithmetic. *)
Lemma walk_reach (l2 : odict num) :
  forall (l1 : odict num) (s p : num),
    NoDup (keys (l1 ++ l2)) ->
    l2 ≠ [] ->
    num_ge (fold_left num_add (values l2) s) p = true ->
    exists w, walk (l1 ++ l2) (keys l2) p s = Some w.
Proof.
  induction l2 as [|[k v] l2 IH]; intros l1 s p Hnd Hne Hp; [done|].
  simpl keys. rewrite walk_cons, odict_get_middle by done. simpl default.
  destruct (num_ge (num_add s v) p) eqn:Hle; [by exists k|].
  destruct l2 as [|kv l2].
  - simpl in Hp. congruence.
  - rewrite (cons_middle (k, v)), app_assoc.
    apply IH; [by rewrite <- app_assoc | done | done].
Qed.

(** C4, amended: for every context present in a table built by training
    and every draw that the mass of its distribution reaches, the mass
    summed as the step sums it, the sampling step returns a token of that
    distribution and leaves the model unchanged.  This holds in every
    arithmetic, binary64 included; no entry is a fallback for a draw above
    the summed mass. *)
Theorem sampling_succeeds (self_n : nat) (corpus : list (list string))
    (context : list string) (word_probs : odict num) (probability : num) :
  1 <= self_n ->
  let self := __init__ SENTENCE_START_TOKEN corpus self_n in
  ngram_dict self !! context = Some word_probs ->
  num_ge (total_mass word_probs) probability = true ->
  exists token,
    generate_token self context probability = (self, Returned token)
    /\ token ∈ keys word_probs.
Proof.
  intros _ self Hc Hp.
  rewrite (generate_token_present _ _ _ _ Hc).
  simpl in Hc. apply lookup_init_ngram_dict in Hc as (d & Hd & ->).
  apply count_corpus_well_counted in Hd as (Hne & Hnd & _).
  destruct (walk_reach (normalize d) [] num_zero probability) as [w Hw].
  - simpl. by rewrite keys_normalize.
  - destruct d; [done | by destruct p].
  - exact Hp.
  - simpl app in Hw. rewrite Hw.
    exists w. split; [done|]. exact (walk_in_keys _ _ _ _ _ Hw).
Qed.

(** The walk returns a word exactly when the running sum first reaches the
    draw at that word. *)
Lemma walk_first (word : string) (v : num) (after : odict num)
    (before : odict num) :
  forall (pre : odict num) (s p : num),
    NoDup (keys (pre ++ before ++ (word, v) :: after)) ->
    walk (pre ++ before ++ (word, v) :: after)
      (keys (before ++ (word, v) :: after)) p s = Some word
    <-> (num_ge (fold_left num_add (values (before ++ [(word, v)])) s) p = true
         /\ forall k, k < length before ->
              num_ge (fold_left num_add (values (take (S k) before)) s) p
              = false).
Proof.
  induction before as [|[k u] before IH]; intros pre s p Hnd.
  - simpl app. simpl keys. simpl fold_left.
    rewrite walk_cons, odict_get_middle by done. simpl default.
    destruct (num_ge (num_add s v) p) eqn:Hle.
    + split; [|done]. intros _. split; [done|]. simpl. lia.
    + split; [|intros [? _]; done].
      intros Hw. apply walk_in_keys in Hw.
      unfold keys in Hnd. rewrite map_app in Hnd. simpl in Hnd.
      apply NoDup_app in Hnd as (_ & _ & Hnd).
      apply NoDup_cons in Hnd as [Hnd _]. done.
  - simpl app. simpl keys.
    rewrite walk_cons, odict_get_middle by done. simpl default.
    assert (k <> word) as Hkw.
    { intros ->. unfold keys in Hnd. rewrite !map_app in Hnd.
      simpl in Hnd. apply NoDup_app in Hnd as (_ & _ & Hnd).
      apply NoDup_cons in Hnd as [Hnd _]. apply Hnd.
      apply elem_of_app. right. apply list_elem_of_here. }
    specialize (IH (pre ++ [(k, u)]) (num_add s u) p).
    rewrite <- app_assoc in IH. specialize (IH Hnd).
    simpl app in IH.
    destruct (num_ge (num_add s u) p) eqn:Hle.
    + split; [intros [= ?]; done|].
      intros [_ Hall]. specialize (Hall 0 ltac:(simpl; lia)).
      simpl in Hall. congruence.
    + rewrite IH. simpl fold_left. split; intros [Hreach Hall].
      * split; [done|]. intros [|j] Hj; [exact Hle|].
        simpl in Hj. apply (Hall j). lia.
      * split; [done|]. intros j Hj. apply (Hall (S j)). simpl. lia.
Qed.

(** The sampling step returns the first word of the distribution at which
    the running sum of the probabilities, added in the order of the
    entries and in the arithmetic of the code, reaches the draw. *)
Theorem sampling_first_reach (self_n : nat) (corpus : list (list string))
    (context : list string) (before after : odict num) (word : string)
    (v probability : num) :
  1 <= self_n ->
  let self := __init__ SENTENCE_START_TOKEN corpus self_n in
  ngram_dict self !! context = Some (before ++ (word, v) :: after) ->
  generate_token self context probability = (self, Returned word)
  <-> (num_ge (total_mass (before ++ [(word, v)])) probability = true
       /\ forall k, k < length before ->
            num_ge (total_mass (take (S k) before)) probability = false).
Proof.
  intros _ self Hc.
  rewrite (generate_token_present _ _ _ _ Hc).
  simpl in Hc. apply lookup_init_ngram_dict in Hc as (d & Hd & Heq).
  apply count_corpus_well_counted in Hd as (_ & Hnd & _).
  rewrite <- (keys_normalize (num:=num)), <- Heq in Hnd.
  pose proof (walk_first word v after before [] num_zero probability Hnd) as Hw.
  simpl app in Hw. unfold total_mass. rewrite <- Hw.
  destruct (walk _ _ probability num_zero) as [w|]; split; intros Heq';
    congruence.
Qed.

End SamplingFacts.

Lemma probability_is_relative_frequency_witness :
  odict_get (NGramModel.normalize (num:=float) [("sat", 1); ("ran", 1)]) "sat"
  = if Nat.eqb (Occurrences.occurrences sample_start 2 cat_corpus ["cat"] "sat") 0
    then None
    else Some (true_div
                 (Occurrences.occurrences sample_start 2 cat_corpus ["cat"] "sat")
                 (Occurrences.context_occurrences sample_start 2 cat_corpus
                    ["cat"])).
Proof.
  apply (probability_is_relative_frequency (num:=float) sample_start 2
           cat_corpus ["cat"]).
  - lia.
  - vm_compute. reflexivity.
Defined.

Lemma sampling_succeeds_witness :
  exists token,
    NGramModel.generate_token rounding_model [] 0.5%float
    = (rounding_model, Returned token)
    /\ token ∈ keys (NGramModel.normalize (num:=float)
                       [("a", 1); ("b", 4); ("c", 1); ("d", 1)]).
Proof.
  apply (sampling_succeeds (num:=float) sample_start 1
           (Corpus.iter sample_end_chars sample_end ["a b b b b c d"]) []).
  - lia.
  - vm_compute. reflexivity.
  - vm_compute. reflexivity.
Defined.

Lemma sampling_first_reach_witness :
  NGramModel.generate_token cat_model ["cat"] (3 # 4)%Q
  = (cat_model, Returned "ran")
  <-> (num_ge (NGramModel.total_mass ([("sat", (1 # 2)%Q)] ++ [("ran", (1 # 2)%Q)]))
         (3 # 4)%Q = true
       /\ forall k, k < length [("sat", (1 # 2)%Q)] ->
            num_ge (NGramModel.total_mass (take (S k) [("sat", (1 # 2)%Q)]))
              (3 # 4)%Q = false).
Proof.
  apply (sampling_first_reach (num:=Q) sample_start 2 cat_corpus ["cat"]
           [("sat", (1 # 2)%Q)] [] "ran" (1 # 2)%Q (3 # 4)%Q).
  - lia.
  - vm_compute. reflexivity.
Defined.

Lemma table_holds_what_occurs_witness :
  (is_Some (NGramModel.init_ngram_dict (num:=Q) sample_start 2 cat_corpus
              !! ["cat"])
   <-> 0 < Occurrences.context_occurrences sample_start 2 cat_corpus ["cat"])
  /\ forall (word_probs : odict Q) (word : string),
       NGramModel.init_ngram_dict (num:=Q) sample_start 2 cat_corpus !! ["cat"]
       = Some word_probs ->
       (word ∈ keys word_probs
        <-> 0 < Occurrences.occurrences sample_start 2 cat_corpus ["cat"] word).
Proof.
  apply (table_holds_what_occurs (num:=Q) sample_start 2 cat_corpus ["cat"]).
  lia.
Defined.

Lemma probabilities_in_unit_interval_witness : (0 < 1 # 2 <= 1)%Q.
Proof.
  apply (probabilities_in_unit_interval sample_start 2 cat_corpus ["cat"]
           [("sat", 1 # 2); ("ran", 1 # 2)]%Q "sat" (1 # 2)%Q).
  - lia.
  - vm_compute. reflexivity.
  - apply list_elem_of_here.
Defined.

Lemma generated_ngrams_occur_witness :
  let tokens :=
    NGramModel.sampled sample_end [0; 0; 1; 0; 0]%Q
      (NGramModel.__init__ (num:=Q) sample_start cat_corpus 2)
      (replicate (2 - 1) sample_start) in
  0 < Occurrences.occurrences sample_start 2 cat_corpus
        (NGramModel.window sample_start 2 tokens 2) "ran".
Proof.
  apply (generated_ngrams_occur (num:=Q) sample_start sample_end 2 cat_corpus
           ltac:(lia) [0; 0; 1; 0; 0]%Q 2 "ran").
  vm_compute. reflexivity.
Defined.

(** * Properties of [str.replace] *)

Section ReplaceFacts.
Import Py PyText.

Lemma startswith_app (p rest : string) : startswith (p +:+ rest) p = true.
Proof.
  induction p as [|a p IH]; [reflexivity|]. rewrite append_cons. simpl.
  by rewrite Ascii.eqb_refl, IH.
Qed.

Lemma startswith_split (s p : string) :
  startswith s p = true -> exists rest, s = p +:+ rest.
Proof.
  revert s. induction p as [|a p IH]; intros s Hs.
  - by exists s.
  - destruct s as [|b s]; [done|]. simpl in Hs.
    apply andb_true_iff in Hs as [Hb Hs]. apply Ascii.eqb_eq in Hb as ->.
    destruct (IH s Hs) as [rest ->]. exists rest. by rewrite append_cons.
Qed.

Lemma replace_from_skip (old new t rest : string) :
  replace_from old new (String.length t) (t +:+ rest)
  = replace_from old new 0 rest.
Proof.
  induction t as [|a t IH]; [reflexivity|].
  rewrite append_cons. simpl. exact IH.
Qed.

Lemma replace_nil (old new : string) : replace "" old new = "".
Proof. reflexivity. Qed.

Lemma replace_match (old new rest : string) :
  old <> "" -> replace (old +:+ rest) old new = new +:+ replace rest old new.
Proof.
  intros Hold. destruct old as [|a old]; [done|]. unfold replace.
  rewrite append_cons. simpl replace_from.
  rewrite Ascii.eqb_refl, startswith_app, Nat.sub_0_r. simpl.
  by rewrite replace_from_skip.
Qed.

Lemma replace_miss (old new : string) (c : ascii) (s : string) :
  startswith (String c s) old = false ->
  replace (String c s) old new = String c (replace s old new).
Proof. intros Hs. unfold replace. simpl replace_from. by rewrite Hs. Qed.

(** The induction that follows [replace]: a property of a text and its
    replacement holds when it holds for the empty text and is kept by a
    replaced occurrence and by a copied character. *)
Lemma replace_ind (old new : string) (P : string -> string -> Prop) :
  old <> "" ->
  P "" "" ->
  (forall rest r, P rest r -> P (old +:+ rest) (new +:+ r)) ->
  (forall c s r,
     startswith (String c s) old = false -> P s r -> P (String c s) (String c r)) ->
  forall s, P s (replace s old new).
Proof.
  intros Hold Hnil Hmatch Hmiss s.
  remember (String.length s) as k eqn:Hk. revert s Hk.
  induction k as [k IH] using lt_wf_ind. intros s Hk.
  destruct s as [|c s]; [done|].
  destruct (startswith (String c s) old) eqn:Hs.
  - apply startswith_split in Hs as [rest Hrest]. rewrite Hrest.
    rewrite replace_match by done. apply Hmatch.
    apply (IH (String.length rest)); [|done].
    rewrite Hk, Hrest, length_append. destruct old; [done | simpl; lia].
  - rewrite replace_miss by done. apply Hmiss; [done|].
    apply (IH (String.length s)); [|done]. rewrite Hk. simpl. lia.
Qed.

Lemma contains_app (c : ascii) (s t : string) :
  contains c (s +:+ t) = contains c s || contains c t.
Proof.
  induction s as [|a s IH]; [done|]. rewrite append_cons. simpl.
  by rewrite IH, orb_assoc.
Qed.

Lemma replace_keeps_absent (old new : string) (c : ascii) (s : string) :
  old <> "" ->
  contains c new = false ->
  contains c s = false ->
  contains c (replace s old new) = false.
Proof.
  intros Hold Hnew. apply (replace_ind old new
    (fun s r => contains c s = false -> contains c r = false)); [done | done | |].
  - intros rest r IH. rewrite !contains_app, Hnew.
    intros [_ ?]%orb_false_iff. by apply IH.
  - intros a t r _ IH. simpl. intros [-> ?]%orb_false_iff. by apply IH.
Qed.

Lemma replace_removes_char (new : string) (c : ascii) (s : string) :
  contains c new = false ->
  contains c (replace s (String c "") new) = false.
Proof.
  intros Hnew. apply (replace_ind (String c "") new
    (fun s r => contains c r = false)); [done | done | |].
  - intros rest r IH. by rewrite contains_app, Hnew.
  - intros a t r Ha IH. simpl in *. rewrite IH, orb_false_r.
    by rewrite andb_true_r in Ha.
Qed.

Lemma count_char_app (c : ascii) (s t : string) :
  count_char c (s +:+ t) = count_char c s + count_char c t.
Proof.
  induction s as [|a s IH]; [done|]. rewrite append_cons. simpl.
  rewrite IH. lia.
Qed.

Lemma count_char_absent (c : ascii) (s : string) :
  contains c s = false -> count_char c s = 0.
Proof.
  induction s as [|a s IH]; [done|]. simpl.
  intros [-> Hs]%orb_false_iff. by rewrite IH.
Qed.

(** [replace] keeps the number of occurrences of a character that is
    neither in [old] nor in [new]. *)
Lemma replace_count_char (old new : string) (c : ascii) (s : string) :
  old <> "" ->
  contains c old = false ->
  contains c new = false ->
  count_char c (replace s old new) = count_char c s.
Proof.
  intros Hold Ho Hn. apply (replace_ind old new
    (fun s r => count_char c r = count_char c s)); [done | done | |].
  - intros rest r IH. rewrite !count_char_app, IH.
    by rewrite (count_char_absent _ _ Ho), (count_char_absent _ _ Hn).
  - intros a t r _ IH. simpl. by rewrite IH.
Qed.

Lemma contains_lstrip (c : ascii) (s : string) :
  contains c s = false -> contains c (lstrip s) = false.
Proof.
  induction s as [|a s IH]; [done|]. simpl lstrip.
  destruct (isspace a); [|done]. simpl. intros [_ ?]%orb_false_iff. by apply IH.
Qed.

Lemma rstrip_cons (a : ascii) (s : string) :
  rstrip (String a s)
  = match rstrip s with
    | EmptyString => if isspace a then EmptyString else String a EmptyString
    | r => String a r
    end.
Proof. reflexivity. Qed.

Lemma contains_rstrip (c : ascii) (s : string) :
  contains c s = false -> contains c (rstrip s) = false.
Proof.
  induction s as [|a s IH]; [done|]. rewrite rstrip_cons. simpl contains.
  intros [Ha Hs]%orb_false_iff. specialize (IH Hs).
  destruct (rstrip s) as [|b r].
  - destruct (isspace a); [done|]. simpl. by rewrite Ha.
  - simpl in *. by rewrite Ha, IH.
Qed.

Lemma rstrip_snoc_space (s : string) (c : ascii) :
  isspace c = true -> rstrip (s +:+ String c "") = rstrip s.
Proof.
  intros Hc. induction s as [|a s IH].
  - change ("" +:+ String c "") with (String c ""). rewrite rstrip_cons.
    simpl. by rewrite Hc.
  - by rewrite append_cons, !rstrip_cons, IH.
Qed.

Lemma startswith_app_char (old : string) :
  forall (a : string) (c : ascii) (b : string),
    contains c old = false ->
    startswith (a +:+ String c b) old = startswith a old.
Proof.
  induction old as [|o old IH]; intros a c b Hc; [reflexivity|].
  simpl in Hc. apply orb_false_iff in Hc as [Ho Hc].
  destruct a as [|x a].
  - change ("" +:+ String c b) with (String c b). simpl.
    by rewrite Ascii.eqb_sym, Ho.
  - rewrite append_cons. simpl. by rewrite IH.
Qed.

(** A character that does not occur in [old] cuts the text in two parts
    that are replaced apart. *)
Lemma replace_app_char (old new : string) (c : ascii) (a b : string) :
  old <> "" ->
  contains c old = false ->
  replace (a +:+ String c b) old new
  = replace a old new +:+ String c (replace b old new).
Proof.
  intros Hold Hc. apply (replace_ind old new
    (fun a r => replace (a +:+ String c b) old new
                = r +:+ String c (replace b old new))); [done | | |].
  - change ("" +:+ String c b) with (String c b).
    rewrite replace_miss; [reflexivity|].
    change (String c b) with ("" +:+ String c b).
    rewrite startswith_app_char by done. by destruct old.
  - intros rest r IH. by rewrite !append_assoc, replace_match, IH.
  - intros x t r Hx IH. rewrite append_cons, replace_miss; [by rewrite IH|].
    rewrite <- append_cons. by rewrite startswith_app_char.
Qed.

(** A text without the first character of [old] is left as it is. *)
Lemma replace_id (o : ascii) (old new s : string) :
  contains o s = false -> replace s (String o old) new = s.
Proof.
  apply (replace_ind (String o old) new
    (fun s r => contains o s = false -> r = s)); [done | done | |].
  - intros rest r _. rewrite append_cons. simpl. by rewrite Ascii.eqb_refl.
  - intros a t r _ IH. simpl. intros [_ Ht]%orb_false_iff. by rewrite IH.
Qed.

Lemma contains_spaces (o : ascii) (ws : string) :
  isspace o = false ->
  Forall (fun c => isspace c = true) (list_ascii_of_string ws) ->
  contains o ws = false.
Proof.
  intros Ho. induction ws as [|a ws IH]; [done|]. simpl.
  intros [Ha Hws]%Forall_cons. rewrite IH by done.
  destruct (Ascii.eqb_spec a o) as [->|_]; [congruence | done].
Qed.

Lemma count_char_contains (c : ascii) (s : string) :
  count_char c s = 0 -> contains c s = false.
Proof.
  induction s as [|a s IH]; [done|]. simpl.
  destruct (Ascii.eqb a c); [done|]. simpl. exact IH.
Qed.

Lemma rstrip_spaces (ws : string) :
  Forall (fun c => isspace c = true) (list_ascii_of_string ws) -> rstrip ws = "".
Proof.
  induction ws as [|a ws IH]; [done|]. simpl list_ascii_of_string.
  intros [Ha Hws]%Forall_cons. by rewrite rstrip_cons, IH, Ha.
Qed.

Lemma rstrip_app_char (x : string) (c : ascii) (ws : string) :
  isspace c = false ->
  Forall (fun c => isspace c = true) (list_ascii_of_string ws) ->
  rstrip (x +:+ String c ws) = x +:+ String c "".
Proof.
  intros Hc Hws. induction x as [|a x IH].
  - change ("" +:+ String c ws) with (String c ws).
    by rewrite rstrip_cons, rstrip_spaces, Hc.
  - rewrite !append_cons, rstrip_cons, IH. by destruct x.
Qed.

Lemma last_char_lstrip (s : string) (c : ascii) :
  isspace c = false -> last_char s = Some c -> last_char (lstrip s) = Some c.
Proof.
  intros Hc. induction s as [|a s IH]; [done|]. simpl lstrip.
  destruct (isspace a) eqn:Ha; [|done].
  destruct s as [|b s]; [intros [= ->]; congruence|].
  intros Hl. by apply IH.
Qed.

(** [strip] of a text that ends with a character that is no whitespace,
    followed by whitespace only, ends with that character. *)
Lemma last_char_strip (x : string) (c : ascii) (ws : string) :
  isspace c = false ->
  Forall (fun c => isspace c = true) (list_ascii_of_string ws) ->
  last_char (strip (x +:+ String c ws)) = Some c.
Proof.
  intros Hc Hws. unfold strip. rewrite rstrip_app_char by done.
  apply last_char_lstrip; [done | apply last_char_snoc].
Qed.

Lemma rstrip_split (s : string) :
  exists ws, s = rstrip s +:+ ws
             /\ Forall (fun c => isspace c = true) (list_ascii_of_string ws).
Proof.
  induction s as [|a s (ws & Hs & Hws)].
  - by exists "".
  - rewrite rstrip_cons. destruct (rstrip s) as [|b r] eqn:Hr.
    + change ("" +:+ ws) with ws in Hs. subst ws.
      destruct (isspace a) eqn:Ha.
      * exists (String a s). split; [done | by constructor].
      * by exists s.
    + exists ws. split; [|done]. by rewrite append_cons, <- Hs.
Qed.

Lemma rstrip_last (s : string) (c : ascii) :
  last_char (rstrip s) = Some c -> isspace c = false.
Proof.
  induction s as [|a s IH]; [done|]. rewrite rstrip_cons.
  destruct (rstrip s) as [|b r].
  - destruct (isspace a) eqn:Ha; [done|]. by intros [= <-].
  - intros Hl. by apply IH.
Qed.

Lemma lstrip_split (s : string) : exists ws, s = ws +:+ lstrip s.
Proof.
  induction s as [|a s (ws & Hs)]; [by exists ""|]. simpl lstrip.
  destruct (isspace a); [|by exists ""].
  exists (String a ws). by rewrite append_cons, <- Hs.
Qed.

(** A text whose [strip] ends with [c]: [c] is no whitespace and only
    whitespace follows it in the text. *)
Lemma strip_last_split (s : string) (c : ascii) :
  last_char (strip s) = Some c ->
  exists x ws,
    s = x +:+ String c ws
    /\ isspace c = false
    /\ Forall (fun c => isspace c = true) (list_ascii_of_string ws).
Proof.
  unfold strip. intros Hl.
  destruct (rstrip_split s) as (ws & Hs & Hws).
  destruct (lstrip_split (rstrip s)) as (ws0 & Hr).
  pose proof (snoc_last_char _ _ Hl) as Hy.
  exists (ws0 +:+ drop_last (lstrip (rstrip s))), ws.
  split; [|split; [|done]].
  - rewrite Hs at 1. rewrite Hr at 1. rewrite Hy at 1.
    by rewrite !append_assoc.
  - apply (rstrip_last s). rewrite Hr, Hy.
    rewrite <- append_assoc. apply last_char_snoc.
Qed.

Lemma last_char_contains (s : string) (c : ascii) :
  last_char s = Some c -> contains c s = true.
Proof.
  intros Hl. rewrite (snoc_last_char _ _ Hl), contains_app. simpl.
  by rewrite Ascii.eqb_refl, orb_true_r.
Qed.

Lemma closed_lines_app (a : string) :
  forall (line b : string),
    closed_lines line (a +:+ b)
    = closed_lines line a ++ closed_lines (open_line line a) b.
Proof.
  induction a as [|c a IH]; intros line b; [reflexivity|].
  rewrite append_cons. simpl. destruct (Ascii.eqb c newline); by rewrite IH.
Qed.

Lemma open_line_app (a : string) :
  forall (line b : string),
    open_line line (a +:+ b) = open_line (open_line line a) b.
Proof.
  induction a as [|c a IH]; intros line b; [reflexivity|].
  rewrite append_cons. simpl. destruct (Ascii.eqb c newline); by rewrite IH.
Qed.

Lemma lines_without_newline (p : string) :
  forall line : string,
    contains newline p = false ->
    closed_lines line p = [] /\ open_line line p = line +:+ p.
Proof.
  induction p as [|c p IH]; intros line Hp.
  - by rewrite append_empty_r.
  - simpl in Hp. apply orb_false_iff in Hp as [Hc Hp]. simpl. rewrite Hc.
    destruct (IH (line +:+ String c "") Hp) as [-> ->].
    by rewrite append_assoc.
Qed.

Lemma readlines_from_split (text : string) :
  forall line : string,
    readlines_from line text
    = closed_lines line text
        ++ (if String.eqb (open_line line text) "" then []
            else [open_line line text]).
Proof.
  induction text as [|c text IH]; intros line; simpl.
  - reflexivity.
  - destruct (Ascii.eqb c newline); by rewrite IH.
Qed.

Lemma open_line_no_newline (text : string) :
  forall line : string,
    contains newline line = false ->
    contains newline (open_line line text) = false.
Proof.
  induction text as [|c text IH]; intros line Hline; [done|]. simpl.
  destruct (Ascii.eqb c newline) eqn:Hc; apply IH; [done|].
  rewrite contains_app, Hline. simpl. by rewrite Hc.
Qed.

End ReplaceFacts.

(** * Properties of [preprocess_book] *)

Section PreprocessFacts.
Import Py PyText Corpus Preprocess.

Variable SENTENCE_END_CHARS : list ascii.

Local Abbreviation keep_line := (Preprocess.keep_line SENTENCE_END_CHARS).
Local Abbreviation preprocess_line := (Preprocess.preprocess_line SENTENCE_END_CHARS).
Local Abbreviation preprocess_book := (Preprocess.preprocess_book SENTENCE_END_CHARS).
Local Abbreviation write_body := (Preprocess.write_body SENTENCE_END_CHARS).

Lemma clean_no_underscore (line : string) : contains "_" (clean line) = false.
Proof.
  unfold clean. apply replace_keeps_absent; [done | done |].
  by apply replace_removes_char.
Qed.

Lemma keep_line_clean (line text : string) (counted : bool) :
  keep_line line = Some (text, counted) -> exists l, text = clean l.
Proof.
  unfold Preprocess.keep_line.
  destruct (String.eqb (strip line) ""); [done|].
  destruct (startswith (strip line) "_"); [done|].
  destruct (String.eqb (strip line) "CONTENTS"); [done|].
  destruct (is_caption (lower (strip line))); [done|].
  destruct (last_char (strip line)) as [c|]; [|done].
  destruct (in_sentence_end SENTENCE_END_CHARS c); intros [= <- _]; eauto.
Qed.

Lemma preprocess_line_no_underscore (book : Book) (line : string) :
  contains "_" (file_out book) = false ->
  contains "_" (file_out (preprocess_line book line)) = false.
Proof.
  intros Hout. unfold Preprocess.preprocess_line.
  destruct (negb (reached_book_start book) && startswith line BOOK_START);
    [done|].
  cbn [reached_book_start reached_book_end file_out number_of_lines_in_corpus].
  destruct (reached_book_start book && negb _); [|done].
  destruct (keep_line line) as [[text counted]|] eqn:Hk; [|done].
  apply keep_line_clean in Hk as [l ->]. simpl.
  by rewrite contains_app, Hout, clean_no_underscore.
Qed.

(** The processed text holds no underscore, whatever the input file is. *)
Theorem preprocess_book_no_underscore (lines_in_corpus : nat)
    (file_in : list string) :
  contains "_" (preprocess_book lines_in_corpus file_in).2 = false.
Proof.
  unfold Preprocess.preprocess_book. simpl.
  assert (forall book,
            contains "_" (file_out book) = false ->
            contains "_" (file_out (fold_left preprocess_line file_in book))
            = false) as Hgen.
  { induction file_in as [|line file_in' IH]; intros book Hb; [done|].
    simpl. by apply IH, preprocess_line_no_underscore. }
  by apply Hgen.
Qed.

Local Abbreviation book s e k out :=
  {| reached_book_start := s; reached_book_end := e;
     number_of_lines_in_corpus := k; file_out := out |}.

Lemma line_before_start (line : string) (k : nat) (out : string) :
  startswith line BOOK_START = false ->
  startswith line BOOK_END = false ->
  preprocess_line (book false false k out) line = book false false k out.
Proof.
  intros Hs He. unfold Preprocess.preprocess_line;
  cbn [reached_book_start reached_book_end number_of_lines_in_corpus
       file_out negb andb].
  by rewrite Hs, He.
Qed.

Lemma line_start (line : string) (k : nat) (out : string) :
  startswith line BOOK_START = true ->
  preprocess_line (book false false k out) line = book true false k out.
Proof.
  intros Hs. unfold Preprocess.preprocess_line;
  cbn [reached_book_start reached_book_end number_of_lines_in_corpus
       file_out negb andb].
  by rewrite Hs.
Qed.

Lemma line_inside (line : string) (k : nat) (out : string) :
  startswith line BOOK_END = false ->
  preprocess_line (book true false k out) line
  = match keep_line line with
    | Some (text, counted) =>
        book true false (k + (if counted then 1 else 0)) (out +:+ text)
    | None => book true false k out
    end.
Proof.
  intros He. unfold Preprocess.preprocess_line;
  cbn [reached_book_start reached_book_end number_of_lines_in_corpus
       file_out negb andb].
  by rewrite He.
Qed.

Lemma line_end (line : string) (k : nat) (out : string) :
  startswith line BOOK_END = true ->
  preprocess_line (book true false k out) line = book true true k out.
Proof.
  intros He. unfold Preprocess.preprocess_line;
  cbn [reached_book_start reached_book_end number_of_lines_in_corpus
       file_out negb andb].
  by rewrite He.
Qed.

Lemma line_after_end (line : string) (k : nat) (out : string) :
  preprocess_line (book true true k out) line = book true true k out.
Proof.
  unfold Preprocess.preprocess_line;
  cbn [reached_book_start reached_book_end number_of_lines_in_corpus
       file_out negb andb].
  reflexivity.
Qed.

Lemma preprocess_header (header : list string) (k : nat) :
  Forall (fun line => startswith line BOOK_START = false
                      /\ startswith line BOOK_END = false) header ->
  fold_left preprocess_line header (book false false k "")
  = book false false k "".
Proof.
  induction header as [|line header IH]; intros Hall; [reflexivity|].
  apply Forall_cons in Hall as [[Hs He] Hall]. cbn [fold_left].
  rewrite (line_before_start _ _ _ Hs He). exact (IH Hall).
Qed.

Lemma preprocess_body (body : list string) :
  forall (k : nat) (out : string),
    Forall (fun line => startswith line BOOK_END = false) body ->
    fold_left preprocess_line body (book true false k out)
    = book true false (write_body body (k, out)).1 (write_body body (k, out)).2.
Proof.
  induction body as [|line body IH]; intros k out Hall; [reflexivity|].
  apply Forall_cons in Hall as [He Hall]. cbn [fold_left].
  rewrite (line_inside _ _ _ He). unfold Preprocess.write_body. cbn [fold_left].
  destruct (keep_line line) as [[text counted]|]; exact (IH _ _ Hall).
Qed.

Lemma preprocess_tail (tail : list string) (k : nat) (out : string) :
  fold_left preprocess_line tail (book true true k out) = book true true k out.
Proof.
  induction tail as [|line tail IH]; [reflexivity|]. cbn [fold_left].
  rewrite line_after_end. exact IH.
Qed.

(** A file with a header, the two marker lines and a tail: its result is
    what the lines between the markers add. *)
Lemma preprocess_book_between (lines_in_corpus : nat)
    (header : list string) (start_line : string) (body : list string)
    (end_line : string) (tail : list string) :
  Forall (fun line => startswith line BOOK_START = false
                      /\ startswith line BOOK_END = false) header ->
  startswith start_line BOOK_START = true ->
  Forall (fun line => startswith line BOOK_END = false) body ->
  startswith end_line BOOK_END = true ->
  preprocess_book lines_in_corpus
    (header ++ start_line :: body ++ end_line :: tail)
  = write_body body (lines_in_corpus, "").
Proof.
  intros Hheader Hstart Hbody Hend. unfold Preprocess.preprocess_book.
  rewrite fold_left_app, (preprocess_header _ _ Hheader). cbn [fold_left].
  rewrite (line_start _ _ _ Hstart).
  rewrite fold_left_app, (preprocess_body _ _ _ Hbody). cbn [fold_left].
  rewrite (line_end _ _ _ Hend), preprocess_tail.
  cbn [number_of_lines_in_corpus file_out].
  destruct (write_body _ _); reflexivity.
Qed.

(** A file that is the bare start marker and lines that follow it. *)
Lemma preprocess_book_open (lines_in_corpus : nat) (body : list string) :
  Forall (fun line => startswith line BOOK_END = false) body ->
  preprocess_book lines_in_corpus (BOOK_START :: body)
  = write_body body (lines_in_corpus, "").
Proof.
  intros Hbody. unfold Preprocess.preprocess_book. cbn [fold_left].
  rewrite (line_start BOOK_START _ _ eq_refl).
  rewrite (preprocess_body _ _ _ Hbody).
  cbn [number_of_lines_in_corpus file_out].
  destruct (write_body _ _); reflexivity.
Qed.

(** Only what stands between the two markers is processed.  The lines
    before the first start marker, what a marker line holds after its
    marker, the end marker line and all that follows it change neither the
    text nor the counter: the result is that of the file made of the bare
    start marker and the lines between the two markers. *)
Theorem preprocess_book_frame (lines_in_corpus : nat)
    (header : list string) (start_line : string) (body : list string)
    (end_line : string) (tail : list string) :
  Forall (fun line => startswith line BOOK_START = false
                      /\ startswith line BOOK_END = false) header ->
  startswith start_line BOOK_START = true ->
  Forall (fun line => startswith line BOOK_END = false) body ->
  startswith end_line BOOK_END = true ->
  preprocess_book lines_in_corpus
    (header ++ start_line :: body ++ end_line :: tail)
  = preprocess_book lines_in_corpus (BOOK_START :: body).
Proof.
  intros Hheader Hstart Hbody Hend.
  rewrite (preprocess_book_between _ _ _ _ _ _ Hheader Hstart Hbody Hend).
  symmetry. exact (preprocess_book_open _ _ Hbody).
Qed.

(** A line that starts with the end marker does not start with the start
    marker. *)
Lemma end_not_start (line : string) :
  startswith line BOOK_END = true -> startswith line BOOK_START = false.
Proof.
  intros He. apply startswith_split in He as [rest ->]. reflexivity.
Qed.

Lemma line_no_start (line : string) (e : bool) (k : nat) (out : string) :
  startswith line BOOK_START = false ->
  exists e', preprocess_line (book false e k out) line = book false e' k out.
Proof.
  intros Hs. unfold Preprocess.preprocess_line;
  cbn [reached_book_start reached_book_end number_of_lines_in_corpus
       file_out negb andb].
  rewrite Hs. eexists. reflexivity.
Qed.

Lemma line_end_first (line : string) (e : bool) (k : nat) (out : string) :
  startswith line BOOK_END = true ->
  preprocess_line (book false e k out) line = book false true k out.
Proof.
  intros He. unfold Preprocess.preprocess_line;
  cbn [reached_book_start reached_book_end number_of_lines_in_corpus
       file_out negb andb].
  rewrite (end_not_start _ He), He. by destruct e.
Qed.

Lemma line_ended (line : string) (s : bool) (k : nat) (out : string) :
  exists s', preprocess_line (book s true k out) line = book s' true k out.
Proof.
  unfold Preprocess.preprocess_line;
  cbn [reached_book_start reached_book_end number_of_lines_in_corpus
       file_out negb andb].
  destruct (negb s && startswith line BOOK_START); [by eexists|].
  rewrite andb_false_r. by eexists.
Qed.

Lemma preprocess_no_start (header : list string) (k : nat) (out : string) :
  Forall (fun line => startswith line BOOK_START = false) header ->
  forall e, exists e',
    fold_left preprocess_line header (book false e k out) = book false e' k out.
Proof.
  induction 1 as [|line header Hs _ IH]; intros e; [by eexists|].
  cbn [fold_left]. destruct (line_no_start line e k out Hs) as [e' ->].
  apply IH.
Qed.

Lemma preprocess_ended (rest : list string) (k : nat) (out : string) :
  forall s, exists s',
    fold_left preprocess_line rest (book s true k out) = book s' true k out.
Proof.
  induction rest as [|line rest IH]; intros s; [by eexists|].
  cbn [fold_left]. destruct (line_ended line s k out) as [s' ->]. apply IH.
Qed.

(** Without a start marker nothing is written and nothing is counted; and
    the end marker is looked for from the first line on, so that an end
    marker line met before any start marker line switches the processing
    off for the whole file, a later start marker included. *)
Theorem preprocess_book_needs_start (lines_in_corpus : nat)
    (header : list string) (end_line : string) (rest : list string) :
  Forall (fun line => startswith line BOOK_START = false) header ->
  preprocess_book lines_in_corpus header = (lines_in_corpus, "")
  /\ (startswith end_line BOOK_END = true ->
      preprocess_book lines_in_corpus (header ++ end_line :: rest)
      = (lines_in_corpus, "")).
Proof.
  intros Hheader. unfold Preprocess.preprocess_book. split.
  - destruct (preprocess_no_start header lines_in_corpus "" Hheader false)
      as [e ->].
    reflexivity.
  - intros Hend. rewrite fold_left_app.
    destruct (preprocess_no_start header lines_in_corpus "" Hheader false)
      as [e ->].
    cbn [fold_left]. rewrite (line_end_first _ _ _ _ Hend).
    destruct (preprocess_ended rest lines_in_corpus "" false) as [s ->].
    reflexivity.
Qed.

Lemma clean_count_newline (line : string) :
  count_char newline (clean line) = count_char newline line.
Proof.
  unfold clean.
  rewrite !replace_count_char; [reflexivity | done..].
Qed.

Lemma file_line_intro (line : string) :
  last_char line = Some newline ->
  contains newline (drop_last line) = false ->
  file_line line.
Proof.
  intros Hl Hc. exists (drop_last line).
  split; [by apply snoc_last_char | exact Hc].
Qed.

Lemma strip_file_line (line : string) :
  file_line line -> contains newline (strip line) = false.
Proof.
  intros (body & -> & Hbody). unfold strip.
  rewrite rstrip_snoc_space by reflexivity.
  by apply contains_lstrip, contains_rstrip.
Qed.

Lemma keep_line_newlines (line text : string) (counted : bool) :
  file_line line ->
  keep_line line = Some (text, counted) ->
  count_char newline text = if counted then 1 else 0.
Proof.
  intros Hline. pose proof (strip_file_line line Hline) as Hstrip.
  unfold Preprocess.keep_line.
  destruct (String.eqb (strip line) ""); [done|].
  destruct (startswith (strip line) "_"); [done|].
  destruct (String.eqb (strip line) "CONTENTS"); [done|].
  destruct (is_caption (lower (strip line))); [done|].
  destruct (last_char (strip line)) as [c|]; [|done].
  destruct (in_sentence_end SENTENCE_END_CHARS c); intros [= <- <-].
  - rewrite clean_count_newline. destruct Hline as (body & -> & Hbody).
    rewrite count_char_app, (count_char_absent _ _ Hbody). reflexivity.
  - rewrite clean_count_newline, count_char_app.
    rewrite (count_char_absent _ _ Hstrip). reflexivity.
Qed.

Lemma preprocess_line_newlines (k0 : nat) (b : Book) (line : string) :
  file_line line ->
  number_of_lines_in_corpus b = k0 + count_char newline (file_out b) ->
  number_of_lines_in_corpus (preprocess_line b line)
  = k0 + count_char newline (file_out (preprocess_line b line)).
Proof.
  intros Hline Hb. unfold Preprocess.preprocess_line.
  destruct (negb (reached_book_start b) && startswith line BOOK_START);
    [exact Hb|].
  cbn [reached_book_start reached_book_end file_out number_of_lines_in_corpus].
  destruct (reached_book_start b && negb _); [|exact Hb].
  destruct (keep_line line) as [[text counted]|] eqn:Hk; [|exact Hb].
  cbn [file_out number_of_lines_in_corpus].
  rewrite count_char_app, (keep_line_newlines _ _ _ Hline Hk), Hb. lia.
Qed.

Lemma last_char_app_cons (a : string) (c : ascii) (t : string) :
  last_char (a +:+ String c t) = last_char (String c t).
Proof.
  induction a as [|x a IH]; [reflexivity|]. rewrite append_cons.
  destruct (a +:+ String c t) as [|y r] eqn:Heq.
  - by destruct a.
  - change (last_char (String x (String y r))) with (last_char (String y r)).
    exact IH.
Qed.

Lemma readlines_from_length (text : string) :
  forall line : string,
    last_char line <> Some newline ->
    length (readlines_from line text)
    = count_char newline text + (if ends_open (line +:+ text) then 1 else 0).
Proof.
  induction text as [|c text IH]; intros line Hline.
  - rewrite append_empty_r. simpl. unfold ends_open.
    destruct line as [|a line]; [reflexivity|].
    destruct (last_char (String a line)) as [c|] eqn:Hl.
    + destruct (Ascii.eqb_spec c newline) as [->|_]; [done | reflexivity].
    + by apply last_char_None in Hl.
  - simpl readlines_from. simpl count_char.
    unfold ends_open. rewrite last_char_app_cons.
    destruct (Ascii.eqb_spec c newline) as [->|Hc].
    + simpl length. rewrite IH by done.
      change ("" +:+ text) with text. unfold ends_open.
      destruct text as [|d text]; [reflexivity|].
      change (last_char (String newline (String d text)))
        with (last_char (String d text)). lia.
    + rewrite IH.
      * rewrite append_assoc. change (String c "" +:+ text) with (String c text).
        unfold ends_open. by rewrite last_char_app_cons.
      * rewrite last_char_snoc. congruence.
Qed.

(** For an input file whose lines all end with a newline, the counter
    [number_of_lines_in_corpus] grows by the number of newlines written to
    the processed file.  Reading that file back gives one line for each of
    them and one more when the text ends with a line that ends no sentence:
    then the corpus iterator yields one line more than was counted. *)
Theorem preprocess_book_counts_lines (SENTENCE_END_TOKEN : string)
    (lines_in_corpus : nat) (file_in : list string) :
  Forall file_line file_in ->
  let counted := (preprocess_book lines_in_corpus file_in).1 in
  let text := (preprocess_book lines_in_corpus file_in).2 in
  counted = lines_in_corpus + count_char newline text
  /\ length (Corpus.iter SENTENCE_END_CHARS SENTENCE_END_TOKEN (readlines text))
     = count_char newline text + (if ends_open text then 1 else 0).
Proof.
  intros Hlines counted text. split.
  - subst counted text. unfold Preprocess.preprocess_book.
    cbn [fst snd].
    assert (forall b,
              number_of_lines_in_corpus b
              = lines_in_corpus + count_char newline (file_out b) ->
              number_of_lines_in_corpus (fold_left preprocess_line file_in b)
              = lines_in_corpus
                + count_char newline
                    (file_out (fold_left preprocess_line file_in b))) as Hgen.
    { induction Hlines as [|line file_in' Hline Hlines IH]; intros b Hb;
        [exact Hb|].
      cbn [fold_left]. apply IH. by apply preprocess_line_newlines. }
    apply Hgen. cbn [number_of_lines_in_corpus file_out]. simpl. lia.
  - unfold Corpus.iter. rewrite length_map. unfold readlines.
    by rewrite readlines_from_length.
Qed.

Lemma ascii_not_in_quotes (c : ascii) :
  (code c <? 128)%nat = true ->
  contains c LEFT_DOUBLE_QUOTE = false
  /\ contains c RIGHT_DOUBLE_QUOTE = false
  /\ contains c RIGHT_SINGLE_QUOTE = false.
Proof.
  destruct c as [[] [] [] [] [] [] [] []]; intros Hc;
    first [discriminate Hc | by vm_compute].
Qed.

Lemma space_not_in_marks (c : ascii) :
  isspace c = true ->
  (code c <? 128)%nat = true /\ c <> "_"%char.
Proof.
  destruct c as [[] [] [] [] [] [] [] []]; intros Hc;
    first [discriminate Hc | by vm_compute].
Qed.

(** What [clean] does around a character of plain ASCII that is no
    underscore, when only whitespace follows it. *)
Lemma clean_app_char (x : string) (c : ascii) (ws : string) :
  (code c <? 128)%nat = true ->
  c <> "_"%char ->
  Forall (fun c => isspace c = true) (list_ascii_of_string ws) ->
  clean (x +:+ String c ws) = clean x +:+ String c ws.
Proof.
  intros Hc Hu Hws.
  destruct (ascii_not_in_quotes c Hc) as (Hl & Hr & Hs).
  assert (contains c "_" = false) as Hunder.
  { change (Ascii.eqb "_" c || false = false).
    destruct (Ascii.eqb_spec "_"%char c) as [E|E];
      [symmetry in E; contradiction | reflexivity]. }
  assert (forall old new o t, old = String o t -> isspace o = false ->
            replace ws old new = ws) as Hspaces.
  { intros old new o t -> Ho. apply replace_id. by apply contains_spaces. }
  unfold clean.
  rewrite (replace_app_char LEFT_DOUBLE_QUOTE) by done.
  rewrite (Hspaces LEFT_DOUBLE_QUOTE _ _ _ eq_refl eq_refl).
  rewrite (replace_app_char RIGHT_DOUBLE_QUOTE) by done.
  rewrite (Hspaces RIGHT_DOUBLE_QUOTE _ _ _ eq_refl eq_refl).
  rewrite (replace_app_char "_") by done.
  rewrite (Hspaces "_" _ _ _ eq_refl eq_refl).
  rewrite (replace_app_char RIGHT_SINGLE_QUOTE) by done.
  by rewrite (Hspaces RIGHT_SINGLE_QUOTE _ _ _ eq_refl eq_refl).
Qed.

Lemma clean_no_newline (s : string) :
  contains newline s = false -> contains newline (clean s) = false.
Proof.
  intros Hs. apply count_char_contains. rewrite clean_count_newline.
  by apply count_char_absent.
Qed.

Lemma append_inv_tail (a b s : string) : a +:+ s = b +:+ s -> a = b.
Proof.
  intros H. apply (f_equal list_ascii_of_string) in H.
  rewrite !list_ascii_of_string_app in H. apply app_inv_tail in H.
  apply (f_equal string_of_list_ascii) in H.
  by rewrite !string_of_list_ascii_of_string in H.
Qed.

(** The text written for a line that is counted: it ends with the
    sentence-end character of the line, whitespace and the newline. *)
Lemma keep_line_counted (line text : string) :
  Forall plain SENTENCE_END_CHARS ->
  file_line line ->
  keep_line line = Some (text, true) ->
  exists y c ws,
    text = y +:+ String c (ws +:+ String newline "")
    /\ contains newline y = false
    /\ contains newline ws = false
    /\ in_sentence_end SENTENCE_END_CHARS c = true
    /\ isspace c = false
    /\ Forall (fun c => isspace c = true) (list_ascii_of_string ws).
Proof.
  intros Hsec Hline. unfold Preprocess.keep_line.
  destruct (String.eqb (strip line) ""); [done|].
  destruct (startswith (strip line) "_"); [done|].
  destruct (String.eqb (strip line) "CONTENTS"); [done|].
  destruct (is_caption (lower (strip line))); [done|].
  destruct (last_char (strip line)) as [c|] eqn:Hlast; [|done].
  destruct (in_sentence_end SENTENCE_END_CHARS c) eqn:Hc; [|done].
  intros [= <-].
  destruct (strip_last_split _ _ Hlast) as (x & ws & Hx & Hsp & Hws).
  destruct Hline as (body & Hbody & Hnl).
  assert (plain c) as [Hcode Hunder].
  { rewrite Forall_forall in Hsec. apply Hsec.
    by apply in_sentence_end_spec. }
  apply Nat.ltb_lt in Hcode.
  (* the whitespace after [c] ends with the newline of the line *)
  assert (exists ws', ws = ws' +:+ String newline "") as [ws' ->].
  { destruct (last_char ws) as [d|] eqn:Hd.
    - exists (drop_last ws). rewrite (snoc_last_char _ _ Hd) at 1.
      f_equal. f_equal.
      assert (last_char line = Some d) as Hline_d.
      { rewrite Hx, last_char_app_cons.
        destruct ws as [|e ws]; [done|]. exact Hd. }
      rewrite Hbody, last_char_snoc in Hline_d. congruence.
    - apply last_char_None in Hd as ->.
      assert (last_char line = Some c) as Hline_c
        by (by rewrite Hx, last_char_app_cons).
      rewrite Hbody, last_char_snoc in Hline_c.
      injection Hline_c as <-. done. }
  assert (body = x +:+ String c ws') as Hbody'.
  { rewrite Hbody in Hx.
    assert (x +:+ String c (ws' +:+ String newline "")
            = (x +:+ String c ws') +:+ String newline "") as Heq
      by (by rewrite append_assoc, append_cons).
    rewrite Heq in Hx. by apply append_inv_tail in Hx. }
  rewrite Hbody', contains_app in Hnl. simpl in Hnl.
  apply orb_false_iff in Hnl as [Hxn Hrest].
  apply orb_false_iff in Hrest as [_ Hwsn].
  exists (clean x), c, ws'. rewrite Hx, clean_app_char by done.
  split; [done|]. split; [by apply clean_no_newline|].
  split; [done|]. split; [done|]. split; [done|].
  rewrite list_ascii_of_string_app in Hws. by apply Forall_app in Hws as [? _].
Qed.

Lemma closed_lines_newline (line p : string) :
  contains newline p = false ->
  closed_lines line (p +:+ String newline "")
  = [line +:+ p +:+ String newline ""].
Proof.
  intros Hp. rewrite closed_lines_app.
  destruct (lines_without_newline p line Hp) as [-> ->]. simpl.
  by rewrite append_assoc.
Qed.

(** Writing the text of one more line keeps every closed line of the
    output a line that ends a sentence. *)
Lemma preprocess_line_closed (b : Book) (line : string) :
  Forall plain SENTENCE_END_CHARS ->
  file_line line ->
  Forall (fun l => Corpus.ends_sentence SENTENCE_END_CHARS l = true)
         (closed_lines "" (file_out b)) ->
  Forall (fun l => Corpus.ends_sentence SENTENCE_END_CHARS l = true)
         (closed_lines "" (file_out (preprocess_line b line))).
Proof.
  intros Hsec Hline Hb. unfold Preprocess.preprocess_line.
  destruct (negb (reached_book_start b) && startswith line BOOK_START);
    [exact Hb|].
  cbn [reached_book_start reached_book_end file_out number_of_lines_in_corpus].
  destruct (reached_book_start b
            && negb (if negb (reached_book_end b) && startswith line BOOK_END
                     then true else reached_book_end b)); [|exact Hb].
  destruct (keep_line line) as [[text counted]|] eqn:Hkeep; [|exact Hb].
  cbn [file_out]. rewrite closed_lines_app. apply Forall_app. split; [exact Hb|].
  destruct counted.
  - destruct (keep_line_counted line text Hsec Hline Hkeep)
      as (y & c & ws & -> & Hy & Hws & Hc & Hsp & Hspaces).
    assert (y +:+ String c (ws +:+ String newline "")
            = (y +:+ String c ws) +:+ String newline "") as ->
      by (by rewrite append_assoc, append_cons).
    rewrite closed_lines_newline.
    2:{ rewrite contains_app, Hy. simpl. rewrite Hws, orb_false_r.
        destruct (Ascii.eqb_spec c newline) as [->|]; [discriminate Hsp|reflexivity]. }
    apply Forall_singleton. unfold Corpus.ends_sentence.
    assert (open_line "" (file_out b) +:+ (y +:+ String c ws)
              +:+ String newline ""
            = (open_line "" (file_out b) +:+ y)
                +:+ String c (ws +:+ String newline "")) as ->.
    { by rewrite !append_assoc, !append_cons, ?append_assoc. }
    rewrite last_char_strip; [exact Hc | exact Hsp |].
    rewrite list_ascii_of_string_app. apply Forall_app. split; [exact Hspaces|].
    by apply Forall_singleton.
  - pose proof (keep_line_newlines line text false Hline Hkeep) as Hn.
    apply count_char_contains in Hn.
    by destruct (lines_without_newline text (open_line "" (file_out b)) Hn)
      as [-> _].
Qed.

(** Every line of the processed file that a newline closes ends a sentence:
    [preprocess_book] writes a newline only after a line whose last
    character, whitespace apart, is a sentence-end character.  The input
    lines end with their newline, and the sentence-end characters are ASCII
    characters other than the underscore. *)
Theorem processed_lines_end_sentences
    (lines_in_corpus : nat) (file_in : list string) (line : string) :
  Forall plain SENTENCE_END_CHARS ->
  Forall file_line file_in ->
  line ∈ readlines
           (preprocess_book lines_in_corpus file_in).2 ->
  last_char line = Some newline ->
  Corpus.ends_sentence SENTENCE_END_CHARS line = true.
Proof.
  intros Hsec Hlines Hin Hlast.
  unfold readlines in Hin. rewrite readlines_from_split in Hin.
  apply elem_of_app in Hin as [Hin|Hin].
  - revert line Hin Hlast. unfold Preprocess.preprocess_book. cbn [snd].
    assert (forall b,
      Forall (fun l => Corpus.ends_sentence SENTENCE_END_CHARS l = true)
             (closed_lines "" (file_out b)) ->
      Forall (fun l => Corpus.ends_sentence SENTENCE_END_CHARS l = true)
             (closed_lines ""
                (file_out
                   (fold_left preprocess_line file_in b))))
      as Hgen.
    { induction Hlines as [|l file_in' Hl Hlines IH]; intros b Hb; [exact Hb|].
      cbn [fold_left]. apply IH. by apply preprocess_line_closed. }
    intros line Hin _.
    assert (Forall (fun l => Corpus.ends_sentence SENTENCE_END_CHARS l = true)
              (closed_lines ""
                 (file_out
                    (fold_left preprocess_line file_in
                       {| reached_book_start := false;
                          reached_book_end := false;
                          number_of_lines_in_corpus := lines_in_corpus;
                          file_out := "" |})))) as Hall
      by (apply Hgen; cbn [file_out]; apply Forall_nil_2).
    rewrite Forall_forall in Hall. exact (Hall line Hin).
  - destruct (String.eqb _ ""); [by apply elem_of_nil in Hin|].
    apply list_elem_of_singleton in Hin as ->.
    apply last_char_contains in Hlast.
    rewrite open_line_no_newline in Hlast; [discriminate Hlast | reflexivity].
Qed.

End PreprocessFacts.

Lemma preprocess_book_frame_witness :
  Preprocess.preprocess_book sample_end_chars 0 sample_book
  = Preprocess.preprocess_book sample_end_chars 0
      (Preprocess.BOOK_START :: take 9 (drop 2 sample_book)).
Proof.
  apply (preprocess_book_frame sample_end_chars 0
           (take 1 sample_book)
           (Preprocess.BOOK_START +:+ " X ***" +:+ PyText.nl)
           (take 9 (drop 2 sample_book))
           (Preprocess.BOOK_END +:+ PyText.nl)
           (drop 12 sample_book)).
  - repeat constructor.
  - reflexivity.
  - repeat constructor.
  - reflexivity.
Defined.

Lemma preprocess_book_needs_start_witness :
  Preprocess.preprocess_book sample_end_chars 0 (take 1 sample_book) = (0, "")
  /\ Preprocess.preprocess_book sample_end_chars 0
       (take 1 sample_book ++ (Preprocess.BOOK_END +:+ PyText.nl) :: sample_book)
     = (0, "").
Proof.
  destruct (preprocess_book_needs_start sample_end_chars 0 (take 1 sample_book)
              (Preprocess.BOOK_END +:+ PyText.nl) sample_book)
    as [Hnone Hend].
  - repeat constructor.
  - split; [exact Hnone | apply Hend; reflexivity].
Defined.

Lemma preprocess_book_counts_lines_witness :
  let counted := (Preprocess.preprocess_book sample_end_chars 0 sample_book).1 in
  let text := (Preprocess.preprocess_book sample_end_chars 0 sample_book).2 in
  counted = 0 + PyText.count_char PyText.newline text
  /\ length (Corpus.iter sample_end_chars sample_end (PyText.readlines text))
     = PyText.count_char PyText.newline text
       + (if PyText.ends_open text then 1 else 0).
Proof.
  apply (preprocess_book_counts_lines sample_end_chars sample_end 0 sample_book).
  repeat (apply Forall_cons; split; [apply file_line_intro; reflexivity|]).
  apply Forall_nil_2.
Defined.

Lemma processed_lines_end_sentences_witness :
  Corpus.ends_sentence sample_end_chars
    ("You will rejoice to hear that no disaster has come." +:+ PyText.nl)
  = true.
Proof.
  apply (processed_lines_end_sentences sample_end_chars 0 sample_book).
  - repeat (apply Forall_cons; split;
              [split; [vm_compute; lia | discriminate]|]).
    apply Forall_nil_2.
  - repeat (apply Forall_cons; split; [apply file_line_intro; reflexivity|]).
    apply Forall_nil_2.
  - change (("You will rejoice to hear that no disaster has come." +:+ PyText.nl)
            ∈ [ "You will rejoice to hear that no disaster has come." +:+ PyText.nl;
                "  I am here, it's so!  " +:+ PyText.nl;
                "chapter one " ]).
    apply list_elem_of_here.
  - reflexivity.
Defined.

(** * Binary64: the rounding of [SpecFloat] *)

Section Shifts.
Import Float.
Local Open Scope Q_scope.

Lemma pow2_pos (e : Z) : 0 < pow2 e.
Proof. apply Qpower_0_lt. reflexivity. Qed.

Lemma pow2_add (a b : Z) : pow2 (a + b) == pow2 a * pow2 b.
Proof. apply Qpower_plus. discriminate. Qed.

Lemma pow2_le (a b : Z) : (a <= b)%Z -> pow2 a <= pow2 b.
Proof. intros Hab. apply Qpower_le_compat_l; [exact Hab | discriminate]. Qed.

Lemma pow2_lt_inv (a b : Z) : pow2 a < pow2 b -> (a < b)%Z.
Proof. intros Hab. apply (Qpower_lt_compat_l_inv 2); [exact Hab | reflexivity]. Qed.

Lemma pow2_Z (e : Z) : (0 <= e)%Z -> pow2 e == inject_Z (2 ^ e).
Proof. intros He. unfold pow2. by rewrite Zpower_Qpower. Qed.

Lemma pow2_opp (e : Z) : pow2 (- e) * pow2 e == 1.
Proof.
  rewrite <- pow2_add. replace (- e + e)%Z with 0%Z by lia. reflexivity.
Qed.

Lemma located_ext (t t' : Q) (mrs : shr_record) :
  t == t' -> located t mrs -> located t' mrs.
Proof.
  intros Ht. unfold located. destruct (shr_r mrs), (shr_s mrs); rewrite Ht; auto.
Qed.

Lemma located_range (t : Q) (mrs : shr_record) :
  located t mrs -> inject_Z (shr_m mrs) <= t /\ t < inject_Z (shr_m mrs) + 1.
Proof.
  unfold located. destruct (shr_r mrs), (shr_s mrs); intros; lra.
Qed.

Lemma shr_1_located (t : Q) (mrs : shr_record) :
  (0 <= shr_m mrs)%Z ->
  located t mrs ->
  located (t * (1 # 2)) (shr_1 mrs)
  /\ (0 <= shr_m (shr_1 mrs))%Z
  /\ shr_m (shr_1 mrs) = (shr_m mrs / 2)%Z.
Proof.
  destruct mrs as [m r s]. cbn [shr_m]. intros Hm Hloc.
  destruct m as [|p|p]; [| |lia].
  - split; [|split; [reflexivity | reflexivity]].
    revert Hloc. unfold located. destruct r, s; cbn;
      intros; small_constants; lra.
  - destruct p as [p|p|].
    + split; [|split; [cbn; lia | cbn [shr_1 shr_m]; rewrite Pos2Z.inj_xI;
                                   rewrite Z.mul_comm, Z.div_add_l by lia; reflexivity]].
      revert Hloc. unfold located. cbn [shr_1 shr_m shr_r shr_s orb].
      rewrite Pos2Z.inj_xI, inject_Z_plus, inject_Z_mult.
      destruct r, s; cbn [orb]; intros; small_constants; lra.
    + split; [|split; [cbn; lia | cbn [shr_1 shr_m]; rewrite Pos2Z.inj_xO;
                                   rewrite Z.mul_comm, Z.div_mul by lia; reflexivity]].
      revert Hloc. unfold located. cbn [shr_1 shr_m shr_r shr_s orb].
      rewrite Pos2Z.inj_xO, inject_Z_mult.
      destruct r, s; cbn [orb]; intros; small_constants; lra.
    + split; [|split; [reflexivity | reflexivity]].
      revert Hloc. unfold located. destruct r, s; cbn;
      intros; small_constants; lra.
Qed.

Lemma iter_shr_located (p : positive) :
  forall (t : Q) (mrs : shr_record),
    (0 <= shr_m mrs)%Z ->
    located t mrs ->
    located (t * pow2 (- Zpos p)) (SpecFloat.iter_pos shr_1 p mrs)
    /\ (0 <= shr_m (SpecFloat.iter_pos shr_1 p mrs))%Z
    /\ shr_m (SpecFloat.iter_pos shr_1 p mrs) = (shr_m mrs / 2 ^ Zpos p)%Z.
Proof.
  induction p as [p IH|p IH|]; intros t mrs Hm Hloc; cbn [SpecFloat.iter_pos].
  - destruct (shr_1_located t mrs Hm Hloc) as (H1 & H1m & H1d).
    destruct (IH _ _ H1m H1) as (H2 & H2m & H2d).
    destruct (IH _ _ H2m H2) as (H3 & H3m & H3d).
    assert (Z.pos p~1 = 1 + (Z.pos p + Z.pos p))%Z as -> by lia.
    split; [|split; [exact H3m|]].
    + eapply located_ext; [|exact H3].
      replace (- (1 + (Z.pos p + Z.pos p)))%Z
        with (-1 + (- Z.pos p + - Z.pos p))%Z by lia.
      rewrite !pow2_add. change (pow2 (-1)) with (1 # 2). ring.
    + rewrite H3d, H2d, H1d.
      rewrite !Z.div_div by lia.
      f_equal. rewrite !Z.pow_add_r by lia. lia.
  - destruct (IH _ _ Hm Hloc) as (H2 & H2m & H2d).
    destruct (IH _ _ H2m H2) as (H3 & H3m & H3d).
    assert (Z.pos p~0 = Z.pos p + Z.pos p)%Z as -> by lia.
    split; [|split; [exact H3m|]].
    + eapply located_ext; [|exact H3].
      replace (- (Z.pos p + Z.pos p))%Z with (- Z.pos p + - Z.pos p)%Z by lia.
      rewrite !pow2_add. ring.
    + rewrite H3d, H2d.
      rewrite !Z.div_div by lia.
      f_equal. rewrite !Z.pow_add_r by lia. lia.
  - destruct (shr_1_located t mrs Hm Hloc) as (H1 & H1m & H1d).
    split; [|split; [exact H1m | by rewrite H1d]].
    eapply located_ext; [|exact H1]. reflexivity.
Qed.

End Shifts.

Section Digits.
Import Float.
Local Open Scope Q_scope.

Lemma pow2_succ_pos (d : positive) :
  (2 ^ Zpos (Pos.succ d) = 2 * 2 ^ Zpos d)%Z
  /\ (2 ^ Zpos d = 2 * 2 ^ (Zpos d - 1))%Z.
Proof.
  split.
  - rewrite Pos2Z.inj_succ. apply Z.pow_succ_r. lia.
  - replace (Zpos d) with (Z.succ (Zpos d - 1)) at 1 by lia.
    apply Z.pow_succ_r. lia.
Qed.

Lemma digits2_pos_bounds (p : positive) :
  (2 ^ (Zpos (digits2_pos p) - 1) <= Zpos p < 2 ^ Zpos (digits2_pos p))%Z.
Proof.
  induction p as [p IH|p IH|]; cbn [digits2_pos]; [| |split; [reflexivity | lia]].
  - destruct (pow2_succ_pos (digits2_pos p)) as [Hs Hd].
    replace (Zpos (Pos.succ (digits2_pos p)) - 1)%Z with (Zpos (digits2_pos p))
      by lia.
    rewrite Hs. rewrite Hd in IH |- *.
    clear Hs Hd. set (a := (2 ^ (Zpos (digits2_pos p) - 1))%Z) in *.
    clearbody a. lia.
  - destruct (pow2_succ_pos (digits2_pos p)) as [Hs Hd].
    replace (Zpos (Pos.succ (digits2_pos p)) - 1)%Z with (Zpos (digits2_pos p))
      by lia.
    rewrite Hs. rewrite Hd in IH |- *.
    clear Hs Hd. set (a := (2 ^ (Zpos (digits2_pos p) - 1))%Z) in *.
    clearbody a. lia.
Qed.

Lemma digits_nonneg (m : Z) : (0 <= Zdigits2 m)%Z.
Proof. destruct m; cbn; lia. Qed.

Lemma digits_upper (m : Z) : (0 <= m)%Z -> (m < 2 ^ Zdigits2 m)%Z.
Proof.
  destruct m as [|p|p]; intros Hm; [reflexivity | | lia].
  apply digits2_pos_bounds.
Qed.

Lemma digits_lower (m : Z) : (0 < m)%Z -> (2 ^ (Zdigits2 m - 1) <= m)%Z.
Proof.
  destruct m as [|p|p]; intros Hm; [lia | | lia].
  apply digits2_pos_bounds.
Qed.

Lemma digits_le (m j : Z) :
  (0 < m)%Z -> (0 <= j)%Z -> (m < 2 ^ j)%Z -> (Zdigits2 m <= j)%Z.
Proof.
  intros Hm Hj Hlt. pose proof (digits_lower m Hm) as Hlow.
  pose proof (digits_nonneg m) as Hd.
  destruct (Z_le_gt_dec (Zdigits2 m) j) as [|Hgt]; [assumption|].
  assert (2 ^ j <= 2 ^ (Zdigits2 m - 1))%Z by (apply Z.pow_le_mono_r; lia).
  lia.
Qed.

Lemma loc_of_record_of_loc (m : Z) (l : location) :
  loc_of_shr_record (shr_record_of_loc m l) = l
  /\ shr_m (shr_record_of_loc m l) = m.
Proof. destruct l as [|[]]; split; reflexivity. Qed.

Lemma shr_located (t : Q) (mrs : shr_record) (e n : Z) :
  (0 <= shr_m mrs)%Z ->
  located t mrs ->
  (snd (shr mrs e n) = e + Z.max n 0)%Z
  /\ (0 <= shr_m (fst (shr mrs e n)))%Z
  /\ located (t * pow2 (- Z.max n 0)) (fst (shr mrs e n))
  /\ shr_m (fst (shr mrs e n)) = (shr_m mrs / 2 ^ Z.max n 0)%Z
  /\ ((n <= 0)%Z -> fst (shr mrs e n) = mrs).
Proof.
  intros Hm Hloc. destruct n as [|p|p]; cbn [shr fst snd].
  - split; [cbn; lia|]. split; [exact Hm|]. split.
    + eapply located_ext; [|exact Hloc]. change (pow2 (- Z.max 0 0)) with 1. ring.
    + split; [by rewrite Z.div_1_r | done].
  - destruct (iter_shr_located p t mrs Hm Hloc) as (H1 & H2 & H3).
    rewrite Z.max_l by lia.
    split; [reflexivity|]. split; [exact H2|]. split; [exact H1|].
    split; [exact H3 | lia].
  - rewrite Z.max_r by lia.
    split; [lia|]. split; [exact Hm|]. split.
    + eapply located_ext; [|exact Hloc]. change (pow2 (- 0)) with 1. ring.
    + split; [by rewrite Z.div_1_r | done].
Qed.

(** Rounding to nearest even moves the mantissa by at most one half. *)
Lemma round_nearest_even_near (t : Q) (mrs : shr_record) :
  located t mrs ->
  let m := round_nearest_even (shr_m mrs) (loc_of_shr_record mrs) in
  (shr_m mrs <= m <= shr_m mrs + 1)%Z
  /\ t - (1 # 2) <= inject_Z m <= t + (1 # 2).
Proof.
  destruct mrs as [m r s]. unfold located. cbn [shr_m shr_r shr_s].
  destruct r, s; cbn [loc_of_shr_record round_nearest_even]; intros Hloc.
  - split; [lia|]. rewrite inject_Z_plus. small_constants. lra.
  - destruct (Z.even m); [split; [lia | lra]|].
    split; [lia|]. rewrite inject_Z_plus. small_constants. lra.
  - split; [lia | lra].
  - split; [lia | lra].
Qed.

End Digits.

Section RoundAux.
Import Float.
Local Open Scope Q_scope.

Lemma binary_round_aux_finish (mx ex : Z) (lx : location) :
  binary_round_aux prec emax false mx ex lx
  = let S := shr_fexp prec emax mx ex lx in
    finish (round_nearest_even (shr_m (fst S)) (loc_of_shr_record (fst S)))
      (snd S).
Proof.
  unfold binary_round_aux, finish.
  destruct (shr_fexp prec emax mx ex lx) as [mrs e]. reflexivity.
Qed.

Lemma fexp_fexp64 (e : Z) : SpecFloat.fexp prec emax e = fexp64 e.
Proof. reflexivity. Qed.

Lemma finish_same (m e : Z) :
  (0 <= m)%Z ->
  m = 0%Z \/ ((fexp64 (Zdigits2 m + e) <= e)%Z /\ (e <= 971)%Z) ->
  nonneg_finite (finish m e) = true
  /\ SF2Q (finish m e) == inject_Z m * pow2 e.
Proof.
  intros Hm Hcase. unfold finish, shr_fexp. rewrite fexp_fexp64.
  destruct (shr_located (inject_Z m)
              (shr_record_of_loc m loc_Exact) e
              (fexp64 (Zdigits2 m + e) - e)%Z)
    as (Hsnd & _ & _ & Hdiv & Hfst); [cbn; lia | cbn; reflexivity |].
  destruct (shr (shr_record_of_loc m loc_Exact) e
              (fexp64 (Zdigits2 m + e) - e)%Z) as [mrs e'].
  cbn [fst snd shr_record_of_loc shr_m] in Hsnd, Hfst, Hdiv.
  destruct Hcase as [->|[Hn He]].
  - rewrite Hdiv, Z.div_0_l by lia.
    split; [reflexivity|]. cbn [SF2Q]. change (inject_Z 0) with 0. ring.
  - rewrite (Hfst ltac:(lia)), Hsnd.
    rewrite Z.max_r by lia. rewrite Z.add_0_r. cbn [shr_m].
    destruct m as [|p|p]; [| |lia].
    + split; [reflexivity|]. cbn [SF2Q]. change (inject_Z 0) with 0. ring.
    + replace (e <=? emax - prec)%Z with true
        by (symmetry; apply Z.leb_le; change (emax - prec)%Z with 971%Z; lia).
      split; [reflexivity|]. cbn [SF2Q]. ring.
Qed.

Lemma finish_value (m e : Z) :
  (0 <= m <= 2 ^ 53)%Z ->
  (-1074 <= e <= 970)%Z ->
  nonneg_finite (finish m e) = true
  /\ SF2Q (finish m e) == inject_Z m * pow2 e.
Proof.
  intros Hm He.
  destruct (Z.eq_dec m (2 ^ 53)%Z) as [->|Hne].
  - unfold finish, shr_fexp. rewrite fexp_fexp64.
    change (Zdigits2 (2 ^ 53)%Z) with 54%Z. unfold fexp64.
    rewrite Z.max_l by lia.
    replace (54 + e - 53 - e)%Z with 1%Z by lia.
    replace (shr (shr_record_of_loc (2 ^ 53)%Z loc_Exact) e 1)
      with ({| shr_m := Zpos (2 ^ 52)%positive; shr_r := false;
               shr_s := false |}, (e + 1)%Z) by reflexivity.
    cbn [shr_m].
    replace (e + 1 <=? emax - prec)%Z with true
      by (symmetry; apply Z.leb_le; change (emax - prec)%Z with 971%Z; lia).
    split; [reflexivity|]. cbn [SF2Q].
    rewrite pow2_add. change (pow2 1) with 2.
    change (inject_Z (2 ^ 53)%Z) with (inject_Z (Zpos (2 ^ 52)%positive) * 2). ring.
  - apply finish_same; [lia|].
    destruct (Z.eq_dec m 0%Z) as [->|Hm0]; [by left | right].
    assert (Zdigits2 m <= 53)%Z by (apply digits_le; lia).
    unfold fexp64. lia.
Qed.

Lemma round_common (x : Q) (K E : Z) (mrs : shr_record) :
  (0 <= shr_m mrs < 2 ^ 53)%Z ->
  located (x * pow2 (- E)) mrs ->
  (K <= 1023)%Z ->
  (-1074 <= E <= K - 53)%Z ->
  let r := finish (round_nearest_even (shr_m mrs) (loc_of_shr_record mrs)) E in
  nonneg_finite r = true
  /\ x - pow2 (K - 54) <= SF2Q r <= x + pow2 (K - 54).
Proof.
  intros Hm Hloc HK HE r. subst r.
  destruct (round_nearest_even_near _ _ Hloc) as [Hmz Hmq].
  destruct (finish_value
              (round_nearest_even (shr_m mrs) (loc_of_shr_record mrs)) E)
    as [Hf Hv]; [lia | lia |].
  split; [exact Hf|]. rewrite Hv.
  set (M := inject_Z (round_nearest_even (shr_m mrs) (loc_of_shr_record mrs)))
    in *. clearbody M.
  pose proof (pow2_pos E) as HP. pose proof (pow2_opp E) as Hopp.
  assert (pow2 E <= 2 * pow2 (K - 54)) as Hle.
  { change 2 with (pow2 1) at 1. rewrite <- pow2_add. apply pow2_le. lia. }
  assert (x == x * pow2 (- E) * pow2 E) as Hxt
    by (rewrite <- Qmult_assoc, Hopp; ring).
  set (t := x * pow2 (- E)) in *. clearbody t.
  set (P := pow2 E) in *. clearbody P.
  set (q := pow2 (K - 54)) in *. clearbody q.
  clear Hopp Hloc Hv Hf. nra.
Qed.

(** [binary_round_aux] rounds a located non-negative number below [2^K] to
    a non-negative float no further than [2^(K-54)] away, half a unit in the
    last place; a number given exactly, with a mantissa that needs no shift,
    is kept as it is. *)
Lemma binary_round_aux_correct (x : Q) (K mx ex : Z) (lx : location) :
  (0 <= mx)%Z ->
  located (x * pow2 (- ex)) (shr_record_of_loc mx lx) ->
  (lx = loc_Exact \/ (ex <= fexp64 (Zdigits2 mx + ex))%Z) ->
  (-1021 <= K <= 972)%Z ->
  x < pow2 K ->
  let r := binary_round_aux prec emax false mx ex lx in
  nonneg_finite r = true
  /\ x - pow2 (K - 54) <= SF2Q r <= x + pow2 (K - 54)
  /\ (lx = loc_Exact -> (fexp64 (Zdigits2 mx + ex) <= ex)%Z -> SF2Q r == x).
Proof.
  intros Hmx Hloc HP HK Hx r. subst r. rewrite binary_round_aux_finish.
  cbv zeta. unfold shr_fexp. rewrite fexp_fexp64.
  set (E := fexp64 (Zdigits2 mx + ex)%Z).
  pose proof (loc_of_record_of_loc mx lx) as [Hl Hm].
  destruct (shr_located _ _ ex (E - ex)%Z ltac:(rewrite Hm; exact Hmx) Hloc)
    as (Hsnd & Hpos & Hloc' & Hdiv & Hsame).
  pose proof (located_range _ _ Hloc) as [Hlow Hhigh]. rewrite Hm in Hlow, Hhigh.
  pose proof (pow2_pos ex) as Hpex. pose proof (pow2_opp ex) as Hopp.
  assert (x == x * pow2 (- ex) * pow2 ex) as Hxt
    by (rewrite <- Qmult_assoc, Hopp; ring).
  (* the exponent of the result is small *)
  assert ((0 < mx)%Z -> (Zdigits2 mx + ex <= K)%Z) as Hsmall.
  { intros Hmx0. pose proof (digits_lower mx Hmx0) as Hd.
    pose proof (digits_nonneg mx) as Hdn.
    assert (Zdigits2 mx - 1 + ex < K)%Z; [|lia].
    apply pow2_lt_inv.
    rewrite pow2_add, pow2_Z by (destruct mx; cbn in *; lia).
    assert (inject_Z (2 ^ (Zdigits2 mx - 1)) <= inject_Z mx) as Hinj
      by (rewrite <- Zle_Qle; exact Hd).
    assert (inject_Z (2 ^ (Zdigits2 mx - 1)) * pow2 ex
            <= x * pow2 (- ex) * pow2 ex); [|lra].
    apply Qmult_le_compat_r; lra. }
  destruct (Z_le_gt_dec (E - ex)%Z 0%Z) as [Hn|Hn].
  - (* no shift *)
    rewrite (Hsame Hn), Hsnd, Hl, Hm. rewrite Z.max_r by lia. rewrite Z.add_0_r.
    destruct lx as [|c].
    + (* the number is given exactly *)
      cbn [round_nearest_even].
      unfold located in Hloc. cbn in Hloc.
      destruct (finish_same mx ex Hmx) as [Hf Hv].
      { destruct (Z.eq_dec mx 0%Z) as [->|Hmx0]; [by left | right].
        split; [lia|]. pose proof (Hsmall ltac:(lia)).
        pose proof (digits_lower mx ltac:(lia)).
        pose proof (digits_nonneg mx).
        destruct (Z.eq_dec (Zdigits2 mx) 0%Z) as [Hd|Hd]; [|lia].
        destruct mx; cbn in Hd; lia. }
      assert (SF2Q (finish mx ex) == x) as Hvx
        by (rewrite Hv, Hxt, Hloc; reflexivity).
      pose proof (pow2_pos (K - 54)).
      split; [exact Hf|]. split; [lra|]. intros _ _. exact Hvx.
    + (* an inexact number with a mantissa of the right length *)
      assert (E = ex) as HE by (destruct HP as [?|?]; [discriminate | lia]).
      pose proof (digits_upper mx Hmx) as Hup.
      pose proof (digits_nonneg mx) as Hdn.
      assert (Zdigits2 mx <= 53)%Z as Hd53 by (unfold E, fexp64 in HE; lia).
      assert (2 ^ Zdigits2 mx <= 2 ^ 53)%Z by (apply Z.pow_le_mono_r; lia).
      assert (-1074 <= ex <= K - 53)%Z as Hrange.
      { destruct (Z.eq_dec mx 0%Z) as [->|Hmx0].
        - unfold E, fexp64 in HE. cbn in HE. lia.
        - pose proof (Hsmall ltac:(lia)). unfold E, fexp64 in HE. lia. }
      destruct (round_common x K ex (shr_record_of_loc mx (loc_Inexact c)))
        as [Hf Hv];
        [rewrite Hm; lia | exact Hloc | lia | exact Hrange |].
      rewrite Hl, Hm in Hf, Hv.
      split; [exact Hf|]. split; [exact Hv|]. discriminate.
  - (* the mantissa is shifted to the right *)
    rewrite Hsnd. rewrite Z.max_l in Hloc', Hdiv |- * by lia.
    replace (ex + (E - ex))%Z with E by lia.
    rewrite Hm in Hdiv.
    pose proof (digits_upper mx Hmx) as Hup.
    pose proof (digits_nonneg mx) as Hdn.
    assert (shr_m (shr (shr_record_of_loc mx lx) ex (E - ex)).1 < 2 ^ 53)%Z
      as Hlt.
    { rewrite Hdiv. apply Z.div_lt_upper_bound; [lia|].
      rewrite <- Z.pow_add_r by lia.
      assert (2 ^ Zdigits2 mx <= 2 ^ (E - ex + 53))%Z
        by (apply Z.pow_le_mono_r; unfold E, fexp64; lia).
      lia. }
    assert (-1074 <= E <= K - 53)%Z as Hrange.
    { destruct (Z.eq_dec mx 0%Z) as [->|Hmx0].
      - unfold E, fexp64 in Hn |- *. cbn in Hn |- *. lia.
      - pose proof (Hsmall ltac:(lia)). unfold E, fexp64. lia. }
    destruct (round_common x K E (shr (shr_record_of_loc mx lx) ex (E - ex)).1)
      as [Hf Hv]; [lia | | lia | exact Hrange |].
    { eapply located_ext; [|exact Hloc'].
      rewrite <- Qmult_assoc, <- pow2_add.
      replace (- ex + - (E - ex))%Z with (- E)%Z by lia. reflexivity. }
    split; [exact Hf|]. split; [exact Hv|]. intros _ HE. lia.
Qed.

End RoundAux.

Section BinaryRound.
Import Float.
Local Open Scope Q_scope.

Lemma iter_xO_spec (mx d : positive) :
  Zpos (Pos.iter xO mx d) = (Zpos mx * 2 ^ Zpos d)%Z
  /\ Zpos (digits2_pos (Pos.iter xO mx d)) = (Zpos (digits2_pos mx) + Zpos d)%Z.
Proof.
  apply (Pos.iter_ind _ xO mx
           (fun p a => Zpos a = (Zpos mx * 2 ^ Zpos p)%Z
                       /\ Zpos (digits2_pos a)
                          = (Zpos (digits2_pos mx) + Zpos p)%Z)).
  - split; [cbn; lia | cbn [digits2_pos]; lia].
  - intros p a [Ha Hd]. split.
    + rewrite Pos2Z.inj_succ, Z.pow_succ_r by lia.
      rewrite Pos2Z.inj_xO, Ha. lia.
    + cbn [digits2_pos]. rewrite !Pos2Z.inj_succ, Hd. lia.
Qed.

Lemma shl_align_spec (mx : positive) (ex ex' : Z) :
  (shl_align mx ex ex').2 = Z.min ex ex'
  /\ Zpos (shl_align mx ex ex').1
     = (Zpos mx * 2 ^ (ex - Z.min ex ex'))%Z
  /\ (Zdigits2 (Zpos (shl_align mx ex ex').1) + Z.min ex ex'
      = Zdigits2 (Zpos mx) + ex)%Z.
Proof.
  unfold shl_align. destruct (ex' - ex)%Z as [|d|d] eqn:Hd; cbn [fst snd].
  - rewrite Z.min_l by lia. rewrite Z.sub_diag. split; [reflexivity|].
    split; [cbn; lia | reflexivity].
  - rewrite Z.min_l by lia. rewrite Z.sub_diag. split; [reflexivity|].
    split; [cbn; lia | reflexivity].
  - rewrite Z.min_r by lia. destruct (iter_xO_spec mx d) as [Hv Hdig].
    split; [reflexivity|]. replace (ex - ex')%Z with (Zpos d) by lia.
    split; [exact Hv|]. cbn [Zdigits2]. rewrite Hdig. lia.
Qed.

(** [binary_round] of a positive number [m * 2^e] below [2^K]. *)
Lemma binary_round_correct (x : Q) (K : Z) (m : positive) (e : Z) :
  x == inject_Z (Zpos m) * pow2 e ->
  (-1021 <= K <= 972)%Z ->
  x < pow2 K ->
  let r := binary_round prec emax false m e in
  nonneg_finite r = true
  /\ x - pow2 (K - 54) <= SF2Q r <= x + pow2 (K - 54)
  /\ ((fexp64 (Zdigits2 (Zpos m) + e) <= e)%Z -> SF2Q r == x).
Proof.
  intros Hx HK Hlt r. subst r. unfold binary_round.
  change (SpecFloat.fexp prec emax (Zpos (digits2_pos m) + e))
    with (fexp64 (Zdigits2 (Zpos m) + e)).
  set (E := fexp64 (Zdigits2 (Zpos m) + e)).
  destruct (shl_align_spec m e E) as (Hez & Hmz & Hdig).
  destruct (shl_align m e E) as [mz ez]. cbn [fst snd] in Hez, Hmz, Hdig.
  subst ez.
  destruct (binary_round_aux_correct x K (Zpos mz) (Z.min e E) loc_Exact)
    as (Hf & Hb & Hexact); [lia | | by left | exact HK | exact Hlt |].
  - unfold located. cbn. rewrite Hx, Hmz, inject_Z_mult.
    rewrite <- pow2_Z by lia.
    rewrite <- Qmult_assoc, <- pow2_add.
    replace (e + - Z.min e E)%Z with (e - Z.min e E)%Z by lia. reflexivity.
  - split; [exact Hf|]. split; [exact Hb|].
    intros HE. apply Hexact; [reflexivity|]. rewrite Hdig. fold E. lia.
Qed.

Lemma nonneg_finite_positive (r : spec_float) :
  nonneg_finite r = true ->
  0 < SF2Q r ->
  exists m e, r = S754_finite false m e.
Proof.
  destruct r as [s|s| |[] m e]; try discriminate; cbn [SF2Q]; intros _ Hpos;
    first [lra | eauto].
Qed.

Lemma nonneg_finite_value (r : spec_float) :
  nonneg_finite r = true -> 0 <= SF2Q r.
Proof.
  destruct r as [s|s| |[] m e]; try discriminate; cbn [SF2Q]; intros _;
    try lra.
  pose proof (pow2_pos e).
  assert (0 < inject_Z (Zpos m)) by (change 0 with (inject_Z 0); by rewrite <- Zlt_Qlt).
  nra.
Qed.

End BinaryRound.

Section Division.
Import Float.
Local Open Scope Q_scope.

(** [float(k)] is exact for a positive count below [2^53]. *)
Lemma float_of_nat_exact (k : nat) :
  (0 < k)%nat ->
  (Z.of_nat k < 2 ^ 53)%Z ->
  exists m e,
    Prim2SF (float_of_nat k) = S754_finite false m e
    /\ inject_Z (Zpos m) * pow2 e == inject_Z (Z.of_nat k).
Proof.
  intros Hk Hlt. unfold float_of_nat. rewrite of_uint63_spec.
  rewrite Uint63.of_Z_spec.
  rewrite Z.mod_small
    by (split; [lia|]; change wB with (2 ^ 63)%Z;
        assert (2 ^ 53 < 2 ^ 63)%Z by reflexivity; lia).
  destruct (Z.of_nat k) as [|p|p] eqn:Hp; [lia | | lia].
  cbn [binary_normalize].
  destruct (binary_round_correct (inject_Z (Zpos p)) 53 p 0)
    as (Hf & _ & Hexact).
  - change (pow2 0) with 1. ring.
  - lia.
  - rewrite pow2_Z by lia. rewrite <- Zlt_Qlt. exact Hlt.
  - assert (Zdigits2 (Zpos p) <= 53)%Z by (apply digits_le; lia).
    specialize (Hexact ltac:(unfold fexp64; lia)).
    destruct (nonneg_finite_positive _ Hf) as (m & e & Hr).
    { rewrite Hexact. change 0 with (inject_Z 0). rewrite <- Zlt_Qlt. lia. }
    exists m, e. split; [exact Hr|]. rewrite Hr in Hexact. cbn [SF2Q] in Hexact.
    rewrite <- Hexact. ring.
Qed.

Lemma fexp64_mono (a b : Z) : (a <= b)%Z -> (fexp64 a <= fexp64 b)%Z.
Proof. unfold fexp64. lia. Qed.

(** The quotient that [SFdiv_core_binary] hands to the rounding: it has
    enough digits and is located with respect to the exact quotient. *)
Lemma div_core_located (mx my : positive) (ex ey : Z) :
  let x := inject_Z (Zpos mx) * pow2 ex / (inject_Z (Zpos my) * pow2 ey) in
  let core := SFdiv_core_binary prec emax (Zpos mx) ex (Zpos my) ey in
  (0 <= core.1.1)%Z
  /\ located (x * pow2 (- core.1.2)) (shr_record_of_loc core.1.1 core.2)
  /\ (core.1.2 <= fexp64 (Zdigits2 core.1.1 + core.1.2))%Z.
Proof.
  intros x core. subst core. unfold SFdiv_core_binary.
  change (SpecFloat.fexp prec emax ?a) with (fexp64 a).
  set (d1 := Zdigits2 (Zpos mx)). set (d2 := Zdigits2 (Zpos my)).
  set (e' := Z.min (fexp64 (d1 + ex - (d2 + ey))) (ex - ey)).
  set (s := (ex - ey - e')%Z).
  assert (0 <= s)%Z as Hs by (unfold s, e'; lia).
  set (m' := match s with
             | 0%Z => Zpos mx
             | Zpos _ => Z.shiftl (Zpos mx) s
             | Zneg _ => 0%Z
             end).
  assert (m' = Zpos mx * 2 ^ s)%Z as Hm'.
  { unfold m'. destruct s as [|p|p]; [lia | | lia].
    apply Z.shiftl_mul_pow2. lia. }
  clearbody m'.
  pose proof (Z_div_mod m' (Zpos my) ltac:(lia)) as Hdiv.
  destruct (Z.div_eucl m' (Zpos my)) as [q r]. destruct Hdiv as [Hqr Hr].
  cbn [fst snd].
  assert (0 <= q)%Z as Hq by nia.
  (* digits *)
  pose proof (digits_lower (Zpos mx) ltac:(lia)) as Hl1.
  pose proof (digits_upper (Zpos my) ltac:(lia)) as Hu2.
  pose proof (digits_nonneg (Zpos mx)) as Hn1.
  pose proof (digits_nonneg (Zpos my)) as Hn2.
  pose proof (digits_nonneg q) as Hnq.
  pose proof (digits_upper q Hq) as Huq.
  fold d1 in Hl1, Hn1. fold d2 in Hu2, Hn2.
  assert (1 <= d1)%Z as Hd1 by (unfold d1; cbn; lia).
  assert (d1 + s - d2 <= Zdigits2 q)%Z as Hdq.
  { destruct (Z_le_gt_dec (d1 + s - d2) (Zdigits2 q)) as [|Hgt]; [assumption|].
    exfalso.
    assert (2 ^ Zdigits2 q * 2 ^ d2 <= 2 ^ (d1 + s - 1))%Z as Hpow.
    { rewrite <- Z.pow_add_r by lia. apply Z.pow_le_mono_r; lia. }
    assert (2 ^ (d1 + s - 1) = 2 ^ (d1 - 1) * 2 ^ s)%Z as Hsplit
      by (rewrite <- Z.pow_add_r by lia; f_equal; lia).
    assert (0 < 2 ^ s)%Z by (apply Z.pow_pos_nonneg; lia).
    assert (0 < 2 ^ Zdigits2 q)%Z by (apply Z.pow_pos_nonneg; lia).
    nia. }
  split; [exact Hq|]. split.
  - (* location *)
    assert (0 < inject_Z (Zpos my)) as HY
      by (change 0 with (inject_Z 0); by rewrite <- Zlt_Qlt).
    pose proof (pow2_pos ey) as Hpey.
    assert (x * pow2 (- e')
            == inject_Z q + inject_Z r / inject_Z (Zpos my)) as Ht.
    { assert (inject_Z (Zpos mx) * pow2 s
              == inject_Z (Zpos my) * inject_Z q + inject_Z r) as Hm.
      { rewrite pow2_Z by lia.
        rewrite <- !inject_Z_mult, <- inject_Z_plus, <- Hqr, Hm'. reflexivity. }
      assert (pow2 ex * pow2 (- e') == pow2 s * pow2 ey) as Hp.
      { rewrite <- !pow2_add. unfold s. f_equiv. lia. }
      unfold x.
      transitivity (inject_Z (Zpos mx) * (pow2 ex * pow2 (- e'))
                    / (inject_Z (Zpos my) * pow2 ey)).
      { field. split; lra. }
      rewrite Hp.
      transitivity (inject_Z (Zpos mx) * pow2 s / inject_Z (Zpos my)).
      { field. split; lra. }
      rewrite Hm. field. lra. }
    eapply located_ext; [symmetry; exact Ht|].
    assert (0 <= inject_Z r) as Hr0
      by (change 0 with (inject_Z 0); rewrite <- Zle_Qle; lia).
    set (Y := inject_Z (Zpos my)) in *.
    set (R := inject_Z r) in *.
    assert (forall c, Z.compare (2 * r) (Zpos my) = c ->
              match c with
              | Lt => 2 * R < Y
              | Eq => 2 * R == Y
              | Gt => Y < 2 * R
              end) as Hcmp.
    { intros c <-. unfold R, Y. change 2 with (inject_Z 2).
      rewrite <- inject_Z_mult.
      destruct (Z.compare_spec (2 * r) (Zpos my)) as [Heq|Hlt|Hgt].
      - by rewrite Heq.
      - by rewrite <- Zlt_Qlt.
      - by rewrite <- Zlt_Qlt. }
    assert (r <> 0%Z -> 0 < R) as Hrpos.
    { intros Hne. unfold R. change 0 with (inject_Z 0). rewrite <- Zlt_Qlt. lia. }
    assert (forall a : Q, a * Y < R -> a < R / Y) as Hdivl
      by (intros a Ha; by apply Qlt_shift_div_l).
    assert (forall a : Q, R < a * Y -> R / Y < a) as Hdivr
      by (intros a Ha; by apply Qlt_shift_div_r).
    assert (R < Y) as HRY by (unfold R, Y; rewrite <- Zlt_Qlt; lia).
    assert (r = 0%Z ->
            located (inject_Z q + R / Y) (shr_record_of_loc q loc_Exact))
      as Hex.
    { intros Hr0'. unfold located. cbn. unfold R. rewrite Hr0'.
      change (inject_Z 0) with 0. field. lra. }
    unfold new_location.
    destruct (Z.even (Zpos my)) eqn:Heven;
      unfold new_location_even, new_location_odd;
      (destruct (Z.eqb_spec r 0) as [Hr0'|Hne]; [exact (Hex Hr0')|]);
      specialize (Hrpos Hne).
    + specialize (Hcmp _ eq_refl).
      destruct (Z.compare (2 * r) (Zpos my)); unfold located; cbn.
      * assert (R / Y == 1 # 2) as Hhalf; [|lra].
        rewrite <- Hcmp. field. lra.
      * split; [assert (0 < R / Y) by (apply Hdivl; lra); lra|].
        assert (R / Y < 1 # 2) by (apply Hdivr; lra). lra.
      * split; [assert ((1 # 2) < R / Y) by (apply Hdivl; lra); lra|].
        assert (R / Y < 1) by (apply Hdivr; lra). lra.
    + assert (forall c, Z.compare (2 * r + 1) (Zpos my) = c ->
                match c with
                | Lt | Eq => 2 * R < Y
                | Gt => Y < 2 * R
                end) as Hcmp'.
      { intros c <-. unfold R, Y. change 2 with (inject_Z 2).
        rewrite <- inject_Z_mult, <- !Zlt_Qlt.
        assert (2 * r <> Zpos my)%Z as Hodd.
        { intros Heq. rewrite <- Heq, Z.even_mul in Heven. discriminate. }
        destruct (Z.compare_spec (2 * r + 1) (Zpos my)); lia. }
      specialize (Hcmp' _ eq_refl).
      destruct (Z.compare (2 * r + 1) (Zpos my)); unfold located; cbn.
      * split; [assert (0 < R / Y) by (apply Hdivl; lra); lra|].
        assert (R / Y < 1 # 2) by (apply Hdivr; lra). lra.
      * split; [assert (0 < R / Y) by (apply Hdivl; lra); lra|].
        assert (R / Y < 1 # 2) by (apply Hdivr; lra). lra.
      * split; [assert ((1 # 2) < R / Y) by (apply Hdivl; lra); lra|].
        assert (R / Y < 1) by (apply Hdivr; lra). lra.
  - (* enough digits *)
    transitivity (fexp64 (d1 + ex - (d2 + ey))); [unfold e'; lia|].
    apply fexp64_mono. unfold s in Hdq. lia.
Qed.

End Division.

Section Primitives.
Import Float.
Local Open Scope Q_scope.

Lemma SFdiv_correct (mx my : positive) (ex ey : Z) :
  let x := inject_Z (Zpos mx) * pow2 ex / (inject_Z (Zpos my) * pow2 ey) in
  x < 2 ->
  let r := SFdiv prec emax (S754_finite false mx ex) (S754_finite false my ey) in
  nonneg_finite r = true
  /\ x - pow2 (-53) <= SF2Q r <= x + pow2 (-53).
Proof.
  intros x Hx r. subst r. unfold SFdiv.
  destruct (div_core_located mx my ex ey) as (Hq & Hloc & Hdig). fold x in Hloc.
  destruct (SFdiv_core_binary prec emax (Zpos mx) ex (Zpos my) ey)
    as [[q e'] l].
  cbn [fst snd xorb] in *.
  destruct (binary_round_aux_correct x 1 q e' l Hq Hloc (or_intror Hdig))
    as (Hf & Hb & _); [lia | exact Hx |].
  split; [exact Hf | exact Hb].
Qed.

Lemma SFadd_correct (r1 r2 : spec_float) :
  nonneg_finite r1 = true ->
  nonneg_finite r2 = true ->
  SF2Q r1 + SF2Q r2 < 2 ->
  let r := SFadd prec emax r1 r2 in
  nonneg_finite r = true
  /\ SF2Q r1 + SF2Q r2 - pow2 (-53) <= SF2Q r
     <= SF2Q r1 + SF2Q r2 + pow2 (-53).
Proof.
  pose proof (pow2_pos (-53)) as Heps.
  destruct r1 as [s1|s1| |[] m1 e1]; try discriminate;
    destruct r2 as [s2|s2| |[] m2 e2]; try discriminate; intros _ _ Hlt r;
    subst r.
  - destruct s1, s2; cbn [SFadd SF2Q nonneg_finite]; (split; [reflexivity | lra]).
  - cbn [SFadd]. split; [reflexivity|]. cbn [SF2Q] in *. lra.
  - cbn [SFadd]. split; [reflexivity|]. cbn [SF2Q] in *. lra.
  - unfold SFadd. cbn [cond_Zopp].
    destruct (shl_align_spec m1 e1 (Z.min e1 e2)) as (_ & Hv1 & _).
    destruct (shl_align_spec m2 e2 (Z.min e1 e2)) as (_ & Hv2 & _).
    set (a := (shl_align m1 e1 (Z.min e1 e2)).1) in *.
    set (b := (shl_align m2 e2 (Z.min e1 e2)).1) in *.
    change (Zpos a + Zpos b)%Z with (Zpos (a + b)). cbn [binary_normalize].
    rewrite Z.min_r in Hv1 by lia. rewrite Z.min_r in Hv2 by lia.
    destruct (binary_round_correct (SF2Q (S754_finite false m1 e1)
                                    + SF2Q (S754_finite false m2 e2))
                1 (a + b) (Z.min e1 e2)) as (Hf & Hb & _);
      [| lia | exact Hlt |].
    + cbn [SF2Q]. rewrite Pos2Z.inj_add, inject_Z_plus, Hv1, Hv2.
      rewrite !inject_Z_mult, <- !pow2_Z by lia.
      assert (pow2 (e1 - Z.min e1 e2) * pow2 (Z.min e1 e2) == pow2 e1) as H1
        by (rewrite <- pow2_add; f_equiv; lia).
      assert (pow2 (e2 - Z.min e1 e2) * pow2 (Z.min e1 e2) == pow2 e2) as H2
        by (rewrite <- pow2_add; f_equiv; lia).
      rewrite <- H1, <- H2. ring.
    + split; [exact Hf | exact Hb].
Qed.

(** The quotient of two counts, as binary64 computes it. *)
Lemma true_div_correct (c total : nat) :
  (0 < c <= total)%nat ->
  (Z.of_nat total < 2 ^ 53)%Z ->
  let q := true_div (Number := binary64) c total in
  is_nonneg_finite q = true
  /\ inject_Z (Z.of_nat c) / inject_Z (Z.of_nat total) - pow2 (-53)
     <= value q
     <= inject_Z (Z.of_nat c) / inject_Z (Z.of_nat total) + pow2 (-53).
Proof.
  intros Hc Ht q. subst q. unfold is_nonneg_finite, value. cbn [true_div binary64].
  rewrite div_spec.
  destruct (float_of_nat_exact c) as (mc & ec & -> & Hvc); [lia | lia |].
  destruct (float_of_nat_exact total) as (mt & et & -> & Hvt); [lia | lia |].
  assert (0 < inject_Z (Z.of_nat total)) as Htpos
    by (change 0 with (inject_Z 0); rewrite <- Zlt_Qlt; lia).
  assert (inject_Z (Z.of_nat c) <= inject_Z (Z.of_nat total)) as Hle
    by (rewrite <- Zle_Qle; lia).
  assert (inject_Z (Zpos mc) * pow2 ec / (inject_Z (Zpos mt) * pow2 et)
          == inject_Z (Z.of_nat c) / inject_Z (Z.of_nat total)) as Hx
    by (by rewrite Hvc, Hvt).
  destruct (SFdiv_correct mc mt ec et) as [Hf Hb].
  - rewrite Hx. apply Qlt_shift_div_r; lra.
  - split; [exact Hf|]. rewrite Hx in Hb. exact Hb.
Qed.

Lemma add_correct (a b : float) :
  is_nonneg_finite a = true ->
  is_nonneg_finite b = true ->
  value a + value b < 2 ->
  is_nonneg_finite (a + b)%float = true
  /\ value a + value b - pow2 (-53) <= value (a + b)%float
     <= value a + value b + pow2 (-53).
Proof.
  unfold is_nonneg_finite, value. rewrite add_spec. apply SFadd_correct.
Qed.

End Primitives.

Section FloatSum.
Import Float NGramModel Occurrences.
Local Open Scope Q_scope.

Lemma inject_nat_succ (j : nat) :
  inject_Z (Z.of_nat (S j)) == inject_Z (Z.of_nat j) + 1.
Proof. rewrite Nat2Z.inj_succ. unfold Z.succ. by rewrite inject_Z_plus. Qed.

Lemma inject_nat_add (a b : nat) :
  inject_Z (Z.of_nat (a + b)) == inject_Z (Z.of_nat a) + inject_Z (Z.of_nat b).
Proof. by rewrite Nat2Z.inj_add, inject_Z_plus. Qed.

Lemma inject_nat_nonneg (a : nat) : 0 <= inject_Z (Z.of_nat a).
Proof. change 0 with (inject_Z 0). rewrite <- Zle_Qle. lia. Qed.

(** The running sum of [generate_token], in binary64, against the exact
    sum: every quotient and every addition is off by at most [2^-53]. *)
Lemma fold_add_correct (total : nat) (cs : list nat) :
  (Z.of_nat total < 2 ^ 53)%Z ->
  forall (acc : float) (a : Q) (j : nat),
    Forall (fun c => (0 < c <= total)%nat) cs ->
    is_nonneg_finite acc = true ->
    a - inject_Z (Z.of_nat j) * pow2 (-52) <= value acc
      <= a + inject_Z (Z.of_nat j) * pow2 (-52) ->
    a + inject_Z (Z.of_nat (sum_list cs)) / inject_Z (Z.of_nat total) <= 1 ->
    inject_Z (Z.of_nat (j + length cs)) * pow2 (-52) <= 1 # 2 ->
    let s :=
      fold_left PrimFloat.add
        (map (fun c => true_div (Number := binary64) c total) cs) acc in
    let exact :=
      a + inject_Z (Z.of_nat (sum_list cs)) / inject_Z (Z.of_nat total) in
    is_nonneg_finite s = true
    /\ exact - inject_Z (Z.of_nat (j + length cs)) * pow2 (-52) <= value s
       <= exact + inject_Z (Z.of_nat (j + length cs)) * pow2 (-52).
Proof.
  intros Htotal.
  assert (pow2 (-52) == 2 * pow2 (-53)) as Heps by reflexivity.
  pose proof (pow2_pos (-53)) as Hpos.
  induction cs as [|c cs IH]; intros acc a j Hcs Hacc Hval Hsum Hlen s exact;
    subst s exact.
  - cbn [map fold_left sum_list length] in *.
    rewrite Nat.add_0_r in *. split; [exact Hacc|].
    change (inject_Z (Z.of_nat 0)) with 0 in *.
    assert (0 / inject_Z (Z.of_nat total) == 0) as H0 by (unfold Qdiv; ring).
    rewrite H0. lra.
  - apply Forall_cons in Hcs as [Hc Hcs].
    cbn [map fold_left sum_list length] in *.
    assert (0 < inject_Z (Z.of_nat total)) as HT
      by (change 0 with (inject_Z 0); rewrite <- Zlt_Qlt; lia).
    assert (inject_Z (Z.of_nat (c + sum_list cs)) / inject_Z (Z.of_nat total)
            == inject_Z (Z.of_nat c) / inject_Z (Z.of_nat total)
               + inject_Z (Z.of_nat (sum_list cs)) / inject_Z (Z.of_nat total))
      as Hsplit by (rewrite inject_nat_add; field; lra).
    rewrite Hsplit in Hsum |- *.
    assert (0 <= inject_Z (Z.of_nat (sum_list cs)) / inject_Z (Z.of_nat total))
      as Hrest.
    { apply Qle_shift_div_l; [exact HT|]. pose proof (inject_nat_nonneg (sum_list cs)). lra. }
    set (qc := inject_Z (Z.of_nat c) / inject_Z (Z.of_nat total)) in *.
    set (rest := inject_Z (Z.of_nat (sum_list cs)) / inject_Z (Z.of_nat total)) in *.
    destruct (true_div_correct c total Hc Htotal) as [Hqf Hqv]. fold qc in Hqv.
    assert (inject_Z (Z.of_nat (j + S (length cs)))
            == inject_Z (Z.of_nat (S j + length cs))) as Hj
      by (f_equiv; f_equiv; lia).
    rewrite Hj in Hlen |- *.
    assert (inject_Z (Z.of_nat (S j)) * pow2 (-52) <= 1 # 2) as Hj1.
    { pose proof (inject_nat_nonneg (length cs)).
      rewrite inject_nat_add in Hlen. pose proof (pow2_pos (-52)). nra. }
    rewrite inject_nat_succ in Hj1.
    destruct (add_correct acc (true_div (Number := binary64) c total) Hacc Hqf)
      as [Hsf Hsv]; [lra|].
    destruct (IH (acc + true_div (Number := binary64) c total)%float
                (a + qc) (S j) Hcs Hsf) as [Hf Hv].
    + rewrite inject_nat_succ. lra.
    + lra.
    + exact Hlen.
    + split; [exact Hf|]. lra.
Qed.

End FloatSum.

(** * The mass of a distribution in binary64 *)

Section FloatTable.
Import Float NGramModel Occurrences.

Variable SENTENCE_START_TOKEN : string.

Lemma values_normalize_any {num : Type} `{Number num} (d : odict nat) :
  values (normalize (num:=num) d)
  = map (fun c => true_div c (sum_list (values d))) (values d).
Proof.
  unfold normalize, values. rewrite !map_map. apply map_ext. by intros [w c].
Qed.

Lemma line_context_occurrences_le (self_n : nat) (tokens context : list string) :
  line_context_occurrences SENTENCE_START_TOKEN self_n tokens context
  <= length tokens.
Proof.
  unfold line_context_occurrences.
  etransitivity; [apply length_filter|]. by rewrite length_seq.
Qed.

Lemma context_occurrences_le (self_n : nat) (corpus : list (list string))
    (context : list string) :
  context_occurrences SENTENCE_START_TOKEN self_n corpus context
  <= sum_list (length <$> corpus).
Proof.
  unfold context_occurrences.
  induction corpus as [|tokens corpus IH]; [done|]. cbn.
  pose proof (line_context_occurrences_le self_n tokens context). lia.
Qed.

Lemma count_le_sum (d : odict nat) :
  Forall (fun c => c <= sum_list (values d)) (values d).
Proof.
  unfold values. induction d as [|[w c] d IH]; [constructor|].
  change (map snd ((w, c) :: d)) with (c :: map snd d).
  change (sum_list (c :: map snd d)) with (c + sum_list (map snd d))%nat.
  constructor; [lia|].
  eapply Forall_impl; [exact IH|]. intros c' Hc'. cbn beta in Hc'. lia.
Qed.

Lemma length_le_sum (d : odict nat) :
  Forall (fun kv => 0 < kv.2) d -> length d <= sum_list (values d).
Proof.
  unfold values. induction 1 as [|[w c] d Hc _ IH]; [done|].
  change (map snd ((w, c) :: d)) with (c :: map snd d).
  change (sum_list (c :: map snd d)) with (c + sum_list (map snd d))%nat.
  cbn [length snd] in *. lia.
Qed.

Local Open Scope Q_scope.

(** In binary64 the mass of a distribution of [k] words is within
    [k * 2^-52] of 1. *)
Lemma total_mass_normalize_float (d : odict nat) :
  well_counted d ->
  (Z.of_nat (sum_list (values d)) < 2 ^ 50)%Z ->
  let mass := total_mass (num:=float) (normalize d) in
  let k := inject_Z (Z.of_nat (length (normalize (num:=float) d))) in
  is_nonneg_finite mass = true
  /\ 1 - k * pow2 (-52) <= value mass <= 1 + k * pow2 (-52).
Proof.
  intros (Hne & _ & Hpos) Hsum mass k. subst mass k.
  unfold total_mass. rewrite values_normalize_any.
  change (@num_add float binary64) with PrimFloat.add.
  assert (length (normalize (num:=float) d) = length (values d)) as ->
    by (unfold normalize, values; by rewrite !length_map).
  set (total := sum_list (values d)) in *.
  assert (0 < total)%nat as Htotal.
  { unfold total. destruct d as [|[w c] d]; [done|].
    apply Forall_cons in Hpos as [Hc _]. cbn in *. lia. }
  assert (length (values d) <= total)%nat as Hlen
    by (unfold values at 1; rewrite length_map; by apply length_le_sum).
  assert (0 < inject_Z (Z.of_nat total)) as HT
    by (change 0 with (inject_Z 0); rewrite <- Zlt_Qlt; lia).
  assert (inject_Z (Z.of_nat total) / inject_Z (Z.of_nat total) == 1) as Hone
    by (field; lra).
  destruct (fold_add_correct total (values d) ltac:(lia)
              (num_zero (Number := binary64)) 0 0) as [Hf Hv].
  - apply Forall_forall. intros c Hc.
    pose proof (count_le_sum d) as Hle. rewrite Forall_forall in Hle.
    specialize (Hle c Hc). split; [|exact Hle].
    unfold values in Hc. apply list_elem_of_fmap in Hc as ([w c'] & -> & Hin).
    rewrite Forall_forall in Hpos. exact (Hpos _ Hin).
  - reflexivity.
  - change (value num_zero) with 0. change (inject_Z (Z.of_nat 0)) with 0. lra.
  - fold total. rewrite Hone. lra.
  - cbn [Nat.add].
    assert (inject_Z (Z.of_nat (length (values d))) <= inject_Z (2 ^ 50)) as Hk
      by (rewrite <- Zle_Qle; lia).
    assert (inject_Z (2 ^ 50) * pow2 (-52) == 1 # 4) as H4 by reflexivity.
    pose proof (pow2_pos (-52)). nra.
  - cbn [Nat.add] in Hv. fold total in Hv. rewrite Hone in Hv.
    split; [exact Hf|]. lra.
Qed.

(** C1: in the table that training builds, the probabilities of every
    context present sum to 1: exactly over exact rationals, and in binary64,
    for a corpus of fewer than [2^50] tokens, to a finite number within
    [k * 2^-52] of 1, where [k] is the number of words of the
    distribution. *)
Theorem probabilities_sum_to_one (self_n : nat) (corpus : list (list string))
    (context : list string) :
  (1 <= self_n)%nat ->
  (forall word_probs : odict Q,
     init_ngram_dict SENTENCE_START_TOKEN self_n corpus !! context
     = Some word_probs ->
     total_mass word_probs == 1)
  /\ ((Z.of_nat (sum_list (length <$> corpus)) < 2 ^ 50)%Z ->
      forall word_probs : odict float,
        init_ngram_dict SENTENCE_START_TOKEN self_n corpus !! context
        = Some word_probs ->
        let k := inject_Z (Z.of_nat (length word_probs)) in
        is_nonneg_finite (total_mass word_probs) = true
        /\ 1 - k * pow2 (-52) <= value (total_mass word_probs)
           <= 1 + k * pow2 (-52)).
Proof.
  intros Hn. split.
  - intros word_probs Hc. apply lookup_init_ngram_dict in Hc as (d & Hd & ->).
    apply total_mass_normalize. by eapply count_corpus_well_counted.
  - intros Hsize word_probs Hc.
    apply lookup_init_ngram_dict in Hc as (d & Hd & ->).
    apply total_mass_normalize_float; [by eapply count_corpus_well_counted|].
    destruct (count_corpus_occurrences SENTENCE_START_TOKEN self_n Hn corpus
                context "") as [_ Htotal].
    unfold get_total in Htotal. rewrite Hd in Htotal. simpl default in Htotal.
    pose proof (context_occurrences_le self_n corpus context). lia.
Qed.

End FloatTable.

Lemma probabilities_sum_to_one_witness :
  let exact :=
    NGramModel.normalize (num:=Q) [("a", 1); ("b", 4); ("c", 1); ("d", 1)] in
  let rounded :=
    NGramModel.normalize (num:=float) [("a", 1); ("b", 4); ("c", 1); ("d", 1)] in
  (NGramModel.total_mass exact == 1)%Q
  /\ Float.is_nonneg_finite (NGramModel.total_mass rounded) = true
  /\ (1 - inject_Z (Z.of_nat (length rounded)) * Float.pow2 (-52)
      <= Float.value (NGramModel.total_mass rounded)
      <= 1 + inject_Z (Z.of_nat (length rounded)) * Float.pow2 (-52))%Q.
Proof.
  destruct (probabilities_sum_to_one sample_start 1
              (Corpus.iter sample_end_chars sample_end ["a b b b b c d"]) [])
    as [Hexact Hrounded]; [lia|].
  split.
  - apply Hexact. vm_compute. reflexivity.
  - apply Hrounded; vm_compute; reflexivity.
Defined.

(** * Binary64: comparisons and the draws of [random.random()] *)

Section Compare.
Import Float.
Local Open Scope Q_scope.

Lemma canonical_exponent (m : positive) (e : Z) :
  valid_binary (S754_finite false m e) = true ->
  e = fexp64 (Zpos (digits2_pos m) + e).
Proof.
  cbn [SpecFloat.valid_binary]. unfold bounded, canonical_mantissa.
  rewrite fexp_fexp64. intros Hv. apply andb_prop in Hv as [Hc _].
  apply Z.eqb_eq in Hc. lia.
Qed.

Lemma positive_value (m : positive) (e : Z) : 0 < inject_Z (Zpos m) * pow2 e.
Proof.
  pose proof (pow2_pos e).
  assert (0 < inject_Z (Zpos m))
    by (change 0 with (inject_Z 0); by rewrite <- Zlt_Qlt).
  nra.
Qed.

(** Of two binary64 numbers the one with the smaller exponent is the
    smaller one. *)
Lemma valid_exponent_lt (m1 m2 : positive) (e1 e2 : Z) :
  valid_binary (S754_finite false m1 e1) = true ->
  valid_binary (S754_finite false m2 e2) = true ->
  (e1 < e2)%Z ->
  inject_Z (Zpos m1) * pow2 e1 < inject_Z (Zpos m2) * pow2 e2.
Proof.
  intros H1 H2 Hlt.
  apply canonical_exponent in H1, H2. unfold fexp64 in H1, H2.
  pose proof (digits2_pos_bounds m1) as [_ Hu].
  pose proof (digits2_pos_bounds m2) as [Hl _].
  assert (Zpos (digits2_pos m1) <= 53)%Z as Hd1 by lia.
  assert (Zpos (digits2_pos m2) = 53)%Z as Hd2 by lia.
  rewrite Hd2 in Hl. change (53 - 1)%Z with 52%Z in Hl.
  assert (Zpos m1 < 2 ^ 53)%Z as Hm1.
  { eapply Z.lt_le_trans; [exact Hu|]. apply Z.pow_le_mono_r; lia. }
  assert (inject_Z (Zpos m1) < pow2 53) as Hq1
    by (rewrite pow2_Z by lia; by rewrite <- Zlt_Qlt).
  assert (pow2 52 <= inject_Z (Zpos m2)) as Hq2
    by (rewrite pow2_Z by lia; by rewrite <- Zle_Qle).
  assert (pow2 53 * pow2 e1 <= pow2 52 * pow2 e2) as Hp.
  { rewrite <- !pow2_add. apply pow2_le. lia. }
  pose proof (pow2_pos e1). pose proof (pow2_pos e2).
  pose proof (pow2_pos 52). pose proof (pow2_pos 53).
  apply Qlt_le_trans with (pow2 53 * pow2 e1); [nra|].
  apply Qle_trans with (pow2 52 * pow2 e2); [exact Hp | nra].
Qed.

(** [SFcompare] orders the valid numbers that are zero or positive as
    their values. *)
Lemma SFcompare_value (r1 r2 : spec_float) :
  valid_binary r1 = true ->
  valid_binary r2 = true ->
  nonneg_finite r1 = true ->
  nonneg_finite r2 = true ->
  match SFcompare r1 r2 with
  | Some Lt => SF2Q r1 < SF2Q r2
  | Some Eq => SF2Q r1 == SF2Q r2
  | Some Gt => SF2Q r2 < SF2Q r1
  | None => False
  end.
Proof.
  destruct r1 as [s1|s1| |[] m1 e1]; try discriminate;
    destruct r2 as [s2|s2| |[] m2 e2]; try discriminate; intros V1 V2 _ _;
    cbn [SFcompare SF2Q].
  - reflexivity.
  - pose proof (positive_value m2 e2). lra.
  - pose proof (positive_value m1 e1). lra.
  - destruct (Z.compare_spec e1 e2) as [->|Hlt|Hgt].
    + change (Pos.compare_cont Eq m1 m2) with (Pos.compare m1 m2).
      pose proof (pow2_pos e2).
      destruct (Pos.compare_spec m1 m2) as [->|Hm|Hm].
      * reflexivity.
      * assert (inject_Z (Zpos m1) < inject_Z (Zpos m2))
          by (rewrite <- Zlt_Qlt; lia).
        nra.
      * assert (inject_Z (Zpos m2) < inject_Z (Zpos m1))
          by (rewrite <- Zlt_Qlt; lia).
        nra.
    + pose proof (valid_exponent_lt m1 m2 e1 e2 V1 V2 Hlt). lra.
    + pose proof (valid_exponent_lt m2 m1 e2 e1 V2 V1 ltac:(lia)). lra.
Qed.

Lemma leb_value (x y : float) :
  is_nonneg_finite x = true ->
  is_nonneg_finite y = true ->
  (x <=? y)%float = true <-> value x <= value y.
Proof.
  unfold is_nonneg_finite, value. intros Hx Hy. rewrite leb_spec. unfold SFleb.
  pose proof (SFcompare_value _ _ (Prim2SF_valid x) (Prim2SF_valid y) Hx Hy)
    as Hc.
  destruct (SFcompare (Prim2SF x) (Prim2SF y)) as [[]|]; [| | |done];
    split; intros H; try done; try lra.
Qed.

Lemma ltb_value (x y : float) :
  is_nonneg_finite x = true ->
  is_nonneg_finite y = true ->
  (x <? y)%float = true <-> value x < value y.
Proof.
  unfold is_nonneg_finite, value. intros Hx Hy. rewrite ltb_spec. unfold SFltb.
  pose proof (SFcompare_value _ _ (Prim2SF_valid x) (Prim2SF_valid y) Hx Hy)
    as Hc.
  destruct (SFcompare (Prim2SF x) (Prim2SF y)) as [[]|]; [| | |done];
    split; intros H; try done; try lra.
Qed.

End Compare.

Section RandomValues.
Import Float.
Local Open Scope Q_scope.

(** [random_value k] is the binary64 number [k / 2^53]. *)
Lemma random_value_spec (k : Z) :
  (0 <= k < 2 ^ 53)%Z ->
  is_nonneg_finite (random_value k) = true
  /\ value (random_value k) == inject_Z k * pow2 (-53).
Proof.
  intros Hk. unfold is_nonneg_finite, value, random_value, FloatOps.Z.ldexp.
  rewrite ldshiftexp_spec.
  match goal with
  | |- context [SFldexp _ _ _ ?z] => change z with (-53)%Z
  end.
  destruct (Z.eq_dec k 0%Z) as [->|Hne].
  - split; [reflexivity|]. cbn. reflexivity.
  - destruct (float_of_nat_exact (Z.to_nat k)) as (m & e & Hr & Hv);
      [lia | lia |].
    unfold float_of_nat in Hr. rewrite Z2Nat.id in Hr, Hv by lia.
    pose proof (Prim2SF_valid (of_uint63 (of_Z k))) as Hvalid.
    rewrite Hr in Hvalid |- *. cbn [SFldexp].
    apply canonical_exponent in Hvalid. unfold fexp64 in Hvalid.
    pose proof (digits2_pos_bounds m) as [_ Hu].
    assert (Zpos (digits2_pos m) <= 53)%Z as Hd by lia.
    assert (Zpos m < 2 ^ 53)%Z as Hm.
    { eapply Z.lt_le_trans; [exact Hu|]. apply Z.pow_le_mono_r; lia. }
    assert (-53 < e)%Z as He.
    { apply pow2_lt_inv.
      assert (inject_Z (Zpos m) < pow2 53)
        by (rewrite pow2_Z by lia; by rewrite <- Zlt_Qlt).
      assert (1 <= inject_Z k)
        by (change 1 with (inject_Z 1); rewrite <- Zle_Qle; lia).
      pose proof (pow2_opp 53) as Hopp. pose proof (pow2_pos e).
      pose proof (pow2_pos (-53)). pose proof (pow2_pos 53).
      change (- (53))%Z with (-53)%Z in Hopp. nra. }
    destruct (binary_round_correct (inject_Z k * pow2 (-53)) 0 m (e + -53))
      as (Hf & _ & Hexact).
    + rewrite pow2_add, <- Hv. ring.
    + lia.
    + change (pow2 0) with 1.
      assert (inject_Z k < pow2 53)
        by (rewrite pow2_Z by lia; rewrite <- Zlt_Qlt; lia).
      pose proof (pow2_opp 53) as Hopp. pose proof (pow2_pos (-53)).
      change (- (53))%Z with (-53)%Z in Hopp. nra.
    + split; [exact Hf|]. apply Hexact. cbn [Zdigits2]. unfold fexp64. lia.
Qed.

(** Below every number that is zero or positive, and above every bound
    that is more than [2^-53] below it and below [1 - 2^-53], there is a
    value of [random.random()]. *)
Lemma random_value_between (s : float) (bound : Q) :
  is_nonneg_finite s = true ->
  bound < value s - pow2 (-53) ->
  bound < 1 - pow2 (-53) ->
  exists k : Z,
    (0 <= k < 2 ^ 53)%Z
    /\ bound < value (random_value k) <= value s.
Proof.
  intros Hs Hb H1.
  pose proof (nonneg_finite_value _ Hs) as H0. fold (value s) in H0.
  pose proof (pow2_pos 53) as HP. pose proof (pow2_pos (-53)) as HN.
  pose proof (pow2_opp 53) as Hopp. change (- (53))%Z with (-53)%Z in Hopp.
  set (f := Qfloor (value s * pow2 53)).
  pose proof (Qfloor_le (value s * pow2 53)) as Hfl.
  pose proof (Qlt_floor (value s * pow2 53)) as Hfu.
  fold f in Hfl, Hfu. rewrite inject_Z_plus in Hfu.
  change (inject_Z 1) with 1 in Hfu.
  assert (0 <= f)%Z as Hf0.
  { unfold f. change 0%Z with (Qfloor 0). apply Qfloor_resp_le. nra. }
  destruct (Z_lt_le_dec f (2 ^ 53)%Z) as [Hlt|Hge].
  - exists f. split; [lia|].
    destruct (random_value_spec f ltac:(lia)) as [_ ->].
    split; nra.
  - exists (2 ^ 53 - 1)%Z. split; [lia|].
    destruct (random_value_spec (2 ^ 53 - 1)%Z ltac:(lia)) as [_ ->].
    assert (inject_Z (2 ^ 53 - 1) == pow2 53 - 1) as ->.
    { unfold Z.sub. rewrite inject_Z_plus, <- pow2_Z by lia. reflexivity. }
    assert (pow2 53 <= inject_Z f)
      by (rewrite pow2_Z by lia; by rewrite <- Zle_Qle).
    split; nra.
Qed.

End RandomValues.

(** * Binary64: a draw for every word of a distribution *)

Section FloatSelect.
Import Float NGramModel Occurrences.

Lemma sum_list_take_le (k : nat) (l : list nat) :
  sum_list (take k l) <= sum_list l.
Proof.
  revert k. induction l as [|c l IH]; intros [|k]; cbn [firstn]; try done.
  - change (sum_list []) with 0%nat. lia.
  - change (sum_list (c :: take k l)) with (c + sum_list (take k l))%nat.
    change (sum_list (c :: l)) with (c + sum_list l)%nat.
    specialize (IH k). lia.
Qed.

Lemma sum_list_app_nat (l1 l2 : list nat) :
  sum_list (l1 ++ l2) = sum_list l1 + sum_list l2.
Proof.
  induction l1 as [|c l1 IH]; [done|].
  change (sum_list ((c :: l1) ++ l2)) with (c + sum_list (l1 ++ l2))%nat.
  change (sum_list (c :: l1)) with (c + sum_list l1)%nat. lia.
Qed.

Lemma normalize_app (total : nat) (before after : odict nat) (word : string)
    (c : nat) :
  map (fun '(word, c) => (word, true_div (Number := binary64) c total))
    (before ++ (word, c) :: after)
  = map (fun '(word, c) => (word, true_div (Number := binary64) c total)) before
    ++ (word, true_div (Number := binary64) c total)
    :: map (fun '(word, c) => (word, true_div (Number := binary64) c total))
         after.
Proof. by rewrite map_app. Qed.

Lemma values_map_div (total : nat) (l : odict nat) :
  values (map (fun '(word, c) => (word, true_div (Number := binary64) c total)) l)
  = map (fun c => true_div (Number := binary64) c total) (values l).
Proof.
  unfold values. rewrite !map_map. apply map_ext. by intros [w c].
Qed.

Local Open Scope Q_scope.

(** The running sum of the step after any first entries of a distribution,
    in binary64, against the exact sum. *)
Lemma prefix_mass (total : nat) (cs : list nat) :
  (Z.of_nat total < 2 ^ 25)%Z ->
  Forall (fun c => (0 < c)%nat) cs ->
  (sum_list cs <= total)%nat ->
  let s :=
    fold_left PrimFloat.add
      (map (fun c => true_div (Number := binary64) c total) cs) 0%float in
  let exact := inject_Z (Z.of_nat (sum_list cs)) / inject_Z (Z.of_nat total) in
  let k := inject_Z (Z.of_nat (length cs)) in
  is_nonneg_finite s = true
  /\ exact - k * pow2 (-52) <= value s <= exact + k * pow2 (-52).
Proof.
  intros Htotal Hpos Hsum s exact k. subst s exact k.
  assert (length cs <= sum_list cs)%nat as Hlen.
  { clear Hsum. induction Hpos as [|c cs Hc _ IH]; [done|].
    change (sum_list (c :: cs)) with (c + sum_list cs)%nat.
    cbn [length]. cbn beta in Hc. lia. }
  assert (cs = [] \/ (0 < total)%nat) as [->|Hpos_total].
  { destruct Hpos as [|c cs Hc _]; [by left | right].
    change (sum_list (c :: cs)) with (c + sum_list cs)%nat in Hsum.
    cbn beta in Hc. lia. }
  { cbn [map fold_left length]. split; [reflexivity|].
    change (sum_list []) with 0%nat.
    change (value 0) with 0. change (inject_Z (Z.of_nat 0)) with 0.
    unfold Qdiv. rewrite !Qmult_0_l. lra. }
  assert (0 < inject_Z (Z.of_nat total)) as HT
    by (change 0 with (inject_Z 0); rewrite <- Zlt_Qlt; lia).
  destruct (fold_add_correct total cs ltac:(lia) 0%float 0 0) as [Hf Hv].
  - apply Forall_forall. intros c Hc. split.
    + rewrite Forall_forall in Hpos. by apply Hpos.
    + assert (c <= sum_list cs)%nat; [|lia].
      clear -Hc. induction cs as [|c' cs IH]; [by apply elem_of_nil in Hc|].
      change (sum_list (c' :: cs)) with (c' + sum_list cs)%nat.
      apply elem_of_cons in Hc as [->|Hc]; [lia|]. specialize (IH Hc). lia.
  - reflexivity.
  - change (value 0) with 0. change (inject_Z (Z.of_nat 0)) with 0. lra.
  - assert (inject_Z (Z.of_nat (sum_list cs)) / inject_Z (Z.of_nat total) <= 1);
      [|lra].
    apply Qle_shift_div_r; [exact HT|].
    assert (inject_Z (Z.of_nat (sum_list cs)) <= inject_Z (Z.of_nat total))
      by (rewrite <- Zle_Qle; lia).
    lra.
  - cbn [Nat.add].
    assert (inject_Z (Z.of_nat (length cs)) <= inject_Z (2 ^ 25)) as Hk
      by (rewrite <- Zle_Qle; lia).
    assert (inject_Z (2 ^ 25) * pow2 (-52) <= 1 # 2) as H4 by (by vm_compute).
    pose proof (pow2_pos (-52)). nra.
  - cbn [Nat.add] in Hv. split; [exact Hf|]. lra.
Qed.

(** Every word of a distribution of binary64 probabilities is selected by
    some value of [random.random()], when the counts add up to less than
    [2^25]: one between the running sums before the word and with it. *)
Lemma float_select (d : odict nat) (word : string) :
  well_counted d ->
  (Z.of_nat (sum_list (values d)) < 2 ^ 25)%Z ->
  word ∈ keys d ->
  exists p : float,
    random_draw p
    /\ walk (normalize (num:=float) d) (keys (normalize (num:=float) d)) p
         num_zero
       = Some word.
Proof.
  intros (_ & Hnd & Hpos) Hsize Hw.
  unfold keys in Hw. apply list_elem_of_fmap in Hw as ([w c] & Heq & Hin).
  cbn in Heq. subst w.
  apply list_elem_of_split in Hin as (before & after & Hd).
  set (total := sum_list (values d)) in *.
  set (g := fun '(word, c) => (word, true_div (Number := binary64) c total)
            : string * float).
  set (v := true_div (Number := binary64) c total).
  assert (normalize d = map g before ++ (word, v) :: map g after) as Hn.
  { unfold normalize. cbv zeta. fold total. rewrite Hd. apply normalize_app. }
  assert (values d = values before ++ c :: values after) as Hvals
    by (rewrite Hd; unfold values; by rewrite map_app).
  assert (Forall (fun c => (0 < c)%nat) (values d)) as Hvpos.
  { unfold values. apply Forall_fmap. exact Hpos. }
  assert (total = sum_list (values before) + c + sum_list (values after))%nat
    as Htotal.
  { unfold total. rewrite Hvals, sum_list_app_nat.
    change (sum_list (c :: values after)) with (c + sum_list (values after))%nat.
    lia. }
  assert (0 < c)%nat as Hc.
  { rewrite Forall_forall in Hvpos. apply Hvpos. rewrite Hvals.
    apply elem_of_app. right. apply list_elem_of_here. }
  assert (length (values before) + 1 <= total)%nat as Hlen.
  { assert (length (values d) <= total)%nat as Hl
      by (unfold values at 1; rewrite length_map; by apply length_le_sum).
    rewrite Hvals, length_app in Hl. cbn [length] in Hl. lia. }
  set (vb := values before) in *.
  (* the running sum with the word *)
  destruct (prefix_mass total (vb ++ [c]) Hsize) as [Hjf Hjv].
  { rewrite Hvals in Hvpos. apply Forall_app in Hvpos as [Hb Ha].
    apply Forall_app. split; [exact Hb|]. by apply Forall_singleton. }
  { rewrite sum_list_app_nat. change (sum_list [c]) with (c + 0)%nat. lia. }
  set (sj := fold_left PrimFloat.add
               (map (fun c => true_div (Number := binary64) c total) (vb ++ [c]))
               0%float) in *.
  (* the quantities as rationals *)
  assert (0 < total)%nat as Htpos by lia.
  assert (0 < inject_Z (Z.of_nat total)) as HT
    by (change 0 with (inject_Z 0); rewrite <- Zlt_Qlt; lia).
  assert (inject_Z (Z.of_nat total) <= 33554432) as HTu.
  { change 33554432 with (inject_Z (2 ^ 25)). rewrite <- Zle_Qle. lia. }
  set (Tq := inject_Z (Z.of_nat total)) in *.
  set (a := inject_Z (Z.of_nat (sum_list vb)) / Tq).
  set (q := inject_Z (Z.of_nat c) / Tq).
  set (J := inject_Z (Z.of_nat (length vb))).
  assert (pow2 (-52) == 1 # 4503599627370496) as Hu by reflexivity.
  assert (pow2 (-53) == (1 # 2) * pow2 (-52)) as Hhalf by reflexivity.
  set (u := pow2 (-52)) in *.
  assert (0 <= J) as HJ0 by apply inject_nat_nonneg.
  assert (J + 1 <= Tq) as HJT.
  { unfold J, Tq. change 1 with (inject_Z (Z.of_nat 1)).
    rewrite <- inject_nat_add, <- Zle_Qle. lia. }
  assert (0 <= a) as Ha0.
  { unfold a. apply Qle_shift_div_l; [exact HT|].
    pose proof (inject_nat_nonneg (sum_list vb)). lra. }
  assert (q * Tq == inject_Z (Z.of_nat c)) as HqT by (unfold q; field; lra).
  assert (1 <= inject_Z (Z.of_nat c)) as HC1.
  { change 1 with (inject_Z 1). rewrite <- Zle_Qle. lia. }
  assert (a + q <= 1) as Haq.
  { assert (a + q == (inject_Z (Z.of_nat (sum_list vb)) + inject_Z (Z.of_nat c))
                     / Tq) as -> by (unfold a, q; field; lra).
    apply Qle_shift_div_r; [exact HT|]. rewrite <- inject_nat_add.
    unfold Tq. rewrite Qmult_1_l, <- Zle_Qle. lia. }
  assert ((2 * J + 2) * u < q) as Hkey.
  { assert ((2 * J + 2) * u * Tq < 1) as Hlt.
    { assert ((J + 1) * Tq <= 33554432 * 33554432) by nra.
      rewrite Hu. nra. }
    assert (0 < u) by (rewrite Hu; reflexivity).
    nra. }
  assert (0 < u) as Hupos by (rewrite Hu; reflexivity).
  assert (a + q - (J + 1) * u <= value sj) as Hjlow.
  { cbv zeta in Hjv. destruct Hjv as [Hlow _].
    rewrite sum_list_app_nat, length_app in Hlow.
    change (sum_list [c]) with (c + 0)%nat in Hlow. cbn [length] in Hlow.
    rewrite Nat.add_0_r, !inject_nat_add in Hlow.
    change (inject_Z (Z.of_nat 1)) with 1 in Hlow.
    fold Tq J in Hlow.
    assert ((inject_Z (Z.of_nat (sum_list vb)) + inject_Z (Z.of_nat c)) / Tq
            == a + q) as Hsplit by (unfold a, q; field; lra).
    rewrite Hsplit in Hlow. exact Hlow. }
  (* the running sums before the word *)
  assert (forall k, (k < length vb)%nat ->
            let sk := fold_left PrimFloat.add
                        (map (fun c => true_div (Number := binary64) c total)
                           (take (S k) vb)) 0%float in
            is_nonneg_finite sk = true /\ value sk <= a + J * u) as Hbefore.
  { intros k Hk sk. subst sk.
    pose proof (sum_list_take_le (S k) vb) as Hsk.
    destruct (prefix_mass total (take (S k) vb) Hsize) as [Hkf Hkv].
    { rewrite Hvals in Hvpos. apply Forall_app in Hvpos as [Hb _].
      by apply Forall_take. }
    { lia. }
    split; [exact Hkf|]. cbv zeta in Hkv. destruct Hkv as [_ Hup].
    rewrite length_take, Nat.min_l in Hup by lia. fold Tq u in Hup.
    assert (inject_Z (Z.of_nat (sum_list (take (S k) vb))) / Tq <= a) as H1.
    { unfold a, Qdiv. apply Qmult_le_compat_r.
      - rewrite <- Zle_Qle. lia.
      - apply Qlt_le_weak, Qinv_lt_0_compat. exact HT. }
    assert (inject_Z (Z.of_nat (S k)) <= J) as H2
      by (unfold J; rewrite <- Zle_Qle; lia).
    nra. }
  (* the draw *)
  destruct (random_value_between sj (a + J * u) Hjf) as (k & Hk & Hlo & Hhi).
  { rewrite Hhalf. nra. }
  { rewrite Hhalf. nra. }
  destruct (random_value_spec k Hk) as [Hpf _].
  exists (random_value k). split; [by exists k|].
  rewrite Hn.
  apply (walk_first word v (map g after) (map g before) [] num_zero
           (random_value k)).
  { cbn [app]. rewrite <- Hn, keys_normalize. exact Hnd. }
  assert (forall l, values (map g l)
                    = map (fun c => true_div (Number := binary64) c total)
                        (values l)) as Hvg
    by (intros l; apply values_map_div).
  split.
  - change (map g before ++ [(word, v)]) with (map g before ++ map g [(word, c)]).
    rewrite <- map_app, Hvg.
    assert (values (before ++ [(word, c)]) = vb ++ [c]) as ->
      by (unfold vb, values; by rewrite map_app).
    change (@num_add float binary64) with PrimFloat.add.
    change (@num_zero float binary64) with 0%float. fold sj.
    change (num_ge sj (random_value k)) with (random_value k <=? sj)%float.
    by apply leb_value.
  - intros i Hi. rewrite length_map in Hi.
    rewrite firstn_map, Hvg.
    assert (values (take (S i) before) = take (S i) vb) as ->
      by (unfold vb, values; by rewrite firstn_map).
    change (@num_add float binary64) with PrimFloat.add.
    change (@num_zero float binary64) with 0%float.
    destruct (Hbefore i) as [Hif Hiv].
    { unfold vb, values. by rewrite length_map. }
    cbv zeta in Hif, Hiv.
    set (si := fold_left PrimFloat.add (map _ (take (S i) vb)) 0%float) in *.
    change (num_ge si (random_value k)) with (random_value k <=? si)%float.
    destruct (random_value k <=? si)%float eqn:E; [|done].
    apply leb_value in E; [|done..]. lra.
Qed.

End FloatSelect.

(** * Generation can always end *)

Section Termination.
Import Py NGramModel Occurrences.

Context {num : Type} `{Number num}.
Variable SENTENCE_START_TOKEN : string.
Variable SENTENCE_END_TOKEN : string.
Variable self_n : nat.
Variable corpus : list (list string).
Variable is_draw : num -> Prop.

Local Abbreviation self :=
  (__init__ (num:=num) SENTENCE_START_TOKEN corpus self_n).
Local Abbreviation window := (NGramModel.window SENTENCE_START_TOKEN self_n).
Local Abbreviation loop := (NGramModel.loop (num:=num) SENTENCE_END_TOKEN).

Hypothesis n_positive : 1 <= self_n.
Hypothesis lines_end :
  forall tokens, tokens ∈ corpus -> last tokens = Some SENTENCE_END_TOKEN.
Hypothesis selectable :
  forall tokens (j : nat) (word : string),
    tokens ∈ corpus ->
    tokens !! j = Some word ->
    exists p, is_draw p
              /\ generate_token self (window tokens j) p = (self, Returned word).

(** A word that follows a context does so at some position of some line. *)
Lemma occurrences_position (context : list string) (word : string) :
  0 < occurrences SENTENCE_START_TOKEN self_n corpus context word ->
  exists tokens j,
    tokens ∈ corpus /\ window tokens j = context /\ tokens !! j = Some word.
Proof.
  unfold occurrences. clear lines_end selectable.
  induction corpus as [|tokens corpus' IH]; cbn; [lia|]. intros Hpos.
  destruct (decide (0 < line_occurrences SENTENCE_START_TOKEN self_n tokens
                         context word)) as [Hline|Hline].
  - unfold line_occurrences in Hline.
    destruct (filter _ _) as [|j js] eqn:Hf; [cbn in Hline; lia|].
    assert (j ∈ filter (follows SENTENCE_START_TOKEN self_n tokens context word)
                  (seq 0 (length tokens))) as Hj
      by (rewrite Hf; apply list_elem_of_here).
    apply list_elem_of_filter in Hj as [[Hw Ht] _].
    exists tokens, j. split; [apply list_elem_of_here | done].
  - destruct IH as (tokens' & j & Hin & Hw & Ht); [unfold id in *; lia|].
    exists tokens', j. split; [by apply list_elem_of_further | done].
Qed.

(** From the window of a position of a line, the draws that follow the line
    up to its next end marker make the loop return. *)
Lemma follow_from (tokens post : list string) :
  tokens ∈ corpus ->
  forall (suf past : list string) (sentence : string),
    tokens = past ++ suf ++ SENTENCE_END_TOKEN :: post ->
    SENTENCE_END_TOKEN ∉ suf ->
    exists draws,
      length draws = S (length suf)
      /\ Forall is_draw draws
      /\ loop draws self sentence (window tokens (length past))
         = (self, Some (Returned (fold_left render suf sentence))).
Proof.
  intros Hin. induction suf as [|t suf IH]; intros past sentence Htok Hsuf.
  - destruct (selectable tokens (length past) SENTENCE_END_TOKEN Hin)
      as (p & Hp & Hg).
    { rewrite Htok. apply list_lookup_middle. done. }
    exists [p]. split; [done|]. split; [by apply Forall_singleton|].
    simpl. rewrite Hg. by rewrite String.eqb_refl.
  - apply not_elem_of_cons in Hsuf as [Hne Hsuf].
    assert (tokens !! length past = Some t) as Ht.
    { rewrite Htok. apply list_lookup_middle. done. }
    destruct (selectable tokens (length past) t Hin Ht) as (p & Hp & Hg).
    destruct (IH (past ++ [t]) (render sentence t)) as (draws & Hlen & Hall & Hl).
    { by rewrite <- app_assoc. }
    { done. }
    exists (p :: draws). split; [simpl; lia|]. split; [by apply Forall_cons|].
    simpl. rewrite Hg.
    assert (String.eqb t SENTENCE_END_TOKEN = false) as ->
      by (by apply String.eqb_neq).
    rewrite (window_next _ _ _ _ _ n_positive Ht).
    rewrite length_app in Hl. simpl in Hl.
    by replace (length past + 1) with (S (length past)) in Hl by lia.
Qed.

(** At every position of a line the loop can end within the rest of the
    line. *)
Lemma can_end_here (tokens : list string) (j : nat) (sentence : string) :
  tokens ∈ corpus ->
  j < length tokens ->
  exists more sentence',
    length more <= length tokens
    /\ Forall is_draw more
    /\ loop more self sentence (window tokens j)
       = (self, Some (Returned sentence')).
Proof.
  intros Hin Hj. pose proof (lines_end tokens Hin) as Hlast.
  rewrite last_lookup in Hlast.
  assert (SENTENCE_END_TOKEN ∈ drop j tokens) as Hend.
  { apply (list_elem_of_lookup_2 _ (pred (length tokens) - j)).
    rewrite lookup_drop. rewrite <- Hlast. f_equal. lia. }
  apply list_elem_of_split_l in Hend as (suf & post & Hdrop & Hsuf).
  destruct (follow_from tokens post Hin suf (take j tokens) sentence)
    as (draws & Hlen & Hall & Hl).
  { by rewrite <- Hdrop, take_drop. }
  { done. }
  rewrite length_take, Nat.min_l in Hl by lia.
  exists draws, (fold_left render suf sentence). split; [|done].
  assert (length (drop j tokens) = S (length suf + length post)) as Hd
    by (rewrite Hdrop, length_app; simpl; lia).
  rewrite length_drop in Hd. lia.
Qed.

(** A step that returns a token other than the end marker leads to the
    window of a position of some line. *)
Lemma step_reach (tokens : list string) (j : nat) (p : num) (token : string)
    self' :
  generate_token self (window tokens j) p = (self', Returned token) ->
  token <> SENTENCE_END_TOKEN ->
  self' = self
  /\ exists tokens' j',
       tokens' ∈ corpus /\ j' < length tokens'
       /\ drop 1 (window tokens j ++ [token]) = window tokens' j'.
Proof.
  intros Hg Hne.
  apply generate_token_returned in Hg as (-> & wp & Hwp & Hkey).
  split; [done|].
  apply (table_key_iff (num:=num) SENTENCE_START_TOKEN self_n corpus _ wp token
           n_positive Hwp) in Hkey.
  apply occurrences_position in Hkey as (tokens' & j' & Hin & Hw & Ht).
  exists tokens', (S j'). split; [done|]. split.
  - pose proof (lines_end tokens' Hin) as Hlast. rewrite last_lookup in Hlast.
    apply lookup_lt_Some in Ht as Hlt.
    destruct (decide (S j' < length tokens')) as [|Hge]; [done|].
    assert (j' = pred (length tokens')) as -> by lia. congruence.
  - rewrite <- Hw. by apply window_next.
Qed.

Lemma can_end_from (draws : list num) :
  forall (tokens : list string) (j : nat) (sentence : string) self',
    tokens ∈ corpus ->
    j < length tokens ->
    loop draws self sentence (window tokens j) = (self', None) ->
    exists more sentence' tokens',
      tokens' ∈ corpus
      /\ length more <= length tokens'
      /\ Forall is_draw more
      /\ loop (draws ++ more) self sentence (window tokens j)
         = (self, Some (Returned sentence')).
Proof.
  induction draws as [|p draws IH]; intros tokens j sentence self' Hin Hj Hl.
  - destruct (can_end_here tokens j sentence Hin Hj) as (more & s' & H1 & H2 & H3).
    exists more, s', tokens. done.
  - destruct (generate_token self (window tokens j) p) as [self1 [token|e]] eqn:Hg.
    + rewrite (loop_returned SENTENCE_END_TOKEN p draws _ sentence _ _ _ Hg) in Hl.
      destruct (String.eqb_spec token SENTENCE_END_TOKEN) as [Heq|Hne];
        [discriminate Hl|].
      destruct (step_reach tokens j p token self1 Hg Hne)
        as (-> & tokens' & j' & Hin' & Hj' & Hw).
      rewrite Hw in Hl.
      destruct (IH tokens' j' _ _ Hin' Hj' Hl) as (more & s' & t' & H1 & H2 & H3 & H4).
      exists more, s', t'. split; [done|]. split; [done|]. split; [done|].
      rewrite <- app_comm_cons,
        (loop_returned SENTENCE_END_TOKEN p (draws ++ more) _ sentence _ _ _ Hg).
      destruct (String.eqb_spec token SENTENCE_END_TOKEN) as [|_]; [done|].
      by rewrite Hw.
    + simpl in Hl. rewrite Hg in Hl. discriminate Hl.
Qed.

(** A call that is still going can be continued to one that returns. *)
Lemma call_can_end (draws : list num) self' :
  corpus <> [] ->
  __call__ SENTENCE_START_TOKEN SENTENCE_END_TOKEN self draws = (self', None) ->
  exists more sentence tokens,
    tokens ∈ corpus
    /\ length more <= length tokens
    /\ Forall is_draw more
    /\ __call__ SENTENCE_START_TOKEN SENTENCE_END_TOKEN self (draws ++ more)
       = (self, Some (Returned sentence)).
Proof.
  intros Hne Hrun. unfold __call__ in *.
  change (replicate (n self - 1) SENTENCE_START_TOKEN)
    with (replicate (self_n - 1) SENTENCE_START_TOKEN) in *.
  assert (exists tokens, tokens ∈ corpus) as [tokens Hin]
    by (destruct corpus as [|tokens ?]; [done|];
        exists tokens; apply list_elem_of_here).
  assert (0 < length tokens) as Hlen.
  { pose proof (lines_end tokens Hin) as Hlast. destruct tokens; [done | simpl; lia]. }
  rewrite <- (window_0 SENTENCE_START_TOKEN self_n tokens) in Hrun |- *.
  exact (can_end_from draws tokens 0 "" self' Hin Hlen Hrun).
Qed.

End Termination.

Section TerminationTheorem.
Import Py NGramModel Occurrences.
Variable SENTENCE_START_TOKEN : string.
Variable SENTENCE_END_TOKEN : string.

(** In binary64 and for a corpus of fewer than [2^25] tokens, some value of
    [random.random()] makes the step at the window of position [j] of a
    line return the token the line has there. *)
Lemma select_token_float (self_n : nat) (corpus : list (list string))
    (tokens : list string) (j : nat) (word : string) :
  1 <= self_n ->
  (Z.of_nat (sum_list (length <$> corpus)) < 2 ^ 25)%Z ->
  tokens ∈ corpus ->
  tokens !! j = Some word ->
  let self := __init__ (num:=float) SENTENCE_START_TOKEN corpus self_n in
  exists p, random_draw p
            /\ generate_token self (window SENTENCE_START_TOKEN self_n tokens j) p
               = (self, Returned word).
Proof.
  intros Hn Hsize Hin Hj self.
  destruct (counted_corpus SENTENCE_START_TOKEN self_n corpus tokens j word)
    as (d & Hd & Hw); [done..|].
  pose proof (count_corpus_well_counted _ _ _ _ _ Hd) as Hwc.
  assert (ngram_dict self !! window SENTENCE_START_TOKEN self_n tokens j
          = Some (normalize d)) as Hc.
  { simpl. apply lookup_init_ngram_dict. by exists d. }
  destruct (float_select d word Hwc) as (p & Hp & Hwalk); [|exact Hw|].
  - destruct (count_corpus_occurrences SENTENCE_START_TOKEN self_n Hn corpus
                (window SENTENCE_START_TOKEN self_n tokens j) "")
      as [_ Htotal].
    unfold get_total in Htotal. rewrite Hd in Htotal. simpl default in Htotal.
    pose proof (context_occurrences_le SENTENCE_START_TOKEN self_n corpus
                  (window SENTENCE_START_TOKEN self_n tokens j)).
    lia.
  - exists p. split; [exact Hp|].
    rewrite (generate_token_present _ _ _ _ Hc). by rewrite Hwalk.
Qed.

(** C8, amended: generation has no bound that holds for all draws, but in a
    table built from a corpus whose token lines all end with the end marker
    it can always end: a run that is still going after any draws is
    continued, by no more draws than some line has tokens, to a run that
    returns a sentence and leaves the model unchanged.  This holds over
    exact rationals with draws in [0, 1), and in binary64, for a corpus of
    fewer than [2^25] tokens, with draws that are values of
    [random.random()]. *)
Theorem generation_can_end (self_n : nat) (corpus : list (list string)) :
  1 <= self_n ->
  corpus <> [] ->
  (forall tokens, tokens ∈ corpus -> last tokens = Some SENTENCE_END_TOKEN) ->
  (forall (draws : list Q) self',
     let self := __init__ (num:=Q) SENTENCE_START_TOKEN corpus self_n in
     __call__ SENTENCE_START_TOKEN SENTENCE_END_TOKEN self draws = (self', None) ->
     exists more sentence tokens,
       tokens ∈ corpus
       /\ length more <= length tokens
       /\ Forall unit_draw more
       /\ __call__ SENTENCE_START_TOKEN SENTENCE_END_TOKEN self (draws ++ more)
          = (self, Some (Returned sentence)))
  /\ ((Z.of_nat (sum_list (length <$> corpus)) < 2 ^ 25)%Z ->
      forall (draws : list float) self',
        let self := __init__ (num:=float) SENTENCE_START_TOKEN corpus self_n in
        __call__ SENTENCE_START_TOKEN SENTENCE_END_TOKEN self draws
        = (self', None) ->
        exists more sentence tokens,
          tokens ∈ corpus
          /\ length more <= length tokens
          /\ Forall random_draw more
          /\ __call__ SENTENCE_START_TOKEN SENTENCE_END_TOKEN self
               (draws ++ more)
             = (self, Some (Returned sentence))).
Proof.
  intros Hn Hne Hlines. split.
  - intros draws self' self Hrun.
    apply (call_can_end SENTENCE_START_TOKEN SENTENCE_END_TOKEN self_n corpus
             unit_draw Hn Hlines) with (self' := self'); [|exact Hne|exact Hrun].
    intros tokens j word Hin Hj.
    by apply (select_token SENTENCE_START_TOKEN self_n corpus tokens Hn Hin).
  - intros Hsize draws self' self Hrun.
    apply (call_can_end SENTENCE_START_TOKEN SENTENCE_END_TOKEN self_n corpus
             random_draw Hn Hlines) with (self' := self'); [|exact Hne|exact Hrun].
    intros tokens j word Hin Hj.
    by apply (select_token_float self_n corpus tokens j word Hn Hsize Hin).
Qed.

End TerminationTheorem.

Lemma generation_can_end_witness :
  (exists more sentence tokens,
     tokens ∈ cat_corpus
     /\ length more <= length tokens
     /\ Forall unit_draw more
     /\ NGramModel.__call__ sample_start sample_end cat_model ([0%Q] ++ more)
        = (cat_model, Some (Returned sentence)))
  /\ (exists more sentence tokens,
        tokens ∈ cat_corpus
        /\ length more <= length tokens
        /\ Forall random_draw more
        /\ NGramModel.__call__ sample_start sample_end
             (NGramModel.__init__ (num:=float) sample_start cat_corpus 2)
             ([0%float] ++ more)
           = (NGramModel.__init__ (num:=float) sample_start cat_corpus 2,
              Some (Returned sentence))).
Proof.
  destruct (generation_can_end sample_start sample_end 2 cat_corpus)
    as [Hexact Hfloat].
  - lia.
  - discriminate.
  - intros tokens Ht.
    assert (cat_corpus = [["the"; "cat"; "sat"; "."; sample_end];
                          ["the"; "cat"; "ran"; "."; sample_end]]) as Heq
      by reflexivity.
    rewrite Heq in Ht.
    apply elem_of_cons in Ht as [->|Ht]; [reflexivity|].
    apply list_elem_of_singleton in Ht as ->. reflexivity.
  - split.
    + apply (Hexact [0%Q] cat_model). vm_compute. reflexivity.
    + apply (Hfloat ltac:(vm_compute; reflexivity) [0%float]
               (NGramModel.__init__ (num:=float) sample_start cat_corpus 2)).
      vm_compute. reflexivity.
Defined.
